(** * Reading-assistance overlay: decision and post-processing layer

    A shallow embedding of the JavaScript sources of the overlay:
    - [ChangeDetector] (frame differ and change state machine),
    - [MeikiOCR] (detection and recognition reducers),
    - [LineFilter] ([filterOCRLine] and its rolling buffer),
    - [App] (the glue of [index.js]: busy flag, sampler ticks, OCR passes).

    JavaScript numbers are modelled by [Js.number]: rationals for the
    finite values, together with [NaN] and the two infinities; the sign of
    zero is abstracted away.  Comparisons, [Math.min]/[Math.max] and
    arithmetic on the special values follow IEEE 754 as JavaScript does.
    [Js.add], [Js.sub], [Js.mul] and [Js.div] are exact; where a result of
    the program turns on rounding, its arithmetic is written with
    [Js.fadd], [Js.fsub], [Js.fmul] and [Js.fdiv], which round to the
    nearest double as the machine does, and [Js.fround], which rounds to
    single precision as a store into a [Float32Array] does.
    Strings are sequences of UTF-16 code units. *)

From Stdlib Require Import ZArith QArith Qround Qabs Qpower Lia Lqa Bool Sorted.
From stdpp Require Import base list gmap strings.

Local Open Scope Z_scope.

(* ===================================================================== *)
(** * JavaScript numbers *)
(* ===================================================================== *)

Module Js.

Inductive number : Type :=
| NaN
| NegInfinity
| Num (q : Q)
| Infinity.

Definition of_Z (z : Z) : number := Num (inject_Z z).

Definition Qltb (a b : Q) : bool := negb (Qle_bool b a).

(** [a < b] *)
Definition ltb (a b : number) : bool :=
  match a, b with
  | NaN, _ | _, NaN => false
  | Num x, Num y => Qltb x y
  | NegInfinity, NegInfinity => false
  | NegInfinity, _ => true
  | Num _, Infinity => true
  | Num _, NegInfinity => false
  | Infinity, _ => false
  end.

(** [a <= b] *)
Definition leb (a b : number) : bool :=
  match a, b with
  | NaN, _ | _, NaN => false
  | Num x, Num y => Qle_bool x y
  | NegInfinity, _ => true
  | Num _, Infinity => true
  | Num _, NegInfinity => false
  | Infinity, Infinity => true
  | Infinity, _ => false
  end.

(** [a > b] and [a >= b] *)
Definition gtb (a b : number) : bool := ltb b a.
Definition geb (a b : number) : bool := leb b a.

(** [a === b] on numbers *)
Definition eqb (a b : number) : bool :=
  match a, b with
  | Num x, Num y => Qeq_bool x y
  | NegInfinity, NegInfinity => true
  | Infinity, Infinity => true
  | _, _ => false
  end.

(** Truthiness of a number: [0] and [NaN] are falsy. *)
Definition truthy (a : number) : bool :=
  match a with
  | NaN => false
  | Num x => negb (Qeq_bool x 0)
  | _ => true
  end.

(** [o || d] for an optional numeric property [o] of an options object. *)
Definition or_default (o : option number) (d : number) : number :=
  match o with
  | Some v => if truthy v then v else d
  | None => d
  end.

Definition is_nan (a : number) : bool :=
  match a with NaN => true | _ => false end.

(** [Math.min(a, b)] and [Math.max(a, b)] *)
Definition min (a b : number) : number :=
  if is_nan a || is_nan b then NaN else if leb a b then a else b.

Definition max (a b : number) : number :=
  if is_nan a || is_nan b then NaN else if leb a b then b else a.

(** [Math.abs(a)] *)
Definition abs (a : number) : number :=
  match a with
  | NaN => NaN
  | Num x => Num (Qabs x)
  | _ => Infinity
  end.

(** [Math.floor(a)] *)
Definition floor (a : number) : number :=
  match a with
  | Num x => Num (inject_Z (Qfloor x))
  | _ => a
  end.

Definition opp (a : number) : number :=
  match a with
  | NaN => NaN
  | NegInfinity => Infinity
  | Num x => Num (- x)
  | Infinity => NegInfinity
  end.

(** [a + b] *)
Definition add (a b : number) : number :=
  match a, b with
  | NaN, _ | _, NaN => NaN
  | Num x, Num y => Num (x + y)
  | Infinity, NegInfinity | NegInfinity, Infinity => NaN
  | Infinity, _ | _, Infinity => Infinity
  | NegInfinity, _ | _, NegInfinity => NegInfinity
  end.

(** [a - b] *)
Definition sub (a b : number) : number :=
  match a, b with
  | Num x, Num y => Num (x - y)
  | _, _ => add a (opp b)
  end.

(** Sign of a number; zero counts as positive zero. *)
Inductive sign := Neg | Zero | Pos.

Definition sgn (a : number) : option sign :=
  match a with
  | NaN => None
  | NegInfinity => Some Neg
  | Infinity => Some Pos
  | Num x => Some (if Qeq_bool x 0 then Zero else if Qle_bool x 0 then Neg else Pos)
  end.

Definition signed_infinity (s t : sign) : number :=
  match s, t with
  | Neg, Neg | Pos, Pos | Pos, Zero | Zero, Pos | Zero, Zero => Infinity
  | _, _ => NegInfinity
  end.

Definition is_finite (a : number) : bool :=
  match a with Num _ => true | _ => false end.

(** [a * b] *)
Definition mul (a b : number) : number :=
  match a, b with
  | Num x, Num y => Num (x * y)
  | _, _ =>
      match sgn a, sgn b with
      | Some Zero, _ | _, Some Zero => NaN
      | Some s, Some t => signed_infinity s t
      | _, _ => NaN
      end
  end.

(** [a / b] *)
Definition div (a b : number) : number :=
  match a, b with
  | NaN, _ | _, NaN => NaN
  | Num x, Num y =>
      if Qeq_bool y 0 then
        match sgn a with
        | Some Pos => Infinity
        | Some Neg => NegInfinity
        | _ => NaN
        end
      else Num (x / y)
  | Num _, _ => Num 0
  | _, Num _ =>
      match sgn a, sgn b with
      | Some s, Some t => signed_infinity s t
      | _, _ => NaN
      end
  | _, _ => NaN
  end.

(** ** Rounding *)

Definition pow2 (e : Z) : Q := (2 ^ e)%Q.

(** The exponent of the binade of a positive rational: the [e] with
    [2^e <= x < 2^(e+1)]. *)
Definition ilog2 (x : Q) : Z :=
  let e := Z.log2 (Qnum x) - Z.log2 (Zpos (Qden x)) in
  if Qle_bool (pow2 e) x then e else e - 1.

(** The nearest integer, ties going to the even one. *)
Definition nearest_even (x : Q) : Z :=
  let f := Qfloor x in
  match (x - inject_Z f ?= 1 # 2)%Q with
  | Lt => f
  | Gt => f + 1
  | Eq => if Z.even f then f else f + 1
  end.

(** Rounding to the nearest number of a binary format with [prec] bits of
    precision, ties to even: the unit in the last place is [2^u] with [u]
    not below [emin] (gradual underflow), and a result of [2^emax] or more
    is an infinity. *)
Definition round_to (prec emin emax : Z) (x : Q) : number :=
  if Qeq_bool x 0 then Num 0
  else
    let a := Qabs x in
    let u := Z.max (ilog2 a - prec + 1) emin in
    let r := Qred (inject_Z (nearest_even (a / pow2 u)) * pow2 u) in
    if Qle_bool (pow2 emax) r
    then (if Qle_bool 0 x then Infinity else NegInfinity)
    else Num (if Qle_bool 0 x then r else - r).

(** binary64, the format of every JavaScript number, and binary32, the
    format of the elements of a [Float32Array]. *)
Definition double (x : Q) : number := round_to 53 (-1074) 1024 x.
Definition single (x : Q) : number := round_to 24 (-149) 128 x.

Definition rounded (a : number) : number :=
  match a with
  | Num x => double x
  | _ => a
  end.

(** [a + b], [a - b], [a * b] and [a / b] as the machine computes them. *)
Definition fadd (a b : number) : number := rounded (add a b).
Definition fsub (a b : number) : number := rounded (sub a b).
Definition fmul (a b : number) : number := rounded (mul a b).
Definition fdiv (a b : number) : number := rounded (div a b).

(** [Math.fround(a)], and what a [Float32Array] element holds after [a]
    was assigned to it. *)
Definition fround (a : number) : number :=
  match a with
  | Num x => single x
  | _ => a
  end.

End Js.

Declare Scope js_scope.
Delimit Scope js_scope with js.
Bind Scope js_scope with Js.number.
Notation "a <? b" := (Js.ltb a b) : js_scope.
Notation "a <=? b" := (Js.leb a b) : js_scope.
Notation "a >? b" := (Js.gtb a b) : js_scope.
Notation "a >=? b" := (Js.geb a b) : js_scope.
Notation "a + b" := (Js.add a b) : js_scope.
Notation "a - b" := (Js.sub a b) : js_scope.
Notation "a * b" := (Js.mul a b) : js_scope.
Notation "a / b" := (Js.div a b) : js_scope.

(** Decimal literals of the source, as exact rationals. *)
Definition dec (n : Z) (d : positive) : Js.number := Js.Num (n # d).

(** A decimal literal as the number the source text denotes: the nearest
    double. *)
Definition lit (n : Z) (d : positive) : Js.number := Js.double (n # d).

(* ===================================================================== *)
(** * Change detection: frame differ and state machine *)
(* ===================================================================== *)

Module ChangeDetector.

(** An [ImageData]: RGBA bytes, four per pixel, row by row. *)
Record ImageData : Type := {
  width : Z;
  height : Z;
  data : list Z
}.

(** What the canvas API guarantees of every [ImageData] it hands out. *)
Definition wf_frame (f : ImageData) : Prop :=
  0 < width f /\ 0 < height f /\
  Z.of_nat (length (data f)) = 4 * width f * height f.

Inductive State : Type := idle | change_detected | waiting_for_stability.

(** The [options] argument of the constructor; an absent property is [None]. *)
Record Options : Type := {
  o_scanInterval : option Js.number;
  o_scaleDownFactor : option Js.number;
  o_changeThreshold : option Js.number;
  o_lowChangeThreshold : option Js.number;
  o_stabilityFrames : option Js.number;
  o_pixelDiffThreshold : option Js.number
}.

Definition no_options : Options :=
  {| o_scanInterval := None; o_scaleDownFactor := None;
     o_changeThreshold := None; o_lowChangeThreshold := None;
     o_stabilityFrames := None; o_pixelDiffThreshold := None |}.

(** The instance fields.  [videoElement], [cropSettings], [onTrigger] and
    [intervalId] only matter through being set or null. *)
Record t : Type := {
  scanInterval : Js.number;
  scaleDownFactor : Js.number;
  changeThreshold : Js.number;
  lowChangeThreshold : Js.number;
  stabilityFrames : Js.number;
  pixelDiffThreshold : Js.number;
  videoElement : bool;
  cropSettings : bool;
  onTrigger : bool;
  intervalId : bool;
  lastFrame : option ImageData;
  state : State;
  stableFrameCount : Z;
  lastChangePercent : Js.number;
  triggeredCount : Z
}.

Definition constructor (options : Options) : t :=
  {| scanInterval := Js.or_default (o_scanInterval options) (Js.of_Z 80);
     scaleDownFactor := Js.or_default (o_scaleDownFactor options) (Js.of_Z 4);
     changeThreshold := Js.or_default (o_changeThreshold options) (dec 15 1000);
     lowChangeThreshold := Js.or_default (o_lowChangeThreshold options) (dec 1 100);
     stabilityFrames := Js.or_default (o_stabilityFrames options) (Js.of_Z 3);
     pixelDiffThreshold := Js.or_default (o_pixelDiffThreshold options) (Js.of_Z 20);
     videoElement := false;
     cropSettings := false;
     onTrigger := false;
     intervalId := false;
     lastFrame := None;
     state := idle;
     stableFrameCount := 0;
     lastChangePercent := Js.of_Z 0;
     triggeredCount := 0 |}.

Definition set_machine (d : t) (s : State) (c : Z) : t :=
  {| scanInterval := scanInterval d; scaleDownFactor := scaleDownFactor d;
     changeThreshold := changeThreshold d;
     lowChangeThreshold := lowChangeThreshold d;
     stabilityFrames := stabilityFrames d;
     pixelDiffThreshold := pixelDiffThreshold d;
     videoElement := videoElement d; cropSettings := cropSettings d;
     onTrigger := onTrigger d; intervalId := intervalId d;
     lastFrame := lastFrame d;
     state := s; stableFrameCount := c;
     lastChangePercent := lastChangePercent d;
     triggeredCount := triggeredCount d |}.

Definition set_lastFrame (d : t) (f : option ImageData) : t :=
  {| scanInterval := scanInterval d; scaleDownFactor := scaleDownFactor d;
     changeThreshold := changeThreshold d;
     lowChangeThreshold := lowChangeThreshold d;
     stabilityFrames := stabilityFrames d;
     pixelDiffThreshold := pixelDiffThreshold d;
     videoElement := videoElement d; cropSettings := cropSettings d;
     onTrigger := onTrigger d; intervalId := intervalId d;
     lastFrame := f;
     state := state d; stableFrameCount := stableFrameCount d;
     lastChangePercent := lastChangePercent d;
     triggeredCount := triggeredCount d |}.

Definition set_stats (d : t) (p : Js.number) (n : Z) : t :=
  {| scanInterval := scanInterval d; scaleDownFactor := scaleDownFactor d;
     changeThreshold := changeThreshold d;
     lowChangeThreshold := lowChangeThreshold d;
     stabilityFrames := stabilityFrames d;
     pixelDiffThreshold := pixelDiffThreshold d;
     videoElement := videoElement d; cropSettings := cropSettings d;
     onTrigger := onTrigger d; intervalId := intervalId d;
     lastFrame := lastFrame d;
     state := state d; stableFrameCount := stableFrameCount d;
     lastChangePercent := p;
     triggeredCount := n |}.

Definition set_wiring (d : t) (video crop trigger interval : bool) : t :=
  {| scanInterval := scanInterval d; scaleDownFactor := scaleDownFactor d;
     changeThreshold := changeThreshold d;
     lowChangeThreshold := lowChangeThreshold d;
     stabilityFrames := stabilityFrames d;
     pixelDiffThreshold := pixelDiffThreshold d;
     videoElement := video; cropSettings := crop;
     onTrigger := trigger; intervalId := interval;
     lastFrame := lastFrame d;
     state := state d; stableFrameCount := stableFrameCount d;
     lastChangePercent := lastChangePercent d;
     triggeredCount := triggeredCount d |}.

(** [stop()]: clears the interval, goes back to [idle] and forgets the last
    frame; the stable-frame counter is left as it is. *)
Definition stop (d : t) : t :=
  let d := set_wiring d (videoElement d) (cropSettings d) (onTrigger d) false in
  set_lastFrame (set_machine d idle (stableFrameCount d)) None.

(** [start(videoElement, cropSettings, onTrigger)] *)
Definition start (d : t) : t :=
  let d := stop d in
  let d := set_wiring d true true true (intervalId d) in
  let d := set_lastFrame (set_machine d idle 0) None in
  set_wiring d (videoElement d) (cropSettings d) (onTrigger d) true.

(** [processStateChange(changePercent)]: the new detector, and whether the
    [onTrigger] callback was called. *)
Definition processStateChange (d : t) (changePercent : Js.number) : t * bool :=
  match state d with
  | idle =>
      if (changePercent >? changeThreshold d)%js
      then (set_machine d change_detected 0, false)
      else (d, false)
  | change_detected =>
      if (changePercent <? lowChangeThreshold d)%js
      then (set_machine d waiting_for_stability 1, false)
      else (d, false)
  | waiting_for_stability =>
      if (changePercent <? lowChangeThreshold d)%js then
        let d := set_machine d (state d) (stableFrameCount d + 1) in
        if (Js.of_Z (stableFrameCount d) >=? stabilityFrames d)%js then
          let d := set_stats d (lastChangePercent d) (triggeredCount d + 1) in
          (set_machine d idle 0, onTrigger d)
        else (d, false)
      else if (changePercent >? changeThreshold d)%js
      then (set_machine d change_detected 0, false)
      else (set_machine d (state d) 0, false)
  end.

(** [data[i]] of a typed array, as a number; out of range it is
    [undefined], which arithmetic turns into [NaN]. *)
Definition channel (data : list Z) (i : nat) : Js.number :=
  match data !! i with
  | Some b => Js.of_Z b
  | None => Js.NaN
  end.

(** The values [i] takes in [for (let i = 0; i < n; i += 4)]. *)
Definition pixel_offsets (n : nat) : list nat :=
  map (fun k => 4 * k)%nat (seq 0 (Nat.div (n + 3) 4)).

(** The body of the loop of [compareFrames], up to the test. *)
Definition totalDiff (data1 data2 : list Z) (i : nat) : Js.number :=
  let rDiff := Js.abs (channel data1 i - channel data2 i)%js in
  let gDiff := Js.abs (channel data1 (i + 1) - channel data2 (i + 1))%js in
  let bDiff := Js.abs (channel data1 (i + 2) - channel data2 (i + 2))%js in
  (rDiff + gDiff + bDiff)%js.

Definition countDiff (threshold : Js.number) (data1 data2 : list Z) : Z :=
  foldl (fun diffCount i =>
           if (totalDiff data1 data2 i >? threshold)%js
           then diffCount + 1 else diffCount)
        0 (pixel_offsets (length data1)).

(** [compareFrames(frame1, frame2)].  The quotient of the length by 4 is
    exact; the returned quotient is rounded. *)
Definition compareFrames (d : t) (frame1 frame2 : ImageData) : Js.number :=
  let data1 := data frame1 in
  let data2 := data frame2 in
  let diffCount := countDiff (pixelDiffThreshold d) data1 data2 in
  let totalPixels := (Js.of_Z (Z.of_nat (length data1)) / Js.of_Z 4)%js in
  Js.fdiv (Js.of_Z diffCount) totalPixels.

(** [checkFrame()], one tick of the sampler.  [timer] is
    [window.Timer.isRunning] ([None] when no timer is installed) and
    [captured] is what [captureScaledFrame()] returns ([None] when it
    throws, which the [try] swallows). *)
Definition checkFrame (d : t) (timer : option bool)
    (captured : option ImageData) : t * bool :=
  if negb (videoElement d) || negb (cropSettings d) then (d, false)
  else if match timer with Some running => negb running | None => false end
  then (d, false)
  else
    match captured with
    | None => (d, false)
    | Some currentFrame =>
        match lastFrame d with
        | None => (set_lastFrame d (Some currentFrame), false)
        | Some last =>
            let changePercent := compareFrames d last currentFrame in
            let d := set_stats d changePercent (triggeredCount d) in
            let '(d, fired) := processStateChange d changePercent in
            (set_lastFrame d (Some currentFrame), fired)
        end
    end.

(** A scripted run of the state machine: feed the fractions in order and
    record, for each, whether the trigger fired. *)
Fixpoint run (d : t) (fractions : list Js.number) : t * list bool :=
  match fractions with
  | [] => (d, [])
  | p :: rest =>
      let '(d1, fired) := processStateChange d p in
      let '(d2, log) := run d1 rest in
      (d2, fired :: log)
  end.

End ChangeDetector.

(* ===================================================================== *)
(** * Results of fallible code *)
(* ===================================================================== *)

Inductive exn : Type :=
| TypeError        (* a property read on [undefined] or [null] *)
| NotInitialized   (* [throw new Error('... not initialized ...')] *)
| LoopBound        (* the bound this model puts on a [while] loop was hit *)
| InvalidStateError. (* [drawImage] given a canvas without pixels *)

Inductive outcome (A : Type) : Type :=
| Return (a : A)
| Throw (e : exn).
Arguments Return {A} a.
Arguments Throw {A} e.

#[global] Instance outcome_bind : MBind outcome := fun A B k m =>
  match m with
  | Return a => k a
  | Throw e => Throw e
  end.

(** [Array.prototype.sort(compare)]: a stable sort; an element moves behind
    another only when [compare] is positive ([NaN] counts as zero). *)
Section Sort.
Context {A : Type} (compare : A -> A -> Js.number).

Fixpoint sort_insert (x : A) (l : list A) : list A :=
  match l with
  | [] => [x]
  | y :: l' =>
      if (compare x y >? Js.of_Z 0)%js
      then y :: sort_insert x l'
      else x :: y :: l'
  end.

Definition array_sort (l : list A) : list A := foldr sort_insert [] l.
End Sort.

(* ===================================================================== *)
(** * MeikiOCR: detection and recognition reducers *)
(* ===================================================================== *)

Module MeikiOCR.

Definition DETECT_INPUT_SIZE : Js.number := Js.of_Z 640.
Definition RECOGNIZE_INPUT_WIDTH : Js.number := Js.of_Z 960.
Definition RECOGNIZE_INPUT_HEIGHT : Js.number := Js.of_Z 32.

Definition DETECT_CONFIDENCE : Js.number := dec 3 10.
Definition RECOGNIZE_CONFIDENCE : Js.number := dec 1 10.
Definition X_OVERLAP : Js.number := lit 3 10.

(** A box [[x1, y1, x2, y2]]. *)
Record Box : Type := {
  bx1 : Js.number;
  by1 : Js.number;
  bx2 : Js.number;
  by2 : Js.number
}.

(** A region [{box, score}]. *)
Record Region : Type := {
  box : Box;
  score : Js.number
}.

(** [boxesOverlap(box1, box2)] *)
Definition boxesOverlap (box1 box2 : Box) : bool :=
  let noOverlap :=
    (bx2 box1 <=? bx1 box2)%js || (bx2 box2 <=? bx1 box1)%js ||
    (by2 box1 <=? by1 box2)%js || (by2 box2 <=? by1 box1)%js in
  negb noOverlap.

(** [boxesOverlap(regions[j].box, regions[groupIdx].box)].  Both indices
    are below [regions.length] wherever the merge step reads them ([j]
    runs over the indices and a group only ever holds such [j]), so the
    reads never miss. *)
Definition overlapAt (regions : list Region) (j groupIdx : nat) : bool :=
  match regions !! j, regions !! groupIdx with
  | Some rj, Some rg => boxesOverlap (box rj) (box rg)
  | _, _ => false
  end.

(** The inner [for (const groupIdx of group)] with its [break]. *)
Definition overlapsGroup (regions : list Region) (j : nat) (group : list nat) : bool :=
  existsb (overlapAt regions j) group.

(** One run of [for (let j = 0; j < regions.length; j++)] inside the
    [while]: the group, the [used] set and the [changed] flag after it. *)
Definition sweep_step (regions : list Region)
    (st : list nat * gset nat * bool) (j : nat) : list nat * gset nat * bool :=
  let '(group, used, changed) := st in
  if bool_decide (j ∈ used) then st
  else if overlapsGroup regions j group
       then (group ++ [j], {[j]} ∪ used, true)
       else st.

Definition sweep (regions : list Region) (group : list nat) (used : gset nat)
  : list nat * gset nat * bool :=
  foldl (sweep_step regions) (group, used, false) (seq 0 (length regions)).

(** [while (changed) { ... }], at most [bound] sweeps. *)
Fixpoint grow (bound : nat) (regions : list Region) (group : list nat)
    (used : gset nat) : outcome (list nat * gset nat) :=
  match bound with
  | O => Throw LoopBound
  | S bound' =>
      let '(group', used', changed) := sweep regions group used in
      if changed then grow bound' regions group' used'
      else Return (group', used')
  end.

(** The outer [for (let i = 0; ...)] that builds [groups]. *)
Fixpoint collect (regions : list Region) (indices : list nat)
    (groups : list (list nat)) (used : gset nat) : outcome (list (list nat)) :=
  match indices with
  | [] => Return groups
  | i :: rest =>
      if bool_decide (i ∈ used) then collect regions rest groups used
      else
        '(group, used') ← grow (S (length regions)) regions [i] ({[i]} ∪ used);
        collect regions rest (groups ++ [group]) used'
  end.

Definition groupIndices (regions : list Region) : outcome (list (list nat)) :=
  collect regions (seq 0 (length regions)) [] ∅.

(** The accumulators [minX, minY, maxX, maxY, maxScore] of the union loop. *)
Record Extent : Type := {
  minX : Js.number;
  minY : Js.number;
  maxX : Js.number;
  maxY : Js.number;
  maxScore : Js.number
}.

Definition extent_init : Extent :=
  {| minX := Js.Infinity; minY := Js.Infinity;
     maxX := Js.NegInfinity; maxY := Js.NegInfinity;
     maxScore := Js.NegInfinity |}.

Definition extent_step (regions : list Region) (e : Extent) (idx : nat) : Extent :=
  match regions !! idx with
  | Some r =>
      {| minX := Js.min (minX e) (bx1 (box r));
         minY := Js.min (minY e) (by1 (box r));
         maxX := Js.max (maxX e) (bx2 (box r));
         maxY := Js.max (maxY e) (by2 (box r));
         maxScore := Js.max (maxScore e) (score r) |}
  | None => e
  end.

Definition mergeGroup (regions : list Region) (group : list nat) : Region :=
  let e := foldl (extent_step regions) extent_init group in
  {| box := {| bx1 := minX e; by1 := minY e; bx2 := maxX e; by2 := maxY e |};
     score := maxScore e |}.

(** [mergeOverlappingBoxes(regions)] *)
Definition mergeOverlappingBoxes (regions : list Region) : outcome (list Region) :=
  if Nat.eqb (length regions) 0 then Return []
  else
    groups ← groupIndices regions;
    Return (map (mergeGroup regions) groups).

(** An output tensor of the inference engine; [data] may be missing. *)
Record Tensor : Type := { tdata : option (list Js.number) }.

(** What [session.run] resolved to: [None] for [undefined] or [null],
    otherwise the own properties of the object in key order. *)
Definition Results : Type := option (list (string * Tensor)).

Fixpoint property (name : string) (props : list (string * Tensor)) : option Tensor :=
  match props with
  | [] => None
  | (k, v) :: rest => if String.eqb k name then Some v else property name rest
  end.

(** [results[keys[n]].data] with [keys = Object.keys(results)]: a missing
    key makes the property read yield [undefined], whose [.data] throws. *)
Definition dataOfNthKey (props : list (string * Tensor)) (n : nat)
  : outcome (option (list Js.number)) :=
  match props !! n with
  | Some (_, v) => Return (tdata v)
  | None => Throw TypeError
  end.

(** [a[i]] read as a number: [undefined] becomes [NaN] in arithmetic
    and comparisons. *)
Definition element (a : list Js.number) (i : nat) : Js.number :=
  match a !! i with
  | Some v => v
  | None => Js.NaN
  end.

Definition clamp (v bound : Js.number) : Js.number :=
  Js.max (Js.of_Z 0) (Js.min v bound).

(** The filter-and-rescale loop of [detectTextRegions], run over the
    indices [i] of [scores].  [boxes] being [undefined] only throws when
    an entry passes the confidence test and the box is read. *)
Fixpoint detectedRegions (scale origWidth origHeight : Js.number)
    (boxes : option (list Js.number)) (scores : list Js.number)
    (indices : list nat) : outcome (list Region) :=
  match indices with
  | [] => Return []
  | i :: rest =>
      if (element scores i <? DETECT_CONFIDENCE)%js
      then detectedRegions scale origWidth origHeight boxes scores rest
      else
        match boxes with
        | None => Throw TypeError
        | Some boxes' =>
            let b0 := Js.floor (element boxes' (i * 4) / scale)%js in
            let b1 := Js.floor (element boxes' (i * 4 + 1) / scale)%js in
            let b2 := Js.floor (element boxes' (i * 4 + 2) / scale)%js in
            let b3 := Js.floor (element boxes' (i * 4 + 3) / scale)%js in
            let region :=
              {| box := {| bx1 := clamp b0 origWidth; by1 := clamp b1 origHeight;
                           bx2 := clamp b2 origWidth; by2 := clamp b3 origHeight |};
                 score := element scores i |} in
            tail ← detectedRegions scale origWidth origHeight boxes scores rest;
            Return (region :: tail)
        end
  end.

(** [detectTextRegions], from the point where the engine has answered.
    [session] is whether [detectSession] is set; [scale], [origWidth] and
    [origHeight] come from the preprocessing; [results] is the answer. *)
Definition detectTextRegions (session : bool)
    (scale origWidth origHeight : Js.number) (results : Results)
  : outcome (list Region) :=
  if negb session then Throw NotInitialized
  else
    match results with
    | None => Throw TypeError
    | Some props =>
        '(boxes, scores) ←
          match property "boxes" props, property "scores" props with
          | Some b, Some s => Return (tdata b, tdata s)
          | _, _ =>
              b ← dataOfNthKey props 0;
              s ← dataOfNthKey props 1;
              Return (b, s)
          end;
        match scores with
        | None => Throw TypeError
        | Some scores' =>
            regions ← detectedRegions scale origWidth origHeight boxes scores'
                          (seq 0 (length scores'));
            mergedRegions ← mergeOverlappingBoxes regions;
            Return (array_sort (fun a b => (by1 (box a) - by1 (box b))%js)
                               mergedRegions)
        end
    end.

(** A character candidate of the recognition stage. *)
Record Candidate : Type := {
  char : Z;
  bbox : Box;
  conf : Js.number;
  xStart : Js.number;
  xEnd : Js.number
}.

(** The candidate built from entry [i] of the raw output. *)
Definition candidateAt (labels : list Z) (boxes scores : list Js.number)
    (effectiveWidth origWidth origHeight : Js.number) (i : nat) : Candidate :=
  let score := element scores i in
  let label := default 0 (labels !! i) in
  let rx1 := Js.min (element boxes (i * 4)) effectiveWidth in
  let ry1 := element boxes (i * 4 + 1) in
  let rx2 := Js.min (element boxes (i * 4 + 2)) effectiveWidth in
  let ry2 := element boxes (i * 4 + 3) in
  let cx1 := Js.fmul (Js.fdiv rx1 effectiveWidth) origWidth in
  let cx2 := Js.fmul (Js.fdiv rx2 effectiveWidth) origWidth in
  let cy1 := Js.fmul (Js.fdiv ry1 RECOGNIZE_INPUT_HEIGHT) origHeight in
  let cy2 := Js.fmul (Js.fdiv ry2 RECOGNIZE_INPUT_HEIGHT) origHeight in
  {| char := label mod 65536;
     bbox := {| bx1 := Js.floor cx1; by1 := Js.floor cy1;
                bx2 := Js.floor cx2; by2 := Js.floor cy2 |};
     conf := score;
     xStart := cx1;
     xEnd := cx2 |}.

Definition rawCandidates (labels : list Z) (boxes scores : list Js.number)
    (effectiveWidth origWidth origHeight : Js.number) : list Candidate :=
  map (candidateAt labels boxes scores effectiveWidth origWidth origHeight)
      (filter (fun i => (element scores i <? RECOGNIZE_CONFIDENCE)%js = false)
              (seq 0 (length labels))).

(** The test of the inner deduplication loop, in the machine's
    arithmetic. *)
Definition overlapsTooMuch (candidate other : Candidate) : bool :=
  let overlap := Js.fsub (Js.min (xEnd candidate) (xEnd other))
                         (Js.max (xStart candidate) (xStart other)) in
  let minWidth := Js.min (Js.fsub (xEnd candidate) (xStart candidate))
                         (Js.fsub (xEnd other) (xStart other)) in
  (overlap >? Js.fmul minWidth X_OVERLAP)%js.

(** The deduplication loop: [accepted] grows at its end. *)
Definition dedup_step (accepted : list Candidate) (candidate : Candidate)
  : list Candidate :=
  if existsb (overlapsTooMuch candidate) accepted then accepted
  else accepted ++ [candidate].

Definition deduplicate (candidates : list Candidate) : list Candidate :=
  foldl dedup_step [] candidates.

(** [decodeMeikiOCROutput]: the text and the accepted candidates.  The
    two comparators subtract exactly: rounding does not change the sign of
    the difference of two doubles, which is all a sort uses. *)
Definition decodeMeikiOCROutput (labels : list Z) (boxes scores : list Js.number)
    (effectiveWidth origWidth origHeight : Js.number) : list Z * list Candidate :=
  let candidates :=
    rawCandidates labels boxes scores effectiveWidth origWidth origHeight in
  let candidates := array_sort (fun a b => (conf b - conf a)%js) candidates in
  let accepted := deduplicate candidates in
  let accepted := array_sort (fun a b => (xStart a - xStart b)%js) accepted in
  (map char accepted, accepted).

End MeikiOCR.

(* ===================================================================== *)
(** * Line filter *)
(* ===================================================================== *)

Module LineFilter.

(** A JavaScript string: its UTF-16 code units. *)
Definition jsstring : Type := list Z.

Definition OPEN_QUOTE : Z := 12300.    (* U+300C, left corner bracket *)
Definition CLOSE_QUOTE : Z := 12301.   (* U+300D, right corner bracket *)
Definition OPEN_PAREN : Z := 65288.    (* U+FF08, fullwidth left parenthesis *)
Definition CLOSE_PAREN : Z := 65289.   (* U+FF09, fullwidth right parenthesis *)
Definition ASCII_OPEN_PAREN : Z := 40.
Definition ASCII_CLOSE_PAREN : Z := 41.
Definition HORIZONTAL_BAR : Z := 8213. (* U+2015 *)
Definition LONG_VOWEL_MARK : Z := 12540. (* U+30FC *)

Definition MAX_RECENT_LINES : nat := 10.

(** The class [[\x00-\x7F]]. *)
Definition is_ascii (c : Z) : bool := (0 <=? c) && (c <=? 127).

(** What [String.prototype.trim] removes: white space and line terminators. *)
Definition is_white (c : Z) : bool :=
  ((9 <=? c) && (c <=? 13)) || (c =? 32) || (c =? 160) || (c =? 5760) ||
  ((8192 <=? c) && (c <=? 8202)) || (c =? 8232) || (c =? 8233) ||
  (c =? 8239) || (c =? 8287) || (c =? 12288) || (c =? 65279).

Fixpoint skip_while (p : Z -> bool) (s : jsstring) : jsstring :=
  match s with
  | [] => []
  | c :: rest => if p c then skip_while p rest else s
  end.

Definition strip_edges (p : Z -> bool) (s : jsstring) : jsstring :=
  rev (skip_while p (rev (skip_while p s))).

(** [text.replace(/^[\x00-\x7F]+|[\x00-\x7F]+$/g, '')]: the first
    alternative can only match at the start and takes the whole leading run;
    the second matches the run that reaches the end of what is left. *)
Definition stripAsciiEdges (text : jsstring) : jsstring := strip_edges is_ascii text.

(** [s.trim()] *)
Definition trim (s : jsstring) : jsstring := strip_edges is_white s.

Fixpoint starts_with (pattern s : jsstring) : bool :=
  match pattern, s with
  | [], _ => true
  | _ :: _, [] => false
  | p :: pattern', c :: s' => (p =? c) && starts_with pattern' s'
  end.

(** [s.replaceAll(pattern, replacement)] for a non-empty [pattern]: matches
    are taken left to right and do not overlap; [skip] counts the code
    units of the current match still to be passed over. *)
Fixpoint replaceAll_from (skip : nat) (pattern replacement s : jsstring) : jsstring :=
  match s with
  | [] => []
  | c :: rest =>
      match skip with
      | S skip' => replaceAll_from skip' pattern replacement rest
      | O =>
          if starts_with pattern s
          then replacement ++ replaceAll_from (length pattern - 1) pattern replacement rest
          else c :: replaceAll_from 0 pattern replacement rest
      end
  end.

Definition replaceAll (pattern replacement s : jsstring) : jsstring :=
  replaceAll_from 0 pattern replacement s.

(** [s.includes(c)] for a one-unit string [c]. *)
Definition includes (c : Z) (s : jsstring) : bool := existsb (Z.eqb c) s.

(** The two "fix incomplete" blocks. *)
Definition balance (open close : Z) (filtered : jsstring) : jsstring :=
  let hasOpen := includes open filtered in
  let hasClose := includes close filtered in
  if hasOpen && negb hasClose then filtered ++ [close]
  else if negb hasOpen && hasClose then open :: filtered
  else filtered.

(** Lines 7 to 35 of [filterOCRLine]: everything before the checks. *)
Definition normalize (text : jsstring) : jsstring :=
  let filtered := stripAsciiEdges text in
  let filtered := replaceAll [CLOSE_QUOTE; CLOSE_QUOTE] [CLOSE_QUOTE] filtered in
  let filtered := replaceAll [OPEN_QUOTE; OPEN_QUOTE] [OPEN_QUOTE] filtered in
  let filtered := replaceAll [ASCII_OPEN_PAREN] [OPEN_PAREN] filtered in
  let filtered := replaceAll [ASCII_CLOSE_PAREN] [CLOSE_PAREN] filtered in
  let filtered := balance OPEN_QUOTE CLOSE_QUOTE filtered in
  let filtered := balance OPEN_PAREN CLOSE_PAREN filtered in
  let filtered := replaceAll [HORIZONTAL_BAR] [LONG_VOWEL_MARK] filtered in
  trim filtered.

(** The normalization step as a partial result: [None] when the line is
    dropped by the final validation. *)
Definition normalized (text : jsstring) : option jsstring :=
  match normalize text with
  | [] => None
  | t => Some t
  end.

(** [a.at(index)] *)
Definition at_ {A : Type} (a : list A) (index : Z) : option A :=
  let k := if 0 <=? index then index else Z.of_nat (length a) + index in
  if (k <? 0) || (Z.of_nat (length a) <=? k) then None
  else a !! Z.to_nat k.

(** [x == s] for a string [s] and [x] a string or [undefined]. *)
Definition loose_eq (x : option jsstring) (s : jsstring) : bool :=
  match x with
  | Some t => bool_decide (t = s)
  | None => false
  end.

(** [filterOCRLine(text)] with the module-level [recentLines] threaded
    through: the returned line ([None] for [null]) and the buffer after. *)
Definition filterOCRLine (text : jsstring) (recentLines : list jsstring)
  : option jsstring * list jsstring :=
  let filtered := normalize text in
  match filtered with
  | [] => (None, recentLines)
  | _ =>
      if loose_eq (at_ recentLines (Z.of_nat (length recentLines))) filtered
      then (None, recentLines)
      else
        let recentLines := recentLines ++ [filtered] in
        let recentLines :=
          if (MAX_RECENT_LINES <? length recentLines)%nat
          then tail recentLines else recentLines in
        (Some filtered, recentLines)
  end.

End LineFilter.

(* ===================================================================== *)
(** * The page glue: sampler ticks and OCR passes *)
(* ===================================================================== *)

Module App.

Import LineFilter.

(** The state the [DOMContentLoaded] closure and the modules hold. *)
Record t : Type := {
  changeDetector : ChangeDetector.t;
  timerRunning : bool;          (* [window.Timer.isRunning] *)
  captureInitialized : bool;    (* [windowCapture.isInitialized()] *)
  isProcessing : bool;
  passesStarted : nat;          (* OCR passes that got past the guards *)
  recentLines : list jsstring;
  displayed : list jsstring     (* lines handed to [TextHookDisplay.addLine] *)
}.

Definition set_detector (a : t) (d : ChangeDetector.t) : t :=
  {| changeDetector := d; timerRunning := timerRunning a;
     captureInitialized := captureInitialized a;
     isProcessing := isProcessing a; passesStarted := passesStarted a;
     recentLines := recentLines a; displayed := displayed a |}.

(** [performOCR()] up to its first [await]: the two guards, then the busy
    flag is raised. *)
Definition performOCR_begin (a : t) : t :=
  if isProcessing a then a
  else if negb (captureInitialized a) then a
  else
    {| changeDetector := changeDetector a; timerRunning := timerRunning a;
       captureInitialized := captureInitialized a;
       isProcessing := true; passesStarted := S (passesStarted a);
       recentLines := recentLines a; displayed := displayed a |}.

(** [result.text.replace(/\n/g, '').trim()] *)
Definition singleLine (text : jsstring) : jsstring :=
  trim (filter (fun c => negb (c =? 10)) text).

(** The rest of a pass, once the awaited recognition has settled:
    [result] is the recognized text, or [None] when capture or recognition
    rejected.  [finally] lowers the busy flag in both cases. *)
Definition performOCR_end (a : t) (result : option jsstring) : t :=
  let '(lines, shown) :=
    match result with
    | Some ((_ :: _) as text) =>
        match filterOCRLine (singleLine text) (recentLines a) with
        | (Some ((_ :: _) as filtered), lines) =>
            (lines, if timerRunning a then displayed a ++ [filtered] else displayed a)
        | (_, lines) => (lines, displayed a)
        end
    | _ => (recentLines a, displayed a)
    end in
  {| changeDetector := changeDetector a; timerRunning := timerRunning a;
     captureInitialized := captureInitialized a;
     isProcessing := false; passesStarted := passesStarted a;
     recentLines := lines; displayed := shown |}.

(** What can happen between two turns of the event loop. *)
Inductive event : Type :=
| Tick (captured : option ChangeDetector.ImageData)   (* the sampler's interval fires *)
| OcrSettled (result : option jsstring)               (* the pass in flight finishes *)
| TimerToggled.                                       (* the user pauses or resumes *)

(** A sampler tick: [checkFrame()], and [onTrigger] is [performOCR]. *)
Definition tick (a : t) (captured : option ChangeDetector.ImageData) : t :=
  let '(d, fired) :=
    ChangeDetector.checkFrame (changeDetector a) (Some (timerRunning a)) captured in
  let a := set_detector a d in
  if fired then performOCR_begin a else a.

Definition step (a : t) (e : event) : t :=
  match e with
  | Tick captured => tick a captured
  | OcrSettled result => if isProcessing a then performOCR_end a result else a
  | TimerToggled =>
      {| changeDetector := changeDetector a; timerRunning := negb (timerRunning a);
         captureInitialized := captureInitialized a;
         isProcessing := isProcessing a; passesStarted := passesStarted a;
         recentLines := recentLines a; displayed := displayed a |}
  end.

Definition steps (a : t) (es : list event) : t := foldl step a es.

(** The page once the user has linked a window: the detector is started
    with [performOCR] as its trigger. *)
Definition linked : t :=
  {| changeDetector := ChangeDetector.start (ChangeDetector.constructor ChangeDetector.no_options);
     timerRunning := true;
     captureInitialized := true;
     isProcessing := false;
     passesStarted := 0;
     recentLines := [];
     displayed := [] |}.

End App.

(* ===================================================================== *)
(** * MeikiOCR: preprocessing and the pipeline *)
(* ===================================================================== *)

Module Pipeline.

Import MeikiOCR.

(** [Math.round(a)]: the nearest integer, halves going up. *)
Definition round (a : Js.number) : Js.number :=
  match a with
  | Js.Num x => Js.Num (inject_Z (Qfloor (x + (1 # 2))))
  | _ => a
  end.

(** What [preprocessForDetection] derives from the image size: the scale
    it returns and the size of the resized image it pads. *)
Record DetectionInput : Type := {
  scale : Js.number;
  origWidth : Js.number;
  origHeight : Js.number;
  newWidth : Js.number;
  newHeight : Js.number
}.

Definition preprocessForDetection (imgWidth imgHeight : Js.number) : DetectionInput :=
  let DETECT_SIZE := DETECT_INPUT_SIZE in
  let scale := Js.min (DETECT_SIZE / imgWidth)%js (DETECT_SIZE / imgHeight)%js in
  {| scale := scale;
     origWidth := imgWidth;
     origHeight := imgHeight;
     newWidth := round (imgWidth * scale)%js;
     newHeight := round (imgHeight * scale)%js |}.

(** What [canvas.width] or [canvas.height] reads after [x] was assigned
    to it.  The attribute is an unsigned long limited to 2^31 - 1: the
    number is truncated and taken modulo 2^32 ([NaN] and the infinities
    count as 0), and a value above the limit gives the attribute's default
    [fallback]. *)
Definition canvasLength (fallback : Z) (x : Js.number) : Js.number :=
  let u :=
    match x with
    | Js.Num q => Z.quot (Qnum q) (Zpos (Qden q)) mod 2 ^ 32
    | _ => 0
    end in
  Js.of_Z (if u <=? 2147483647 then u else fallback).

(** [cropBox(imageCanvas, box)]: [None] for [null], otherwise the width
    and height of the crop canvas. *)
Definition cropBox (box : Box) : option (Js.number * Js.number) :=
  let width := (bx2 box - bx1 box)%js in
  let height := (by2 box - by1 box)%js in
  if (width <=? height)%js then None
  else Some (canvasLength 300 width, canvasLength 150 height).

(** What [preprocessCropForRecognition] derives from the crop size. *)
Record RecognitionInput : Type := {
  effectiveWidth : Js.number;
  resizedHeight : Js.number;
  cropWidth : Js.number;
  cropHeight : Js.number
}.

(** A canvas without pixels: [drawImage] throws when given one as its
    source. *)
Definition emptyCanvas (width height : Js.number) : bool :=
  Js.eqb width (Js.of_Z 0) || Js.eqb height (Js.of_Z 0).

(** [preprocessCropForRecognition(cropCanvas)], from the size of the crop
    canvas.  The sizes are computed in the machine's arithmetic; the two
    [drawImage] calls throw when their source canvas (the crop, then the
    resized crop) has no pixels. *)
Definition preprocessCropForRecognition (canvasWidth canvasHeight : Js.number)
  : outcome RecognitionInput :=
  let INPUT_WIDTH := RECOGNIZE_INPUT_WIDTH in
  let INPUT_HEIGHT := RECOGNIZE_INPUT_HEIGHT in
  let origWidth := canvasWidth in
  let origHeight := canvasHeight in
  let newHeight := INPUT_HEIGHT in
  let newWidth := round (Js.fmul origWidth (Js.fdiv newHeight origHeight)) in
  let '(newWidth, newHeight) :=
    if (newWidth >? INPUT_WIDTH)%js then
      let scale := Js.fdiv INPUT_WIDTH newWidth in
      (INPUT_WIDTH, round (Js.fmul newHeight scale))
    else (newWidth, newHeight) in
  if emptyCanvas canvasWidth canvasHeight then Throw InvalidStateError
  else if emptyCanvas (canvasLength 300 newWidth) (canvasLength 150 newHeight)
  then Throw InvalidStateError
  else
    Return {| effectiveWidth := newWidth;
              resizedHeight := newHeight;
              cropWidth := origWidth;
              cropHeight := origHeight |}.

(** [recognizeTextRegion(imageCanvas, box)].  [session] is whether
    [recognizeSession] is set; [engine] stands for the awaited inference on
    the crop of [box] together with the extraction of its three arrays,
    which may throw. *)
Definition recognizeTextRegion (session : bool)
    (engine : Box -> outcome (list Z * list Js.number * list Js.number))
    (box : Box) : outcome (list Z) :=
  if negb session then Throw NotInitialized
  else
    match cropBox box with
    | None => Return []
    | Some (width, height) =>
        input ← preprocessCropForRecognition width height;
        '(labels, boxes, scores) ← engine box;
        Return (decodeMeikiOCROutput labels boxes scores
                  (effectiveWidth input) (cropWidth input) (cropHeight input)).1
    end.

(** An entry of [lines]. *)
Record Line : Type := {
  text : list Z;
  lineBox : Box;
  confidence : Js.number
}.

(** What [recognize] resolves to. *)
Record Recognition : Type := {
  finalText : list Z;
  lines : list Line;
  regionCount : nat
}.

(** What [recognize] rejects with. *)
Inductive failure : Type :=
| NotReady                 (* 'MeikiOCR not initialized', thrown before the [try] *)
| OcrFailed (cause : exn). (* the [catch] rethrows everything as 'OCR failed' *)

(** [a.join(sep)] on strings. *)
Fixpoint join (sep : list Z) (parts : list (list Z)) : list Z :=
  match parts with
  | [] => []
  | [p] => p
  | p :: rest => p ++ sep ++ join sep rest
  end.

(** The [for] loop of stage 2; [recognizeRegion] stands for the awaited
    [recognizeTextRegion(imageCanvas, box)]. *)
Fixpoint recognizeLines (recognizeRegion : Box -> outcome (list Z))
    (detectedRegions : list Region) : outcome (list Line) :=
  match detectedRegions with
  | [] => Return []
  | region :: rest =>
      text ← recognizeRegion (box region);
      tail ← recognizeLines recognizeRegion rest;
      Return (match text with
              | [] => tail
              | _ => {| text := text; lineBox := box region;
                        confidence := score region |} :: tail
              end)
  end.

(** [recognize(imageDataUrl)].  [detection] stands for the awaited
    [detectTextRegions(imageDataUrl)]. *)
Definition recognize (initialized : bool) (detection : outcome (list Region))
    (recognizeRegion : Box -> outcome (list Z)) : failure + Recognition :=
  if negb initialized then inl NotReady
  else
    let attempt :=
      detectedRegions ← detection;
      if Nat.eqb (length detectedRegions) 0
      then Return {| finalText := []; lines := []; regionCount := 0 |}
      else
        lines ← recognizeLines recognizeRegion detectedRegions;
        Return {| finalText := join [10] (map text lines);
                  lines := lines;
                  regionCount := length detectedRegions |} in
    match attempt with
    | Return r => inr r
    | Throw e => inl (OcrFailed e)
    end.

End Pipeline.

(* ===================================================================== *)
(** * The reading timer *)
(* ===================================================================== *)

Module Timer.

Definition AFK_TIMEOUT : Z := 60.

(** The fields of the [Timer] object.  Times are in milliseconds, as
    [Date.now()] gives them; [None] is [null].  [liveIntervals] counts the
    intervals set and not cleared: [start] sets one without clearing. *)
Record t : Type := {
  isRunning : bool;
  elapsedSeconds : Z;
  startTime : option Z;
  intervalId : bool;
  liveIntervals : nat;
  lastLineAddedTime : option Z
}.

(** Truthiness of a time that may be [null]: [null] and [0] are falsy. *)
Definition truthy_time (x : option Z) : bool :=
  match x with
  | Some v => negb (v =? 0)
  | None => false
  end.

(** [pause()] *)
Definition pause (s : t) : t :=
  {| isRunning := false;
     elapsedSeconds := elapsedSeconds s;
     startTime := None;
     intervalId := false;
     liveIntervals := if intervalId s then pred (liveIntervals s) else liveIntervals s;
     lastLineAddedTime := lastLineAddedTime s |}.

(** [start()] at time [now] *)
Definition start (s : t) (now : Z) : t :=
  {| isRunning := true;
     elapsedSeconds := elapsedSeconds s;
     startTime := Some now;
     intervalId := true;
     liveIntervals := S (liveIntervals s);
     lastLineAddedTime := Some now |}.

(** [toggle()] *)
Definition toggle (s : t) (now : Z) : t :=
  if isRunning s then pause s else start s now.

(** [reset()] *)
Definition reset (s : t) : t :=
  let s := pause s in
  {| isRunning := isRunning s;
     elapsedSeconds := 0;
     startTime := startTime s;
     intervalId := intervalId s;
     liveIntervals := liveIntervals s;
     lastLineAddedTime := lastLineAddedTime s |}.

(** [notifyLineAdded()] *)
Definition notifyLineAdded (s : t) (now : Z) : t :=
  {| isRunning := isRunning s;
     elapsedSeconds := elapsedSeconds s;
     startTime := startTime s;
     intervalId := intervalId s;
     liveIntervals := liveIntervals s;
     lastLineAddedTime := Some now |}.

(** [checkAfkTimeout()] *)
Definition checkAfkTimeout (s : t) (now : Z) : t :=
  if negb (isRunning s) || negb (truthy_time (lastLineAddedTime s)) then s
  else
    let secondsSinceLastLine := (now - default 0 (lastLineAddedTime s)) / 1000 in
    if AFK_TIMEOUT <=? secondsSinceLastLine then
      pause {| isRunning := isRunning s;
               elapsedSeconds := Z.max 0 (elapsedSeconds s - AFK_TIMEOUT);
               startTime := startTime s;
               intervalId := intervalId s;
               liveIntervals := liveIntervals s;
               lastLineAddedTime := lastLineAddedTime s |}
    else s.

(** The callback of one interval, once a second. *)
Definition everySecond (s : t) (now : Z) : t :=
  checkAfkTimeout
    {| isRunning := isRunning s;
       elapsedSeconds := elapsedSeconds s + 1;
       startTime := startTime s;
       intervalId := intervalId s;
       liveIntervals := liveIntervals s;
       lastLineAddedTime := lastLineAddedTime s |} now.

(** Hours, minutes and seconds as [updateDisplay] computes them; [%] is
    the remainder with the sign of the dividend. *)
Definition clock (elapsed : Z) : Z * Z * Z :=
  let hours := elapsed / 3600 in
  let minutes := Z.rem elapsed 3600 / 60 in
  let seconds := Z.rem elapsed 60 in
  (hours, minutes, seconds).

(** What [saveState] writes to local storage. *)
Record Stored : Type := {
  s_elapsedSeconds : Z;
  s_isRunning : bool;
  s_startTime : option Z;
  s_lastLineAddedTime : option Z
}.

(** [saveState()] *)
Definition saveState (s : t) : Stored :=
  {| s_elapsedSeconds := elapsedSeconds s;
     s_isRunning := isRunning s;
     s_startTime := startTime s;
     s_lastLineAddedTime := lastLineAddedTime s |}.

(** [x || null] on a stored time *)
Definition or_null (x : option Z) : option Z :=
  if truthy_time x then x else None.

(** [loadState()] at time [now]; [stored] is what local storage holds
    under the timer's key, if anything. *)
Definition loadState (s : t) (stored : option Stored) (now : Z) : t :=
  match stored with
  | None => s
  | Some state =>
      let elapsed := s_elapsedSeconds state in
      let running := s_isRunning state in
      let started := or_null (s_startTime state) in
      let elapsed :=
        if running && truthy_time started
        then elapsed + (now - default 0 started) / 1000
        else elapsed in
      {| isRunning := running;
         elapsedSeconds := elapsed;
         startTime := started;
         intervalId := intervalId s;
         liveIntervals := liveIntervals s;
         lastLineAddedTime := or_null (s_lastLineAddedTime state) |}
  end.

(** The [Timer] object as the script declares it. *)
Definition declared : t :=
  {| isRunning := false; elapsedSeconds := 0; startTime := None;
     intervalId := false; liveIntervals := 0; lastLineAddedTime := None |}.

(** [init()] on a freshly loaded page at time [now]. *)
Definition init (stored : option Stored) (now : Z) : t :=
  let s := loadState declared stored now in
  if isRunning s then start s now else s.

(** What the user and the clock can do to a timer. *)
Inductive event : Type :=
| Toggle (now : Z)
| Second (now : Z)       (* a live interval fires *)
| LineAdded (now : Z)
| ResetSession.

Definition step (s : t) (e : event) : t :=
  match e with
  | Toggle now => toggle s now
  | Second now => if (0 <? liveIntervals s)%nat then everySecond s now else s
  | LineAdded now => notifyLineAdded s now
  | ResetSession => reset s
  end.

End Timer.

(* ===================================================================== *)
(** * The stored text lines *)
(* ===================================================================== *)

Module TextHookDisplay.

Import LineFilter.

(** [lines.splice(index, 1)]: a negative [index] counts from the end. *)
Definition splice1 (lines : list jsstring) (index : Z) : list jsstring :=
  let len := Z.of_nat (length lines) in
  let start := if index <? 0 then Z.max (len + index) 0 else Z.min index len in
  delete (Z.to_nat start) lines.

(** [addLine(text)] on the array kept in local storage.  [timer] is
    [window.Timer], [None] when no timer is installed.  With the timer
    stopped the line is not stored; otherwise it is, and the timer is told
    ([notifyLineAdded], at time [now]). *)
Definition addLine (timer : option Timer.t) (now : Z) (lines : list jsstring)
    (text : jsstring) : list jsstring * option Timer.t :=
  match timer with
  | Some tm =>
      if negb (Timer.isRunning tm) then (lines, timer)
      else (lines ++ [text], Some (Timer.notifyLineAdded tm now))
  | None => (lines ++ [text], None)
  end.

Definition removeLine (lines : list jsstring) (index : Z) : list jsstring :=
  splice1 lines index.

(** [lines.pop()] behind the length test. *)
Definition deleteLastLine (lines : list jsstring) : list jsstring :=
  if (0 <? length lines)%nat then removelast lines else lines.

(** [saveLineEdit]: [lineIndex] is the position of the edited element
    among the rendered ones, [-1] when absent; [textContent] is its text. *)
Definition saveLineEdit (lines : list jsstring) (lineIndex : Z) (textContent : jsstring)
  : list jsstring :=
  if (0 <=? lineIndex) && (lineIndex <? Z.of_nat (length lines)) then
    let newText := trim textContent in
    if bool_decide (lines !! Z.to_nat lineIndex = Some newText) then lines
    else <[Z.to_nat lineIndex := newText]> lines
  else lines.

End TextHookDisplay.

(* ===================================================================== *)
(** * Settings: colours *)
(* ===================================================================== *)

Module Settings.

Import LineFilter.

(** [s.slice(a, b)] for [0 <= a <= b]. *)
Definition slice (s : jsstring) (a b : nat) : jsstring := take (b - a) (drop a s).

(** The value of a hexadecimal digit, in either case. *)
Definition hexDigitValue (c : Z) : option Z :=
  if (48 <=? c) && (c <=? 57) then Some (c - 48)
  else if (97 <=? c) && (c <=? 102) then Some (c - 87)
  else if (65 <=? c) && (c <=? 70) then Some (c - 55)
  else None.

(** The longest run of digits at the start of [s], read in base 16;
    [acc] is [None] until a digit was seen. *)
Fixpoint digits16 (acc : option Z) (s : jsstring) : option Z :=
  match s with
  | [] => acc
  | c :: rest =>
      match hexDigitValue c with
      | Some v => digits16 (Some (16 * default 0 acc + v)) rest
      | None => acc
      end
  end.

(** [parseInt(s, 16)]; [None] is [NaN].  Leading white space is skipped,
    a sign and a [0x] prefix are accepted, and what follows the digits
    is ignored. *)
Definition parseInt16 (s : jsstring) : option Z :=
  let s := skip_while is_white s in
  let '(sign, s) :=
    match s with
    | 45 :: rest => (-1, rest)
    | 43 :: rest => (1, rest)
    | _ => (1, s)
    end in
  let s :=
    match s with
    | 48 :: x :: rest => if (x =? 120) || (x =? 88) then rest else s
    | _ => s
    end in
  match digits16 None s with
  | Some v => Some (sign * v)
  | None => None
  end.

(** [Math.max(0, Math.min(255, v + amount))]; [NaN] stays [NaN]. *)
Definition shiftChannel (v : option Z) (amount : Z) : option Z :=
  match v with
  | Some n => Some (Z.max 0 (Z.min 255 (n + amount)))
  | None => None
  end.

Definition hexChar (n : Z) : Z := if n <? 10 then 48 + n else 87 + n.

(** [v.toString(16)] for the values [shiftChannel] produces: a whole
    number from 0 to 255, or [NaN]. *)
Definition toString16 (v : option Z) : jsstring :=
  match v with
  | None => [78; 97; 78]
  | Some n => if n <? 16 then [hexChar n] else [hexChar (n / 16); hexChar (n mod 16)]
  end.

(** [s.padStart(2, '0')] *)
Definition padStart2 (s : jsstring) : jsstring :=
  replicate (2 - length s) 48 ++ s.

(** [adjustColor(hex, amount)] *)
Definition adjustColor (hex : jsstring) (amount : Z) : jsstring :=
  match hex with
  | [] => [35; 99; 99; 99; 99; 99; 99]
  | _ =>
      let r := parseInt16 (slice hex 1 3) in
      let g := parseInt16 (slice hex 3 5) in
      let b := parseInt16 (slice hex 5 7) in
      let r := shiftChannel r amount in
      let g := shiftChannel g amount in
      let b := shiftChannel b amount in
      35 :: padStart2 (toString16 r) ++ padStart2 (toString16 g)
         ++ padStart2 (toString16 b)
  end.

End Settings.

(* ===================================================================== *)
(** * Engine input: pixels to planes *)
(* ===================================================================== *)

Module TensorLayout.

(** [data[k] / 255.0] on the bytes of an [ImageData], as the tensor holds
    it: the quotient is a double, and the store into the [Float32Array]
    rounds it to single precision.  Out of range the read is [undefined]
    and the quotient [NaN]. *)
Definition normalized (data : list Z) (k : nat) : Js.number :=
  Js.fround (Js.fdiv (ChangeDetector.channel data k) (Js.of_Z 255)).

(** One turn of the loop that fills the tensor: three writes.  A write
    past the end of a typed array is dropped. *)
Definition fill_step (pixels : nat) (data : list Z) (float32Data : list Js.number)
    (i : nat) : list Js.number :=
  let float32Data := <[i := normalized data (i * 4)]> float32Data in
  let float32Data := <[(pixels + i)%nat := normalized data (i * 4 + 1)]> float32Data in
  <[(2 * pixels + i)%nat := normalized data (i * 4 + 2)]> float32Data.

(** [new Float32Array(3 * pixels)] filled by
    [for (let i = 0; i < pixels; i++) { ... }], as both preprocessing
    functions do, with [pixels] the area of the padded canvas. *)
Definition toTensor (pixels : nat) (data : list Z) : list Js.number :=
  foldl (fill_step pixels data) (replicate (3 * pixels) (Js.of_Z 0)) (seq 0 pixels).

End TensorLayout.

(* ===================================================================== *)
(** * Facts about numbers *)
(* ===================================================================== *)

Module JsFacts.

Lemma Qltb_lt (a b : Q) : Js.Qltb a b = true <-> (a < b)%Q.
Proof.
  unfold Js.Qltb. rewrite negb_true_iff, <- not_true_iff_false, Qle_bool_iff.
  split; [apply Qnot_le_lt | apply Qlt_not_le].
Qed.

Lemma Qltb_ge (a b : Q) : Js.Qltb a b = false <-> (b <= a)%Q.
Proof. unfold Js.Qltb. rewrite negb_false_iff. apply Qle_bool_iff. Qed.

Lemma Qle_bool_gt (a b : Q) : Qle_bool a b = false <-> (b < a)%Q.
Proof.
  rewrite <- not_true_iff_false, Qle_bool_iff.
  split; [apply Qnot_le_lt | apply Qlt_not_le].
Qed.

(** Moving all boolean comparisons of rationals into [Prop]. *)
Ltac qprop :=
  repeat match goal with
  | H : Js.Qltb _ _ = true |- _ => apply Qltb_lt in H
  | H : Js.Qltb _ _ = false |- _ => apply Qltb_ge in H
  | H : Qle_bool _ _ = true |- _ => apply Qle_bool_iff in H
  | H : Qle_bool _ _ = false |- _ => apply Qle_bool_gt in H
  | H : Qeq_bool _ _ = true |- _ => apply Qeq_bool_iff in H
  | H : Qeq_bool _ _ = false |- _ => apply Qeq_bool_neq in H
  | |- Js.Qltb _ _ = true => apply Qltb_lt
  | |- Js.Qltb _ _ = false => apply Qltb_ge
  | |- Qle_bool _ _ = true => apply Qle_bool_iff
  | |- Qle_bool _ _ = false => apply Qle_bool_gt
  | |- Qeq_bool _ _ = true => apply Qeq_bool_iff
  end.

Lemma inject_Z_succ (c : Z) : inject_Z (c + 1) == inject_Z c + 1.
Proof. rewrite inject_Z_plus. reflexivity. Qed.

(** A comparison that fails against a number that is not [NaN] holds the
    other way round. *)
Lemma geb_false_ltb (a b : Js.number) :
  Js.is_nan a = false -> Js.is_nan b = false ->
  (a >=? b)%js = false -> (a <? b)%js = true.
Proof.
  unfold Js.geb. destruct a, b; simpl; try congruence.
  intros _ _ H. unfold Js.Qltb. now rewrite H.
Qed.

Lemma ltb_not_nan_r (a b : Js.number) : (a <? b)%js = true -> Js.is_nan b = false.
Proof. destruct a, b; simpl; congruence. Qed.

Lemma ltb_trans (a b c : Js.number) :
  (a <? b)%js = true -> (b <? c)%js = true -> (a <? c)%js = true.
Proof.
  destruct a, b, c; simpl; try congruence.
  intros H1 H2. qprop. lra.
Qed.

Lemma zero_lt_one : (Js.of_Z 0 <? Js.of_Z 1)%js = true.
Proof. reflexivity. Qed.

(** ** Numbers up to equality of rationals *)

Definition same (a b : Js.number) : Prop :=
  match a, b with
  | Js.Num x, Js.Num y => x == y
  | Js.NaN, Js.NaN | Js.NegInfinity, Js.NegInfinity | Js.Infinity, Js.Infinity => True
  | _, _ => False
  end.

Lemma same_refl (a : Js.number) : same a a.
Proof. destruct a; simpl; auto. reflexivity. Qed.

Lemma Qle_bool_same (x x' y y' : Q) :
  x == x' -> y == y' -> Qle_bool x y = Qle_bool x' y'.
Proof.
  intros Hx Hy. destruct (Qle_bool x y) eqn:E, (Qle_bool x' y') eqn:E';
    try reflexivity; qprop; lra.
Qed.

Lemma leb_same (a a' b b' : Js.number) :
  same a a' -> same b b' -> (a <=? b)%js = (a' <=? b')%js.
Proof.
  destruct a, a', b, b'; simpl; try contradiction; try reflexivity.
  apply Qle_bool_same.
Qed.

Lemma ltb_same (a a' b b' : Js.number) :
  same a a' -> same b b' -> (a <? b)%js = (a' <? b')%js.
Proof.
  destruct a, a', b, b'; simpl; try contradiction; try reflexivity.
  intros Ha Hb. unfold Js.Qltb. f_equal. now apply Qle_bool_same.
Qed.

Lemma min_comm (a b : Js.number) : same (Js.min a b) (Js.min b a).
Proof.
  destruct a as [| |x|], b as [| |y|]; try exact I; try apply same_refl.
  unfold Js.min. cbn [Js.is_nan orb Js.leb].
  destruct (Qle_bool x y) eqn:E, (Qle_bool y x) eqn:E'; simpl; qprop; lra.
Qed.

Lemma max_comm (a b : Js.number) : same (Js.max a b) (Js.max b a).
Proof.
  destruct a as [| |x|], b as [| |y|]; try exact I; try apply same_refl.
  unfold Js.max. cbn [Js.is_nan orb Js.leb].
  destruct (Qle_bool x y) eqn:E, (Qle_bool y x) eqn:E'; simpl; qprop; lra.
Qed.

Lemma min_same (a a' b b' : Js.number) :
  same a a' -> same b b' -> same (Js.min a b) (Js.min a' b').
Proof.
  intros Ha Hb. unfold Js.min. rewrite (leb_same a a' b b' Ha Hb).
  destruct a, a'; try contradiction; destruct b, b'; try contradiction;
    cbn [Js.is_nan orb]; try exact I;
    match goal with |- context [if ?c then _ else _] => destruct c end; assumption.
Qed.

Lemma sub_same (a a' b b' : Js.number) :
  same a a' -> same b b' -> same (a - b)%js (a' - b')%js.
Proof.
  destruct a, a'; try contradiction; destruct b, b'; try contradiction;
    simpl; auto.
  intros Ha Hb. now rewrite Ha, Hb.
Qed.

Lemma mul_same_l (a a' : Js.number) (q : Q) :
  same a a' -> same (a * Js.Num q)%js (a' * Js.Num q)%js.
Proof.
  destruct a, a'; try contradiction; intros Ha; try apply same_refl.
  simpl in *. now rewrite Ha.
Qed.

Lemma same_sgn (a a' : Js.number) : same a a' -> Js.sgn a = Js.sgn a'.
Proof.
  destruct a as [| |x|], a' as [| |y|]; try contradiction; try reflexivity.
  intros E. simpl in E. cbn [Js.sgn].
  rewrite (Qle_bool_same x y 0 0 E (Qeq_refl 0)).
  destruct (Qeq_bool x 0) eqn:Ex, (Qeq_bool y 0) eqn:Ey; try reflexivity;
    qprop; exfalso; [apply Ey | apply Ex]; lra.
Qed.

Lemma mul_same (a a' b : Js.number) :
  same a a' -> same (a * b)%js (a' * b)%js.
Proof.
  intros Ha. pose proof (same_sgn a a' Ha) as Hs.
  destruct a as [| |x|], a' as [| |y|]; try contradiction; try apply same_refl.
  destruct b as [| |q|].
  - unfold Js.mul. rewrite Hs. apply same_refl.
  - unfold Js.mul. rewrite Hs. apply same_refl.
  - simpl in *. now rewrite Ha.
  - unfold Js.mul. rewrite Hs. apply same_refl.
Qed.

(** ** The order on numbers that are not [NaN] *)

Lemma leb_refl (a : Js.number) : Js.is_nan a = false -> (a <=? a)%js = true.
Proof. destruct a; simpl; try congruence. intros _. qprop. lra. Qed.

Lemma leb_total (a b : Js.number) :
  Js.is_nan a = false -> Js.is_nan b = false ->
  (a <=? b)%js = false -> (b <=? a)%js = true.
Proof.
  destruct a, b; simpl; try congruence. intros _ _ H. qprop. lra.
Qed.

Lemma leb_trans (a b c : Js.number) :
  (a <=? b)%js = true -> (b <=? c)%js = true -> (a <=? c)%js = true.
Proof.
  destruct a, b, c; simpl; try congruence. intros H1 H2. qprop. lra.
Qed.

Lemma leb_not_nan (a b : Js.number) :
  (a <=? b)%js = true -> Js.is_nan a = false /\ Js.is_nan b = false.
Proof. destruct a, b; simpl; try congruence; now split. Qed.

Lemma leb_Infinity_l (a : Js.number) : (Js.Infinity <=? a)%js = true -> a = Js.Infinity.
Proof. destruct a; simpl; congruence. Qed.

Lemma leb_NegInfinity_r (a : Js.number) :
  (a <=? Js.NegInfinity)%js = true -> a = Js.NegInfinity.
Proof. destruct a; simpl; congruence. Qed.

Lemma min_spec (a b : Js.number) :
  Js.is_nan a = false -> Js.is_nan b = false ->
  (Js.min a b = a \/ Js.min a b = b) /\
  (Js.min a b <=? a)%js = true /\ (Js.min a b <=? b)%js = true.
Proof.
  intros Ha Hb. unfold Js.min. rewrite Ha, Hb. cbn [orb].
  destruct (a <=? b)%js eqn:E.
  - split; [now left|]. split; [now apply leb_refl | exact E].
  - split; [now right|]. split; [now apply leb_total | now apply leb_refl].
Qed.

Lemma max_spec (a b : Js.number) :
  Js.is_nan a = false -> Js.is_nan b = false ->
  (Js.max a b = a \/ Js.max a b = b) /\
  (a <=? Js.max a b)%js = true /\ (b <=? Js.max a b)%js = true.
Proof.
  intros Ha Hb. unfold Js.max. rewrite Ha, Hb. cbn [orb].
  destruct (a <=? b)%js eqn:E.
  - split; [now right|]. split; [exact E | now apply leb_refl].
  - split; [now left|]. split; [now apply leb_refl | now apply leb_total].
Qed.

(** [v] is in [vs] and below, respectively above, all of [vs]. *)
Definition lowest (v : Js.number) (vs : list Js.number) : Prop :=
  v ∈ vs /\ forall x, x ∈ vs -> (v <=? x)%js = true.

Definition highest (v : Js.number) (vs : list Js.number) : Prop :=
  v ∈ vs /\ forall x, x ∈ vs -> (x <=? v)%js = true.

Lemma foldl_min_spec (l : list Js.number) :
  forall a,
    Js.is_nan a = false -> Forall (fun x => Js.is_nan x = false) l ->
    let m := foldl Js.min a l in
    (m <=? a)%js = true /\
    (forall x, x ∈ l -> (m <=? x)%js = true) /\
    (m = a \/ m ∈ l).
Proof.
  induction l as [|b l IH]; intros a Ha Hl; cbn [foldl].
  - split; [now apply leb_refl|]. split; [|now left].
    intros x Hx. now apply elem_of_nil in Hx.
  - apply Forall_cons in Hl as [Hb Hl].
    destruct (min_spec a b Ha Hb) as (Hsel & Hma & Hmb).
    assert (Hm : Js.is_nan (Js.min a b) = false) by (destruct Hsel as [-> | ->]; assumption).
    destruct (IH (Js.min a b) Hm Hl) as (H1 & H2 & H3).
    split; [eapply leb_trans; eassumption|]. split.
    + intros x Hx. apply elem_of_cons in Hx as [-> | Hx]; [|now apply H2].
      eapply leb_trans; eassumption.
    + destruct H3 as [H3 | H3]; [|right; now right].
      rewrite H3. destruct Hsel as [-> | ->]; [now left | right; now left].
Qed.

Lemma foldl_max_spec (l : list Js.number) :
  forall a,
    Js.is_nan a = false -> Forall (fun x => Js.is_nan x = false) l ->
    let m := foldl Js.max a l in
    (a <=? m)%js = true /\
    (forall x, x ∈ l -> (x <=? m)%js = true) /\
    (m = a \/ m ∈ l).
Proof.
  induction l as [|b l IH]; intros a Ha Hl; cbn [foldl].
  - split; [now apply leb_refl|]. split; [|now left].
    intros x Hx. now apply elem_of_nil in Hx.
  - apply Forall_cons in Hl as [Hb Hl].
    destruct (max_spec a b Ha Hb) as (Hsel & Hma & Hmb).
    assert (Hm : Js.is_nan (Js.max a b) = false) by (destruct Hsel as [-> | ->]; assumption).
    destruct (IH (Js.max a b) Hm Hl) as (H1 & H2 & H3).
    split; [eapply leb_trans; eassumption|]. split.
    + intros x Hx. apply elem_of_cons in Hx as [-> | Hx]; [|now apply H2].
      eapply leb_trans; eassumption.
    + destruct H3 as [H3 | H3]; [|right; now right].
      rewrite H3. destruct Hsel as [-> | ->]; [now left | right; now left].
Qed.

(** Started from [Infinity], a running minimum over a list without [NaN]
    that is not empty is the lowest of the list. *)
Lemma foldl_min_lowest (l : list Js.number) :
  l <> [] -> Forall (fun x => Js.is_nan x = false) l ->
  lowest (foldl Js.min Js.Infinity l) l.
Proof.
  intros Hne Hl.
  destruct (foldl_min_spec l Js.Infinity eq_refl Hl) as (_ & Hlow & Hin).
  split; [|exact Hlow].
  destruct Hin as [Hin | Hin]; [|exact Hin].
  destruct l as [|x l]; [congruence|].
  pose proof (Hlow x (list_elem_of_here x l)) as Hx.
  rewrite Hin in Hx |- *. apply leb_Infinity_l in Hx. rewrite Hx. now left.
Qed.

Lemma foldl_max_highest (l : list Js.number) :
  l <> [] -> Forall (fun x => Js.is_nan x = false) l ->
  highest (foldl Js.max Js.NegInfinity l) l.
Proof.
  intros Hne Hl.
  destruct (foldl_max_spec l Js.NegInfinity eq_refl Hl) as (_ & Hhigh & Hin).
  split; [|exact Hhigh].
  destruct Hin as [Hin | Hin]; [|exact Hin].
  destruct l as [|x l]; [congruence|].
  pose proof (Hhigh x (list_elem_of_here x l)) as Hx.
  rewrite Hin in Hx |- *. apply leb_NegInfinity_r in Hx. rewrite Hx. now left.
Qed.

End JsFacts.

(* ===================================================================== *)
(** * Facts about rounding *)
(* ===================================================================== *)

Module FloatFacts.

Import Js.

Lemma pow2_pos (e : Z) : (0 < pow2 e)%Q.
Proof. unfold pow2. apply Qpower_0_lt. reflexivity. Qed.

Lemma pow2_add (a b : Z) : (pow2 (a + b) == pow2 a * pow2 b)%Q.
Proof. unfold pow2. apply Qpower_plus. discriminate. Qed.

Lemma pow2_sub (a b : Z) : (pow2 (a - b) == pow2 a / pow2 b)%Q.
Proof. unfold pow2. apply Qpower_minus. discriminate. Qed.

Lemma pow2_Z (a : Z) : 0 <= a -> (pow2 a == inject_Z (2 ^ a))%Q.
Proof. intros H. unfold pow2. symmetry. now apply (Zpower_Qpower 2 a). Qed.

Lemma pow2_S (a : Z) : (pow2 (a + 1) == 2 * pow2 a)%Q.
Proof. rewrite pow2_add. unfold pow2 at 2. rewrite Qpower_1_r. ring. Qed.

Lemma pow2_le (a b : Z) : a <= b -> (pow2 a <= pow2 b)%Q.
Proof.
  intros H. replace b with (a + (b - a)) by lia. rewrite pow2_add.
  rewrite <- (Qmult_1_r (pow2 a)) at 1.
  apply Qmult_le_l; [apply pow2_pos|].
  rewrite pow2_Z by lia. change 1%Q with (inject_Z 1). rewrite <- Zle_Qle.
  pose proof (Z.pow_pos_nonneg 2 (b - a)). lia.
Qed.

Lemma pow2_lt (a b : Z) : a < b -> (pow2 a < pow2 b)%Q.
Proof.
  intros H. apply Qlt_le_trans with (pow2 (a + 1)).
  - rewrite pow2_S. pose proof (pow2_pos a). lra.
  - apply pow2_le. lia.
Qed.

(** [ilog2 x] is the exponent of the binade of a positive [x]. *)
Lemma ilog2_spec (x : Q) :
  (0 < x)%Q -> (pow2 (ilog2 x) <= x)%Q /\ (x < pow2 (ilog2 x + 1))%Q.
Proof.
  intros Hx. unfold ilog2.
  destruct x as [n d]. cbn [Qnum Qden].
  assert (Hn : 0 < n) by (unfold Qlt in Hx; cbn in Hx; lia).
  set (ln := Z.log2 n). set (ld := Z.log2 (Z.pos d)).
  destruct (Z.log2_spec n Hn) as [Hn1 Hn2]. fold ln in Hn1, Hn2.
  destruct (Z.log2_spec (Z.pos d) ltac:(lia)) as [Hd1 Hd2]. fold ld in Hd1, Hd2.
  assert (Hln : 0 <= ln) by apply Z.log2_nonneg.
  assert (Hld : 0 <= ld) by apply Z.log2_nonneg.
  assert (Hq : (n # d == inject_Z n / inject_Z (Z.pos d))%Q) by apply Qmake_Qdiv.
  assert (Hdq : (0 < inject_Z (Z.pos d))%Q) by reflexivity.
  assert (Hup : (n # d < pow2 (ln - ld + 1))%Q).
  { replace (ln - ld + 1) with ((ln + 1) - ld) by lia.
    rewrite pow2_sub, !pow2_Z, Hq by lia.
    assert (H2 : (0 < inject_Z (2 ^ ld))%Q).
    { change 0%Q with (inject_Z 0). rewrite <- Zlt_Qlt. lia. }
    apply Qlt_shift_div_l; [exact H2|].
    unfold Qdiv. rewrite <- Qmult_assoc, (Qmult_comm (/ _)), Qmult_assoc.
    apply Qlt_shift_div_r; [exact Hdq|].
    rewrite <- !inject_Z_mult, <- Zlt_Qlt.
    apply Z.lt_le_trans with (2 ^ (ln + 1) * 2 ^ ld); [nia|].
    apply Z.mul_le_mono_nonneg_l; lia. }
  assert (Hlow : (pow2 (ln - ld - 1) <= n # d)%Q).
  { replace (ln - ld - 1) with (ln - (ld + 1)) by lia.
    rewrite pow2_sub, !pow2_Z, Hq by lia.
    assert (H2 : (0 < inject_Z (2 ^ (ld + 1)))%Q).
    { change 0%Q with (inject_Z 0). rewrite <- Zlt_Qlt. lia. }
    apply Qle_shift_div_r; [exact H2|].
    unfold Qdiv. rewrite <- Qmult_assoc, (Qmult_comm (/ _)), Qmult_assoc.
    apply Qle_shift_div_l; [exact Hdq|].
    rewrite <- !inject_Z_mult, <- Zle_Qle.
    apply Z.le_trans with (2 ^ ln * 2 ^ (ld + 1)); [|nia].
    apply Z.mul_le_mono_nonneg_l; lia. }
  destruct (Qle_bool (pow2 (ln - ld)) (n # d)) eqn:E.
  - apply Qle_bool_iff in E. split; assumption.
  - split; [exact Hlow|]. replace (ln - ld - 1 + 1) with (ln - ld) by lia.
    apply Qnot_le_lt. intros H. apply Qle_bool_iff in H. congruence.
Qed.

Lemma ilog2_unique (x : Q) (e : Z) :
  (pow2 e <= x)%Q -> (x < pow2 (e + 1))%Q -> ilog2 x = e.
Proof.
  intros H1 H2.
  assert (Hx : (0 < x)%Q) by (eapply Qlt_le_trans; [apply pow2_pos | exact H1]).
  destruct (ilog2_spec x Hx) as [G1 G2].
  destruct (Z.lt_trichotomy (ilog2 x) e) as [Hlt | [Heq | Hgt]]; [exfalso | exact Heq | exfalso].
  - assert (pow2 (ilog2 x + 1) <= pow2 e)%Q by (apply pow2_le; lia). lra.
  - assert (pow2 (e + 1) <= pow2 (ilog2 x))%Q by (apply pow2_le; lia). lra.
Qed.

Lemma ilog2_same (x y : Q) : (0 < x)%Q -> (x == y)%Q -> ilog2 x = ilog2 y.
Proof.
  intros Hx E. destruct (ilog2_spec x Hx) as [H1 H2].
  symmetry. apply ilog2_unique; rewrite <- E; assumption.
Qed.

Lemma nearest_even_spec (y : Q) :
  (y - (1 # 2) <= inject_Z (nearest_even y))%Q /\
  (inject_Z (nearest_even y) <= y + (1 # 2))%Q.
Proof.
  unfold nearest_even.
  pose proof (Qfloor_le y) as H1. pose proof (Qlt_floor y) as H2.
  rewrite inject_Z_plus in H2. change (inject_Z 1) with 1%Q in H2.
  destruct (Qcompare_spec (y - inject_Z (Qfloor y)) (1 # 2)) as [E | E | E].
  - destruct (Z.even (Qfloor y)); rewrite ?inject_Z_plus;
      change (inject_Z 1) with 1%Q; split; lra.
  - split; lra.
  - rewrite inject_Z_plus. change (inject_Z 1) with 1%Q. split; lra.
Qed.

Lemma nearest_even_same (x y : Q) : (x == y)%Q -> nearest_even x = nearest_even y.
Proof.
  intros E. unfold nearest_even. rewrite (Qfloor_comp x y E).
  assert (Ec : (x - inject_Z (Qfloor y) ?= 1 # 2)%Q = (y - inject_Z (Qfloor y) ?= 1 # 2)%Q).
  { apply Qcompare_comp; [now rewrite E | reflexivity]. }
  now rewrite Ec.
Qed.

(** Rounding does not see how a rational is written. *)
Lemma round_to_same (prec emin emax : Z) (x y : Q) :
  (x == y)%Q -> round_to prec emin emax x = round_to prec emin emax y.
Proof.
  intros E. unfold round_to.
  rewrite (JsFacts.Qle_bool_same 0 0 x y (Qeq_refl 0) E).
  destruct (Qeq_bool x 0) eqn:E0.
  - replace (Qeq_bool y 0) with true; [reflexivity|].
    symmetry. apply Qeq_bool_iff. apply Qeq_bool_iff in E0. now rewrite <- E.
  - replace (Qeq_bool y 0) with false.
    2:{ symmetry. apply not_true_iff_false. intros H. apply Qeq_bool_iff in H.
        apply Qeq_bool_neq in E0. apply E0. now rewrite E. }
    apply Qeq_bool_neq in E0. cbv zeta.
    assert (Ea : (Qabs x == Qabs y)%Q) by now apply Qabs_wd.
    assert (Hpos : (0 < Qabs x)%Q).
    { apply Qabs_case; intros H; destruct (Qlt_le_dec 0 x); lra. }
    rewrite (ilog2_same _ _ Hpos Ea).
    set (u := Z.max (ilog2 (Qabs y) - prec + 1) emin).
    assert (Ediv : (Qabs x / pow2 u == Qabs y / pow2 u)%Q) by now rewrite Ea.
    rewrite (nearest_even_same _ _ Ediv). reflexivity.
Qed.

Lemma rounded_same (a b : number) : JsFacts.same a b -> rounded a = rounded b.
Proof.
  destruct a, b; simpl; try contradiction; try reflexivity.
  apply round_to_same.
Qed.

Lemma round_to_not_nan (prec emin emax : Z) (x : Q) :
  is_nan (round_to prec emin emax x) = false.
Proof.
  unfold round_to. destruct (Qeq_bool x 0); [reflexivity|]. cbv zeta.
  destruct (Qle_bool _ _); [|reflexivity]. now destruct (Qle_bool 0 x).
Qed.

Lemma rounded_is_nan (a : number) : is_nan (rounded a) = is_nan a.
Proof. destruct a; try reflexivity. apply round_to_not_nan. Qed.

Definition eps : Q := pow2 (-53).

(** In the normal range, rounding to a double moves a positive number by
    at most [eps] of itself. *)
Lemma double_pos (x : Q) :
  (pow2 (-1022) <= x)%Q -> (x <= pow2 1023)%Q ->
  exists r, double x = Num r /\ (x * (1 - eps) <= r)%Q /\ (r <= x * (1 + eps))%Q.
Proof.
  intros Hlo Hhi.
  assert (Hx : (0 < x)%Q) by (eapply Qlt_le_trans; [apply pow2_pos | exact Hlo]).
  unfold double, round_to.
  replace (Qeq_bool x 0) with false
    by (symmetry; apply not_true_iff_false; intros E; apply Qeq_bool_iff in E; lra).
  cbv zeta.
  assert (Ha : (Qabs x == x)%Q) by (apply Qabs_pos; lra).
  destruct (ilog2_spec (Qabs x)) as [He1 He2]; [rewrite Ha; exact Hx|].
  set (e := ilog2 (Qabs x)) in *.
  rewrite Ha in He1, He2.
  assert (Hemin : -1022 <= e).
  { destruct (Z_lt_le_dec e (-1022)) as [Hlt|]; [|assumption]. exfalso.
    assert (pow2 (e + 1) <= pow2 (-1022))%Q by (apply pow2_le; lia). lra. }
  assert (Hemax : e <= 1023).
  { destruct (Z_lt_le_dec 1023 e) as [Hlt|]; [|assumption]. exfalso.
    assert (pow2 (1023 + 1) <= pow2 e)%Q by (apply pow2_le; lia).
    assert (pow2 1023 < pow2 (1023 + 1))%Q by (apply pow2_lt; lia).
    lra. }
  rewrite Z.max_l by lia.
  set (u := e - 53 + 1).
  pose proof (pow2_pos u) as Hu.
  destruct (nearest_even_spec (Qabs x / pow2 u)) as [Hm1 Hm2].
  set (m := nearest_even (Qabs x / pow2 u)) in *.
  set (r := (inject_Z m * pow2 u)%Q).
  assert (Hdiv : (Qabs x / pow2 u * pow2 u == x)%Q).
  { rewrite Ha. field. lra. }
  assert (Hhalf : ((1 # 2) * pow2 u <= x * eps)%Q).
  { unfold eps.
    assert (E1 : (pow2 e == pow2 u * pow2 52)%Q).
    { rewrite <- pow2_add. unfold u. now replace (e - 53 + 1 + 52) with e by lia. }
    assert (E2 : (pow2 52 * pow2 (-53) == 1 # 2)%Q) by reflexivity.
    apply Qle_trans with (pow2 e * pow2 (-53))%Q.
    - rewrite E1, <- Qmult_assoc, E2. lra.
    - apply Qmult_le_compat_r; [exact He1 | apply Qlt_le_weak, pow2_pos]. }
  assert (Hr1 : (x - (1 # 2) * pow2 u <= r)%Q).
  { assert (E : ((Qabs x / pow2 u - (1 # 2)) * pow2 u == Qabs x - (1 # 2) * pow2 u)%Q)
      by (field; lra).
    rewrite Ha in E at 2. rewrite <- E. unfold r. apply Qmult_le_compat_r; lra. }
  assert (Hr2 : (r <= x + (1 # 2) * pow2 u)%Q).
  { assert (E : ((Qabs x / pow2 u + (1 # 2)) * pow2 u == Qabs x + (1 # 2) * pow2 u)%Q)
      by (field; lra).
    rewrite Ha in E at 2. rewrite <- E. unfold r. apply Qmult_le_compat_r; lra. }
  assert (Heps : (eps <= 1 # 2)%Q) by (unfold eps; discriminate).
  assert (Hfin : Qle_bool (pow2 1024) (Qred r) = false).
  { apply not_true_iff_false. intros E. apply Qle_bool_iff in E.
    rewrite Qred_correct in E.
    assert (pow2 1024 == 2 * pow2 1023)%Q by reflexivity.
    assert (x * eps <= x * (1 # 2))%Q by (apply Qmult_le_l; assumption).
    lra. }
  rewrite Hfin.
  replace (Qle_bool 0 x) with true by (symmetry; apply Qle_bool_iff; lra).
  exists (Qred r). split; [reflexivity|].
  rewrite Qred_correct. split; lra.
Qed.

Definition eta : Q := pow2 (-1075).

Lemma nearest_even_nonneg (y : Q) : (0 <= y)%Q -> 0 <= nearest_even y.
Proof.
  intros Hy. destruct (nearest_even_spec y) as [H _].
  assert (Hlt : (inject_Z (-1) < inject_Z (nearest_even y))%Q).
  { change (inject_Z (-1)) with (-1)%Q. lra. }
  rewrite <- Zlt_Qlt in Hlt. lia.
Qed.

(** Rounding a number that is not negative, of moderate size: the result
    is finite, not negative, and off by at most [eps] of the number plus
    [eta], half the least positive double. *)
Lemma double_nonneg (x : Q) :
  (0 <= x)%Q -> (x <= pow2 1023)%Q ->
  exists r, double x = Num r /\ (0 <= r)%Q /\
            (x * (1 - eps) - eta <= r)%Q /\ (r <= x * (1 + eps) + eta)%Q.
Proof.
  intros H0 Hhi.
  pose proof (pow2_pos (-1075)) as Heta. fold eta in Heta.
  assert (Heps : (0 < eps)%Q /\ (eps <= 1 # 2)%Q)
    by (split; [apply pow2_pos | unfold eps; discriminate]).
  destruct (Qlt_le_dec x (pow2 (-1022))) as [Hsub | Hnorm].
  2:{ destruct (double_pos x Hnorm Hhi) as (r & Hr & L & U).
      exists r. split; [exact Hr|].
      assert (0 <= x * (1 - eps))%Q by (apply Qmult_le_0_compat; lra).
      repeat split; lra. }
  unfold double, round_to.
  destruct (Qeq_bool x 0) eqn:Ez.
  { apply Qeq_bool_iff in Ez. exists 0%Q. split; [reflexivity|].
    rewrite Ez. repeat split; lra. }
  apply Qeq_bool_neq in Ez.
  assert (Hx : (0 < x)%Q) by (destruct (Qlt_le_dec 0 x); [assumption | exfalso; apply Ez; lra]).
  cbv zeta.
  assert (Ha : (Qabs x == x)%Q) by (apply Qabs_pos; lra).
  destruct (ilog2_spec (Qabs x)) as [He1 He2]; [rewrite Ha; exact Hx|].
  set (e := ilog2 (Qabs x)) in *. rewrite Ha in He1, He2.
  assert (He : e < -1022).
  { destruct (Z_lt_le_dec e (-1022)) as [|Hge]; [assumption|]. exfalso.
    assert (pow2 (-1022) <= pow2 e)%Q by (apply pow2_le; lia). lra. }
  rewrite Z.max_r by lia.
  pose proof (pow2_pos (-1074)) as Hu.
  destruct (nearest_even_spec (Qabs x / pow2 (-1074))) as [Hm1 Hm2].
  assert (Hm0 : 0 <= nearest_even (Qabs x / pow2 (-1074))).
  { apply nearest_even_nonneg. rewrite Ha.
    apply Qle_shift_div_l; [exact Hu | lra]. }
  set (m := nearest_even (Qabs x / pow2 (-1074))) in *.
  set (r := (inject_Z m * pow2 (-1074))%Q).
  assert (Hhalf : ((1 # 2) * pow2 (-1074) == eta)%Q) by reflexivity.
  assert (Hr1 : (x - eta <= r)%Q).
  { assert (E : ((Qabs x / pow2 (-1074) - (1 # 2)) * pow2 (-1074)
                 == Qabs x - (1 # 2) * pow2 (-1074))%Q) by (field; lra).
    rewrite Ha in E at 2. rewrite Hhalf in E. rewrite <- E.
    unfold r. apply Qmult_le_compat_r; lra. }
  assert (Hr2 : (r <= x + eta)%Q).
  { assert (E : ((Qabs x / pow2 (-1074) + (1 # 2)) * pow2 (-1074)
                 == Qabs x + (1 # 2) * pow2 (-1074))%Q) by (field; lra).
    rewrite Ha in E at 2. rewrite Hhalf in E. rewrite <- E.
    unfold r. apply Qmult_le_compat_r; lra. }
  assert (Hr0 : (0 <= r)%Q).
  { unfold r. apply Qmult_le_0_compat; [|lra].
    change 0%Q with (inject_Z 0). rewrite <- Zle_Qle. exact Hm0. }
  assert (Hsmall : (pow2 (-1022) + eta < pow2 1024)%Q) by reflexivity.
  assert (Hfin : Qle_bool (pow2 1024) (Qred r) = false).
  { apply not_true_iff_false. intros E. apply Qle_bool_iff in E.
    rewrite Qred_correct in E. lra. }
  rewrite Hfin.
  replace (Qle_bool 0 x) with true by (symmetry; apply Qle_bool_iff; lra).
  exists (Qred r). split; [reflexivity|]. rewrite Qred_correct.
  assert (0 <= x * eps)%Q by (apply Qmult_le_0_compat; lra).
  repeat split; lra.
Qed.

Lemma nearest_even_le (y : Q) (n : Z) :
  (y <= inject_Z n)%Q -> nearest_even y <= n.
Proof.
  intros Hy. unfold nearest_even.
  assert (Hf : Qfloor y <= n) by (rewrite <- (Qfloor_Z n); now apply Qfloor_resp_le).
  pose proof (Qfloor_le y) as Hfl.
  destruct (Qcompare_spec (y - inject_Z (Qfloor y)) (1 # 2)) as [E | E | E].
  - destruct (Z.eq_dec (Qfloor y) n) as [En | Hne]; [rewrite En in *; lra|].
    destruct (Z.even _); lia.
  - exact Hf.
  - destruct (Z.eq_dec (Qfloor y) n) as [En | Hne]; [rewrite En in *; lra | lia].
Qed.

Lemma double_zero (x : Q) : (x == 0)%Q -> double x = Num 0.
Proof.
  intros E. unfold double, round_to.
  now replace (Qeq_bool x 0) with true by (symmetry; now apply Qeq_bool_iff).
Qed.

(** A fraction between 0 and 1 stays there when rounded. *)
Lemma double_unit (x : Q) :
  (0 <= x)%Q -> (x <= 1)%Q -> exists r, double x = Num r /\ (0 <= r)%Q /\ (r <= 1)%Q.
Proof.
  intros H0 H1.
  destruct (double_nonneg x H0) as (r & Hr & Hr0 & _).
  { apply Qle_trans with 1%Q; [exact H1|].
    assert (E : (1 == pow2 0)%Q) by reflexivity. rewrite E. apply pow2_le. lia. }
  exists r. split; [exact Hr|]. split; [exact Hr0|].
  revert Hr. unfold double, round_to.
  destruct (Qeq_bool x 0) eqn:Ez; [intros [= <-]; discriminate|].
  apply Qeq_bool_neq in Ez.
  assert (Hx : (0 < x)%Q) by (destruct (Qlt_le_dec 0 x); [assumption | exfalso; apply Ez; lra]).
  cbv zeta.
  assert (Ha : (Qabs x == x)%Q) by (apply Qabs_pos; lra).
  destruct (ilog2_spec (Qabs x)) as [He1 He2]; [rewrite Ha; exact Hx|].
  set (e := ilog2 (Qabs x)) in *. rewrite Ha in He1, He2.
  assert (He : e <= 0).
  { destruct (Z_lt_le_dec 0 e) as [Hlt|]; [|assumption]. exfalso.
    assert (pow2 1 <= pow2 e)%Q by (apply pow2_le; lia).
    assert (pow2 1 == 2)%Q by reflexivity. lra. }
  set (u := Z.max (e - 53 + 1) (-1074)).
  assert (Hu : u <= 0) by (unfold u; lia).
  pose proof (pow2_pos u) as Hpu.
  assert (Einv : (pow2 u * inject_Z (2 ^ (- u)) == 1)%Q).
  { rewrite <- pow2_Z by lia. rewrite <- pow2_add.
    now replace (u + - u) with 0 by lia. }
  assert (Hm : nearest_even (Qabs x / pow2 u) <= 2 ^ (- u)).
  { apply nearest_even_le. rewrite Ha.
    apply Qle_shift_div_r; [exact Hpu|].
    rewrite Qmult_comm, Einv. exact H1. }
  set (m := nearest_even (Qabs x / pow2 u)) in *.
  destruct (Qle_bool (pow2 1024) _); [destruct (Qle_bool 0 x); discriminate|].
  replace (Qle_bool 0 x) with true by (symmetry; apply Qle_bool_iff; lra).
  intros [= <-]. rewrite Qred_correct.
  rewrite <- Einv, (Qmult_comm (pow2 u)).
  apply Qmult_le_compat_r; [|lra].
  rewrite <- Zle_Qle. exact Hm.
Qed.

End FloatFacts.

(* ===================================================================== *)
(** * The change state machine *)
(* ===================================================================== *)

Module ChangeDetectorFacts.

Import ChangeDetector.

(** The fractions of the interrupted scripted run. *)
Definition interrupted_script : list Js.number :=
  [dec 2 100; dec 5 1000; dec 2 100; dec 5 1000; dec 5 1000; dec 5 1000].

(** The detector the page builds: default thresholds, then [start]. *)
Definition fresh : t := start (constructor no_options).

(** C4.  Started from Idle with stable-count 0 and the default thresholds
    (0.015, 0.01, 3), the run over [0.02, 0.005, 0.02, 0.005, 0.005, 0.005]
    fires the trigger once, on the sixth sample, and ends in Idle with
    stable-count 0; the third sample (the spike) puts the machine back in
    ChangeDetected with stable-count 0. *)
Theorem scripted_run_with_interruption :
  state fresh = idle /\ stableFrameCount fresh = 0 /\
  changeThreshold fresh = dec 15 1000 /\
  lowChangeThreshold fresh = dec 1 100 /\
  stabilityFrames fresh = Js.of_Z 3 /\
  (let '(d, fired) := run fresh interrupted_script in
   fired = [false; false; false; false; false; true] /\
   state d = idle /\ stableFrameCount d = 0 /\ triggeredCount d = 1) /\
  (let '(d, _) := run fresh (take 2 interrupted_script) in
   state d = waiting_for_stability /\ stableFrameCount d = 1) /\
  (let '(d, _) := run fresh (take 3 interrupted_script) in
   state d = change_detected /\ stableFrameCount d = 0).
Proof. vm_compute. repeat split; reflexivity. Qed.

(** The uninterrupted script: one burst, three settled frames. *)
Example scripted_run_plain :
  let '(d, fired) := run fresh [dec 2 100; dec 5 1000; dec 5 1000; dec 5 1000] in
  fired = [false; false; false; true] /\ state d = idle.
Proof. vm_compute. split; reflexivity. Qed.

(** The counter invariant claimed of every reachable state. *)
Definition counter_invariant (d : t) : Prop :=
  (state d = idle \/ state d = change_detected -> stableFrameCount d = 0) /\
  (Js.of_Z (stableFrameCount d) <? stabilityFrames d)%js = true.

Lemma processStateChange_config (d : t) (p : Js.number) :
  stabilityFrames (processStateChange d p).1 = stabilityFrames d.
Proof.
  unfold processStateChange.
  destruct (state d); repeat (case_match; simpl; try reflexivity).
Qed.

Lemma run_config (fractions : list Js.number) :
  forall d, stabilityFrames (run d fractions).1 = stabilityFrames d.
Proof.
  induction fractions as [|p rest IH]; intros d; simpl; [reflexivity|].
  destruct (processStateChange d p) as [d1 f] eqn:E1.
  destruct (run d1 rest) as [d2 l] eqn:E2. simpl.
  change d2 with (d2, l).1. rewrite <- E2, IH.
  change d1 with (d1, f).1. rewrite <- E1. apply processStateChange_config.
Qed.

(** One transition keeps the invariant, and says when the pattern
    completes. *)
Lemma processStateChange_invariant (d : t) (p : Js.number) :
  (Js.of_Z 1 <? stabilityFrames d)%js = true ->
  counter_invariant d ->
  let d' := (processStateChange d p).1 in
  counter_invariant d' /\
  (triggeredCount d' <> triggeredCount d ->
   state d = waiting_for_stability /\
   (Js.of_Z (stableFrameCount d + 1) >=? stabilityFrames d)%js = true /\
   state d' = idle /\ stableFrameCount d' = 0 /\
   triggeredCount d' = triggeredCount d + 1).
Proof.
  intros Hsf [Hzero Hlt].
  assert (H0 : (Js.of_Z 0 <? stabilityFrames d)%js = true)
    by (eapply JsFacts.ltb_trans; [apply JsFacts.zero_lt_one | exact Hsf]).
  unfold processStateChange, counter_invariant in *. cbv zeta.
  destruct (state d) eqn:Es.
  - destruct (p >? changeThreshold d)%js; cbn [fst set_machine state stableFrameCount
      stabilityFrames triggeredCount].
    + split; [split; [reflexivity | exact H0] | congruence].
    + split; [split; [intros _; apply Hzero; now left | exact Hlt] | congruence].
  - destruct (p <? lowChangeThreshold d)%js; cbn [fst set_machine state stableFrameCount
      stabilityFrames triggeredCount].
    + split; [split; [intros [|]; discriminate | exact Hsf] | congruence].
    + split; [split; [intros _; apply Hzero; now right | exact Hlt] | congruence].
  - destruct (p <? lowChangeThreshold d)%js;
      cbn [fst set_machine set_stats state stableFrameCount stabilityFrames triggeredCount].
    + destruct (Js.of_Z (stableFrameCount d + 1) >=? stabilityFrames d)%js eqn:Ege;
        cbn [fst set_machine set_stats state stableFrameCount stabilityFrames triggeredCount].
      * split; [split; [reflexivity | exact H0] |].
        intros _. repeat split; reflexivity.
      * split; [| congruence].
        split; [intros [|]; discriminate |].
        apply JsFacts.geb_false_ltb; [reflexivity | | exact Ege].
        eapply JsFacts.ltb_not_nan_r; exact Hsf.
    + destruct (p >? changeThreshold d)%js;
        cbn [fst set_machine set_stats state stableFrameCount stabilityFrames triggeredCount].
      * split; [split; [reflexivity | exact H0] | congruence].
      * split; [| congruence].
        split; [intros [|]; discriminate | exact H0].
Qed.

Lemma processStateChange_nonneg (d : t) (p : Js.number) :
  0 <= stableFrameCount d -> 0 <= stableFrameCount (processStateChange d p).1.
Proof.
  intros H. unfold processStateChange.
  destruct (state d); repeat (case_match; simpl; try lia).
Qed.

Lemma run_invariant (fractions : list Js.number) :
  forall d,
    (Js.of_Z 1 <? stabilityFrames d)%js = true ->
    counter_invariant d -> 0 <= stableFrameCount d ->
    counter_invariant (run d fractions).1 /\ 0 <= stableFrameCount (run d fractions).1.
Proof.
  induction fractions as [|p rest IH]; intros d Hsf Hinv Hpos; simpl; [now split|].
  destruct (processStateChange d p) as [d1 f] eqn:E1.
  assert (Hd1 : d1 = (processStateChange d p).1) by now rewrite E1.
  destruct (run d1 rest) as [d2 l] eqn:E2. simpl.
  change d2 with (d2, l).1. rewrite <- E2.
  apply IH; subst d1.
  - now rewrite processStateChange_config.
  - now apply processStateChange_invariant.
  - now apply processStateChange_nonneg.
Qed.

(** A detector built with [stabilityFrames: 1]. *)
Definition one_stable_frame : Options :=
  {| o_scanInterval := None; o_scaleDownFactor := None;
     o_changeThreshold := None; o_lowChangeThreshold := None;
     o_stabilityFrames := Some (Js.of_Z 1); o_pixelDiffThreshold := None |}.

(** C9, as stated, fails when [stabilityFrames] is 1: from Idle with counter
    0, a high sample and then a low one lead to WaitingForStability with the
    counter at 1, which is not below [stabilityFrames]. *)
Lemma counter_invariant_fails_for_one_frame :
  let d0 := start (constructor one_stable_frame) in
  let d := (run d0 [dec 2 100; dec 5 1000]).1 in
  state d0 = idle /\ stableFrameCount d0 = 0 /\
  state d = waiting_for_stability /\
  Js.of_Z (stableFrameCount d) = stabilityFrames d /\
  ~ counter_invariant d.
Proof.
  vm_compute. repeat split; try reflexivity.
  intros [_ H]. discriminate H.
Qed.

(** C9, amended.  When [stabilityFrames] is greater than 1 (as with the
    default 3), every state reachable from (Idle, counter 0) by any sequence
    of fractions has counter 0 in Idle and in ChangeDetected, and a counter
    that is non-negative and strictly below [stabilityFrames]; with the
    default 3 it is 0, 1 or 2.  The counter reaches [stabilityFrames] only
    inside the transition that completes the pattern, which leaves Idle
    with counter 0. *)
Theorem counter_invariant_reachable (d0 : t) (fractions : list Js.number) :
  state d0 = idle -> stableFrameCount d0 = 0 ->
  (Js.of_Z 1 <? stabilityFrames d0)%js = true ->
  let d := (run d0 fractions).1 in
  counter_invariant d /\ 0 <= stableFrameCount d /\
    (stabilityFrames d0 = Js.of_Z 3 -> stableFrameCount d < 3) /\
    forall p,
    let d' := (processStateChange d p).1 in
    triggeredCount d' <> triggeredCount d ->
    state d = waiting_for_stability /\
    (Js.of_Z (stableFrameCount d + 1) >=? stabilityFrames d)%js = true /\
    state d' = idle /\ stableFrameCount d' = 0.
Proof.
  intros Hs Hc Hsf d.
  assert (Hinv0 : counter_invariant d0).
  { split; [intros _; exact Hc |]. rewrite Hc.
    eapply JsFacts.ltb_trans; [apply JsFacts.zero_lt_one | exact Hsf]. }
  destruct (run_invariant fractions d0 Hsf Hinv0) as [Hinv Hpos]; [lia|].
  fold d in Hinv, Hpos.
  assert (Hcfg : stabilityFrames d = stabilityFrames d0) by apply run_config.
  split; [exact Hinv|]. split; [exact Hpos|]. split.
  - intros H3. destruct Hinv as [_ Hlt]. rewrite Hcfg, H3 in Hlt.
    simpl in Hlt. apply JsFacts.Qltb_lt in Hlt. rewrite <- Zlt_Qlt in Hlt. exact Hlt.
  - intros p d' Hfire.
    destruct (processStateChange_invariant d p) as [_ H]; [now rewrite Hcfg | exact Hinv |].
    destruct (H Hfire) as (H1 & H2 & H3 & H4 & _). now repeat split.
Qed.

Lemma counter_invariant_reachable_witness :
  let d := (run fresh interrupted_script).1 in
  counter_invariant d /\ 0 <= stableFrameCount d.
Proof.
  destruct (counter_invariant_reachable fresh interrupted_script) as (H1 & H2 & _);
    [reflexivity | reflexivity | reflexivity |].
  split; [exact H1 | exact H2].
Defined.

End ChangeDetectorFacts.
(* ===================================================================== *)
(** * The frame differ *)
(* ===================================================================== *)

Module DifferFacts.

Import ChangeDetector.

Lemma abs_sub_of_Z (a b : Z) :
  Js.abs (Js.of_Z a - Js.of_Z b)%js = Js.abs (Js.of_Z b - Js.of_Z a)%js.
Proof.
  unfold Js.of_Z, Js.sub, Js.abs, inject_Z, Qminus, Qplus, Qopp, Qabs. simpl.
  f_equal. f_equal. lia.
Qed.

Lemma abs_sub_channel (data1 data2 : list Z) (i : nat) :
  Js.abs (channel data1 i - channel data2 i)%js =
  Js.abs (channel data2 i - channel data1 i)%js.
Proof.
  unfold channel. destruct (data1 !! i), (data2 !! i); try reflexivity.
  apply abs_sub_of_Z.
Qed.

Lemma totalDiff_comm (data1 data2 : list Z) (i : nat) :
  totalDiff data1 data2 i = totalDiff data2 data1 i.
Proof.
  unfold totalDiff.
  now rewrite !(abs_sub_channel data1 data2).
Qed.

Lemma foldl_ext_in {A B : Type} (f g : A -> B -> A) (l : list B) :
  (forall a b, f a b = g a b) -> forall a, foldl f a l = foldl g a l.
Proof.
  intros Hfg. induction l as [|b l IH]; intros a; simpl; [reflexivity|].
  now rewrite Hfg, IH.
Qed.

Lemma countDiff_comm (threshold : Js.number) (data1 data2 : list Z) :
  length data1 = length data2 ->
  countDiff threshold data1 data2 = countDiff threshold data2 data1.
Proof.
  intros Hlen. unfold countDiff. rewrite <- Hlen.
  apply foldl_ext_in. intros a i. now rewrite totalDiff_comm.
Qed.

(** Against itself a channel differs by zero, or is missing. *)
Lemma abs_sub_self (data1 : list Z) (i : nat) :
  Js.abs (channel data1 i - channel data1 i)%js = Js.NaN \/
  exists q, Js.abs (channel data1 i - channel data1 i)%js = Js.Num q /\ q == 0.
Proof.
  unfold channel. destruct (data1 !! i) as [b|]; [right | now left].
  eexists. split; [reflexivity|].
  unfold inject_Z, Qminus, Qplus, Qopp, Qabs, Qeq. simpl. lia.
Qed.

Lemma totalDiff_self (threshold : Js.number) (data1 : list Z) (i : nat) :
  (threshold <? Js.of_Z 0)%js = false ->
  (totalDiff data1 data1 i >? threshold)%js = false.
Proof.
  intros Ht. unfold totalDiff, Js.gtb.
  destruct (abs_sub_self data1 i) as [-> | (r & -> & Hr)];
    [now destruct threshold|].
  destruct (abs_sub_self data1 (i + 1)) as [-> | (g & -> & Hg)];
    [now destruct threshold|].
  destruct (abs_sub_self data1 (i + 2)) as [-> | (b & -> & Hb)];
    [now destruct threshold|].
  destruct threshold as [| |t|]; simpl in *; try congruence.
  JsFacts.qprop. unfold inject_Z in Ht. lra.
Qed.

Lemma foldl_unchanged {A B : Type} (f : A -> B -> A) (l : list B) (a : A) :
  (forall b, f a b = a) -> foldl f a l = a.
Proof.
  intros Hf. induction l as [|b l IH]; simpl; [reflexivity|].
  now rewrite Hf.
Qed.

Lemma countDiff_self (threshold : Js.number) (data1 : list Z) :
  (threshold <? Js.of_Z 0)%js = false -> countDiff threshold data1 data1 = 0.
Proof.
  intros Ht. unfold countDiff. apply foldl_unchanged.
  intros i. now rewrite totalDiff_self.
Qed.

Lemma wf_frame_length (f : ImageData) :
  wf_frame f -> 0 < Z.of_nat (length (data f)).
Proof. intros (Hw & Hh & Hlen). rewrite Hlen. nia. Qed.

Lemma wf_frame_same_length (f1 f2 : ImageData) :
  wf_frame f1 -> wf_frame f2 -> width f1 = width f2 -> height f1 = height f2 ->
  length (data f1) = length (data f2).
Proof.
  intros (_ & _ & H1) (_ & _ & H2) Hw Hh.
  apply Nat2Z.inj. rewrite H1, H2, Hw, Hh. reflexivity.
Qed.

(** The quotient the differ returns: the double nearest to the count over
    a quarter of the length. *)
Lemma fraction_value (c n : Z) :
  0 < n ->
  Js.fdiv (Js.of_Z c) (Js.of_Z n / Js.of_Z 4)%js
  = Js.double (inject_Z c / (inject_Z n / inject_Z 4)) /\
  (0 < inject_Z n / inject_Z 4)%Q.
Proof.
  intros Hn.
  assert (Hpos : (0 < inject_Z n / inject_Z 4)%Q).
  { apply Qlt_shift_div_l; [reflexivity|]. rewrite Qmult_0_l.
    change 0%Q with (inject_Z 0). rewrite <- Zlt_Qlt. exact Hn. }
  split; [|exact Hpos].
  unfold Js.fdiv, Js.of_Z. cbn [Js.div].
  replace (Qeq_bool (inject_Z 4) 0) with false by reflexivity.
  cbn [Js.div].
  replace (Qeq_bool (inject_Z n / inject_Z 4) 0) with false; [reflexivity|].
  symmetry. apply not_true_iff_false. intros E. apply Qeq_bool_iff in E.
  rewrite E in Hpos. now apply Qlt_irrefl in Hpos.
Qed.

Lemma zero_fraction (n : Z) :
  0 < n ->
  Js.eqb (Js.fdiv (Js.of_Z 0) (Js.of_Z n / Js.of_Z 4)%js) (Js.of_Z 0) = true.
Proof.
  intros Hn. destruct (fraction_value 0 n Hn) as [-> Hpos].
  rewrite FloatFacts.double_zero; [reflexivity|].
  change (inject_Z 0) with 0%Q. unfold Qdiv. ring.
Qed.

(** ** The differ in the words of its description *)

(** Byte [k] of a frame. *)
Definition byteAt (f : ImageData) (k : nat) : Z := nth k (data f) 0.

(** A pixel counts as changed when the sum of the absolute differences of
    its red, green and blue bytes exceeds the threshold. *)
Definition pixelChanged (threshold : Js.number) (A B : ImageData) (p : nat) : bool :=
  (Js.of_Z (Z.abs (byteAt A (4 * p) - byteAt B (4 * p))
            + Z.abs (byteAt A (4 * p + 1) - byteAt B (4 * p + 1))
            + Z.abs (byteAt A (4 * p + 2) - byteAt B (4 * p + 2)))
   >? threshold)%js.

Definition pixelCount (A : ImageData) : nat := Z.to_nat (width A * height A).

Definition changedPixels (threshold : Js.number) (A B : ImageData) : nat :=
  length (filter (fun p => pixelChanged threshold A B p = true) (seq 0 (pixelCount A))).

Lemma channel_in_range (f : ImageData) (k : nat) :
  (k < length (data f))%nat -> channel (data f) k = Js.of_Z (byteAt f k).
Proof.
  intros Hk. unfold channel, byteAt.
  destruct (lookup_lt_is_Some_2 (data f) k Hk) as [b Hb]. rewrite Hb.
  now rewrite (nth_lookup_Some _ _ 0 _ Hb).
Qed.

Lemma abs_sub_of_Z_value (a b : Z) :
  JsFacts.same (Js.abs (Js.of_Z a - Js.of_Z b)%js) (Js.of_Z (Z.abs (a - b))).
Proof.
  unfold Js.of_Z, Js.sub, Js.abs, JsFacts.same, inject_Z, Qminus, Qplus, Qopp, Qabs, Qeq.
  cbn. lia.
Qed.

Lemma add_of_Z_same (x y : Js.number) (a b : Z) :
  JsFacts.same x (Js.of_Z a) -> JsFacts.same y (Js.of_Z b) ->
  JsFacts.same (x + y)%js (Js.of_Z (a + b)).
Proof.
  destruct x as [| |p|], y as [| |q|]; try contradiction. unfold Js.of_Z. cbn.
  intros -> ->. now rewrite inject_Z_plus.
Qed.

Lemma totalDiff_in_range (threshold : Js.number) (A B : ImageData) (p : nat) :
  length (data A) = length (data B) ->
  (4 * p + 3 < length (data A))%nat ->
  (totalDiff (data A) (data B) (4 * p) >? threshold)%js = pixelChanged threshold A B p.
Proof.
  intros Hlen Hp. unfold pixelChanged, Js.gtb.
  apply JsFacts.ltb_same; [apply JsFacts.same_refl|].
  unfold totalDiff.
  rewrite !(channel_in_range A), !(channel_in_range B) by lia.
  apply add_of_Z_same; [apply add_of_Z_same|]; apply abs_sub_of_Z_value.
Qed.

Lemma foldl_count_filter {X : Type} (test : X -> bool) (keep : X -> bool) (l : list X) :
  (forall x, x ∈ l -> test x = keep x) ->
  forall c : Z,
    foldl (fun n x => if test x then n + 1 else n) c l
    = c + Z.of_nat (length (filter (fun x => keep x = true) l)).
Proof.
  induction l as [|x l IH]; intros Hl c; cbn [foldl]; [rewrite filter_nil; cbn; lia|].
  rewrite IH by (intros y Hy; apply Hl; now right).
  rewrite (Hl x) by now left.
  rewrite filter_cons. destruct (keep x) eqn:E.
  - rewrite decide_True by reflexivity. cbn [length]. lia.
  - rewrite decide_False by discriminate. lia.
Qed.

Lemma foldl_map {X Y Z' : Type} (f : Z' -> Y -> Z') (g : X -> Y) (l : list X) :
  forall c, foldl f c (map g l) = foldl (fun n x => f n (g x)) c l.
Proof. induction l as [|x l IH]; intros c; cbn; [reflexivity | apply IH]. Qed.

(** The loop counts the changed pixels. *)
Lemma countDiff_counts (threshold : Js.number) (A B : ImageData) :
  wf_frame A -> length (data A) = length (data B) ->
  countDiff threshold (data A) (data B) = Z.of_nat (changedPixels threshold A B) /\
  Z.of_nat (length (data A)) = 4 * Z.of_nat (pixelCount A) /\ (0 < pixelCount A)%nat.
Proof.
  intros (Hw & Hh & HlenA) Hlen.
  assert (Hn : length (data A) = (4 * pixelCount A)%nat).
  { unfold pixelCount. apply Nat2Z.inj. rewrite HlenA, Nat2Z.inj_mul, Z2Nat.id by nia. lia. }
  assert (Hpix : (0 < pixelCount A)%nat) by (unfold pixelCount; nia).
  split; [|split; [lia | exact Hpix]].
  unfold countDiff, changedPixels, pixel_offsets.
  replace ((length (data A) + 3) `div` 4)%nat with (pixelCount A).
  2:{ rewrite Hn. apply Nat.div_unique with 3%nat; lia. }
  rewrite foldl_map.
  rewrite (foldl_count_filter _ (pixelChanged threshold A B)); [lia|].
  intros p Hp. apply elem_of_seq in Hp.
  apply totalDiff_in_range; [exact Hlen | lia].
Qed.

(** A differ built with a per-pixel threshold of -5. *)
Definition negative_threshold : Options :=
  {| o_scanInterval := None; o_scaleDownFactor := None;
     o_changeThreshold := None; o_lowChangeThreshold := None;
     o_stabilityFrames := None; o_pixelDiffThreshold := Some (Js.of_Z (-5)) |}.

Definition black_pixel : ImageData := {| width := 1; height := 1; data := [0; 0; 0; 255] |}.
Definition white_pixel : ImageData := {| width := 1; height := 1; data := [255; 255; 255; 255] |}.




End DifferFacts.
(* ===================================================================== *)
(** * Sampler ticks against OCR passes *)
(* ===================================================================== *)

Module AppFacts.

Import App.
Import DifferFacts.

(** From the linked page: a first frame, a burst, three settled frames.
    The third settled frame completes the pattern and starts a pass. *)
Definition until_pass_in_flight : list event :=
  [Tick (Some black_pixel); Tick (Some white_pixel); Tick (Some white_pixel);
   Tick (Some white_pixel); Tick (Some white_pixel)].


Lemma performOCR_begin_busy (a : t) :
  isProcessing a = true -> performOCR_begin a = a.
Proof. intros H. unfold performOCR_begin. now rewrite H. Qed.

Lemma performOCR_begin_detector (a : t) :
  changeDetector (performOCR_begin a) = changeDetector a.
Proof.
  unfold performOCR_begin.
  destruct (isProcessing a); [reflexivity|].
  now destruct (negb (captureInitialized a)).
Qed.

(** The state machine touches neither the remembered frame nor the last
    fraction. *)
Lemma processStateChange_keeps (d : ChangeDetector.t) (p : Js.number) :
  ChangeDetector.lastFrame (ChangeDetector.processStateChange d p).1
  = ChangeDetector.lastFrame d /\
  ChangeDetector.lastChangePercent (ChangeDetector.processStateChange d p).1
  = ChangeDetector.lastChangePercent d.
Proof.
  unfold ChangeDetector.processStateChange.
  destruct (ChangeDetector.state d);
    repeat (match goal with |- context [if ?c then _ else _] => destruct c end);
    cbn; split; reflexivity.
Qed.

(** The page with the busy flag lowered. *)
Definition lowered (a : t) : t :=
  {| changeDetector := changeDetector a; timerRunning := timerRunning a;
     captureInitialized := captureInitialized a;
     isProcessing := false; passesStarted := passesStarted a;
     recentLines := recentLines a; displayed := displayed a |}.

(** What a tick does to the detector does not depend on the busy flag. *)
Lemma tick_detector (a : t) (captured : option ChangeDetector.ImageData) :
  changeDetector (tick a captured)
  = (ChangeDetector.checkFrame (changeDetector a) (Some (timerRunning a)) captured).1.
Proof.
  unfold tick.
  destruct (ChangeDetector.checkFrame _ _ _) as [d fired]. cbn [fst].
  destruct fired; [|reflexivity].
  now rewrite performOCR_begin_detector.
Qed.



End AppFacts.
(* ===================================================================== *)
(** * The line filter *)
(* ===================================================================== *)

Module LineFilterFacts.

Import LineFilter.

(** ** The repeat check *)

Lemma at_length {A : Type} (a : list A) : at_ a (Z.of_nat (length a)) = None.
Proof.
  unfold at_.
  replace (0 <=? Z.of_nat (length a)) with true by (symmetry; apply Z.leb_le; lia).
  replace (Z.of_nat (length a) <=? Z.of_nat (length a)) with true
    by (symmetry; apply Z.leb_le; lia).
  now rewrite orb_true_r.
Qed.

Lemma filterOCRLine_never_suppresses (text : jsstring) (recentLines : list jsstring) :
  (filterOCRLine text recentLines).1 = normalized text.
Proof.
  unfold filterOCRLine, normalized.
  destruct (normalize text) as [|c t]; [reflexivity|].
  rewrite at_length. reflexivity.
Qed.

(** C1 fails on the code.  [recentLines.at(recentLines.length)] reads one
    past the end and is always [undefined], so the comparison with the
    previous line never holds: whatever the buffer holds, [filterOCRLine]
    returns the normalized line.  The same line twice in a row is emitted
    twice. *)
Theorem repeat_is_not_suppressed :
  (forall text recentLines,
     (filterOCRLine text recentLines).1 = normalized text) /\
  (let '(first, buffer) := filterOCRLine [12354] [] in
   let '(second, buffer') := filterOCRLine [12354] buffer in
   first = Some [12354] /\ second = Some [12354] /\
   buffer = [[12354]] /\ buffer' = [[12354]; [12354]]).
Proof.
  split; [exact filterOCRLine_never_suppresses|].
  vm_compute. repeat split; reflexivity.
Qed.

(** ** Normalization *)

(** An opening bracket without its close gets one appended; a closing
    bracket without its open gets one prepended. *)
Example balance_open_only :
  normalized [30340; 12300; 20170; 26085; 12399]
  = Some [30340; 12300; 20170; 26085; 12399; 12301].
Proof. reflexivity. Qed.

Example balance_close_only :
  normalized [20170; 26085; 12399; 12301]
  = Some [12300; 20170; 26085; 12399; 12301].
Proof. reflexivity. Qed.

(** The first unit of [s], if any, fails [p]. *)
Definition first_fails (p : Z -> bool) (s : jsstring) : bool :=
  match s with
  | [] => true
  | c :: _ => negb (p c)
  end.

(** Neither end of [s] satisfies [p]. *)
Definition edges_fail (p : Z -> bool) (s : jsstring) : bool :=
  first_fails p s && first_fails p (rev s).

(** [s] holds the unit [c] twice in a row. *)
Fixpoint has_double (c : Z) (s : jsstring) : bool :=
  match s with
  | a :: (b :: _) as rest => ((a =? c) && (b =? c)) || has_double c rest
  | _ => false
  end.

Lemma skip_while_id (p : Z -> bool) (s : jsstring) :
  first_fails p s = true -> skip_while p s = s.
Proof.
  destruct s as [|c s]; simpl; [reflexivity|].
  intros H. apply negb_true_iff in H. now rewrite H.
Qed.

Lemma skip_while_first_fails (p : Z -> bool) (s : jsstring) :
  first_fails p (skip_while p s) = true.
Proof.
  induction s as [|c s IH]; simpl; [reflexivity|].
  destruct (p c) eqn:E; [exact IH|]. simpl. now rewrite E.
Qed.

Lemma skip_while_suffix (p : Z -> bool) (s : jsstring) :
  exists pre, s = pre ++ skip_while p s /\ forallb p pre = true.
Proof.
  induction s as [|c s (pre & IH & Hpre)]; simpl.
  - exists []. now split.
  - destruct (p c) eqn:E.
    + exists (c :: pre). simpl. rewrite E, Hpre. split; [now f_equal | reflexivity].
    + exists []. now split.
Qed.

Lemma first_fails_app_l (p : Z -> bool) (r w : jsstring) :
  first_fails p (r ++ w) = true -> r <> [] -> first_fails p r = true.
Proof. destruct r; simpl; congruence. Qed.

Lemma strip_edges_id (p : Z -> bool) (s : jsstring) :
  edges_fail p s = true -> strip_edges p s = s.
Proof.
  unfold edges_fail, strip_edges. intros H. apply andb_true_iff in H as [H1 H2].
  rewrite (skip_while_id p s H1), (skip_while_id p (rev s) H2).
  apply rev_involutive.
Qed.

Lemma strip_edges_edges_fail (p : Z -> bool) (s : jsstring) :
  edges_fail p (strip_edges p s) = true.
Proof.
  unfold edges_fail, strip_edges. rewrite rev_involutive.
  rewrite skip_while_first_fails, andb_true_r.
  set (y := skip_while p s).
  destruct (skip_while_suffix p (rev y)) as (pre & Hy & _).
  set (r := rev (skip_while p (rev y))).
  assert (Hyr : y = r ++ rev pre).
  { unfold r. rewrite <- rev_app_distr, <- Hy. symmetry. apply rev_involutive. }
  destruct r as [|c r'] eqn:Er; [reflexivity|].
  apply (first_fails_app_l p (c :: r') (rev pre)); [|discriminate].
  rewrite <- Hyr. apply skip_while_first_fails.
Qed.

Lemma includes_app (c : Z) (s1 s2 : jsstring) :
  includes c (s1 ++ s2) = includes c s1 || includes c s2.
Proof. apply existsb_app. Qed.

Lemma includes_rev (c : Z) (s : jsstring) : includes c (rev s) = includes c s.
Proof.
  induction s as [|a s IH]; simpl; [reflexivity|].
  rewrite includes_app, IH. simpl. rewrite orb_false_r. apply orb_comm.
Qed.

Lemma includes_skip_while (p : Z -> bool) (c : Z) (s : jsstring) :
  p c = false -> includes c (skip_while p s) = includes c s.
Proof.
  intros Hc. induction s as [|a s IH]; simpl; [reflexivity|].
  destruct (p a) eqn:E; [|reflexivity].
  rewrite IH. destruct (Z.eqb_spec c a) as [->|]; [congruence | reflexivity].
Qed.

Lemma includes_strip_edges (p : Z -> bool) (c : Z) (s : jsstring) :
  p c = false -> includes c (strip_edges p s) = includes c s.
Proof.
  intros Hc. unfold strip_edges.
  now rewrite includes_rev, includes_skip_while, includes_rev, includes_skip_while.
Qed.

(** Replacing a one-unit pattern is a map over the units. *)
Lemma replaceAll_unit (c d : Z) (s : jsstring) :
  replaceAll [c] [d] s = map (fun x => if x =? c then d else x) s.
Proof.
  unfold replaceAll. induction s as [|a s IH]; [reflexivity|].
  cbn [replaceAll_from starts_with length Nat.sub map].
  rewrite (Z.eqb_sym c a), andb_true_r.
  destruct (a =? c); simpl; now rewrite IH.
Qed.

Lemma replaceAll_unit_absent (c d : Z) (s : jsstring) :
  includes c s = false -> replaceAll [c] [d] s = s.
Proof.
  rewrite replaceAll_unit. induction s as [|a s IH]; simpl; [reflexivity|].
  intros H. apply orb_false_iff in H as [Ha Hs].
  rewrite Z.eqb_sym, Ha, IH by exact Hs. reflexivity.
Qed.

Lemma includes_replaceAll_unit_gone (c d : Z) (s : jsstring) :
  c <> d -> includes c (replaceAll [c] [d] s) = false.
Proof.
  intros Hcd. rewrite replaceAll_unit.
  induction s as [|a s IH]; simpl; [reflexivity|]. rewrite IH, orb_false_r.
  destruct (Z.eqb_spec a c) as [->|Hac]; apply Z.eqb_neq; congruence.
Qed.

Lemma includes_replaceAll_unit_other (c d e : Z) (s : jsstring) :
  e <> c -> e <> d -> includes e (replaceAll [c] [d] s) = includes e s.
Proof.
  intros Hc Hd. rewrite replaceAll_unit.
  induction s as [|a s IH]; simpl; [reflexivity|]. rewrite IH. f_equal.
  destruct (Z.eqb_spec a c) as [->|Hac]; [|reflexivity].
  transitivity false; [|symmetry]; apply Z.eqb_neq; congruence.
Qed.

Lemma replaceAll_double_absent (c : Z) (s : jsstring) :
  has_double c s = false -> replaceAll [c; c] [c] s = s.
Proof.
  unfold replaceAll. induction s as [|a s IH]; [reflexivity|].
  intros H. cbn [replaceAll_from].
  assert (Hs : starts_with [c; c] (a :: s) = false /\ has_double c s = false).
  { destruct s as [|b s']; simpl in *.
    - now rewrite andb_false_r.
    - apply orb_false_iff in H as [H1 H2]. split; [|exact H2].
      rewrite andb_true_r, (Z.eqb_sym c a), (Z.eqb_sym c b). exact H1. }
  destruct Hs as [-> Hs]. now rewrite IH.
Qed.

Lemma balance_id (open close : Z) (s : jsstring) :
  includes open s = includes close s -> balance open close s = s.
Proof. unfold balance. intros ->. now destruct (includes close s). Qed.

Lemma includes_cons (c a : Z) (s : jsstring) :
  includes c (a :: s) = (c =? a) || includes c s.
Proof. reflexivity. Qed.

Lemma balance_balanced (open close : Z) (s : jsstring) :
  open <> close ->
  includes open (balance open close s) = includes close (balance open close s).
Proof.
  intros Hne. unfold balance.
  destruct (includes open s) eqn:Eo, (includes close s) eqn:Ec; cbn [andb negb].
  - congruence.
  - rewrite !includes_app, Eo, Ec. simpl. now rewrite Z.eqb_refl.
  - rewrite !includes_cons, Eo, Ec, Z.eqb_refl. now rewrite orb_true_r.
  - congruence.
Qed.

Lemma includes_balance_other (open close e : Z) (s : jsstring) :
  e <> open -> e <> close -> includes e (balance open close s) = includes e s.
Proof.
  intros Ho Hc. unfold balance.
  destruct (includes open s && negb (includes close s)).
  - rewrite includes_app. simpl.
    replace (e =? close) with false by (symmetry; now apply Z.eqb_neq).
    now rewrite !orb_false_r.
  - destruct (negb (includes open s) && includes close s); [|reflexivity].
    rewrite includes_cons.
    now replace (e =? open) with false by (symmetry; now apply Z.eqb_neq).
Qed.

(** What every normalized text looks like: no ASCII parenthesis and no
    horizontal bar is left, each bracket pair is present on both sides or
    on neither, and the text is trimmed. *)
Lemma normalize_shape (s : jsstring) :
  let t := normalize s in
  includes ASCII_OPEN_PAREN t = false /\
  includes ASCII_CLOSE_PAREN t = false /\
  includes OPEN_QUOTE t = includes CLOSE_QUOTE t /\
  includes OPEN_PAREN t = includes CLOSE_PAREN t /\
  includes HORIZONTAL_BAR t = false /\
  edges_fail is_white t = true.
Proof.
  unfold normalize, trim.
  set (s3 := replaceAll [OPEN_QUOTE; OPEN_QUOTE] [OPEN_QUOTE] _).
  set (s4 := replaceAll [ASCII_OPEN_PAREN] [OPEN_PAREN] s3).
  set (s5 := replaceAll [ASCII_CLOSE_PAREN] [CLOSE_PAREN] s4).
  set (s6 := balance OPEN_QUOTE CLOSE_QUOTE s5).
  set (s7 := balance OPEN_PAREN CLOSE_PAREN s6).
  cbv zeta.
  rewrite !includes_strip_edges by reflexivity.
  split; [|split; [|split; [|split; [|split]]]].
  - rewrite includes_replaceAll_unit_other by discriminate. unfold s7, s6.
    rewrite !includes_balance_other by discriminate. unfold s5.
    rewrite includes_replaceAll_unit_other by discriminate.
    now apply includes_replaceAll_unit_gone.
  - rewrite includes_replaceAll_unit_other by discriminate. unfold s7, s6.
    rewrite !includes_balance_other by discriminate.
    now apply includes_replaceAll_unit_gone.
  - rewrite !includes_replaceAll_unit_other by discriminate. unfold s7.
    rewrite !includes_balance_other by discriminate.
    now apply balance_balanced.
  - rewrite !includes_replaceAll_unit_other by discriminate.
    now apply balance_balanced.
  - now apply includes_replaceAll_unit_gone.
  - apply strip_edges_edges_fail.
Qed.

(** A text of that shape, with no ASCII unit at either end and no doubled
    corner bracket, is left as it is. *)
Lemma normalize_fixed (t : jsstring) :
  edges_fail is_ascii t = true ->
  has_double CLOSE_QUOTE t = false ->
  has_double OPEN_QUOTE t = false ->
  includes ASCII_OPEN_PAREN t = false ->
  includes ASCII_CLOSE_PAREN t = false ->
  includes OPEN_QUOTE t = includes CLOSE_QUOTE t ->
  includes OPEN_PAREN t = includes CLOSE_PAREN t ->
  includes HORIZONTAL_BAR t = false ->
  edges_fail is_white t = true ->
  normalize t = t.
Proof.
  intros Hedge Hc Ho Hp1 Hp2 Hq Hp Hbar Htrim.
  unfold normalize, stripAsciiEdges, trim.
  rewrite (strip_edges_id _ _ Hedge).
  rewrite (replaceAll_double_absent _ _ Hc), (replaceAll_double_absent _ _ Ho).
  rewrite (replaceAll_unit_absent _ _ _ Hp1), (replaceAll_unit_absent _ _ _ Hp2).
  rewrite (balance_id _ _ _ Hq), (balance_id _ _ _ Hp).
  rewrite (replaceAll_unit_absent _ _ _ Hbar).
  apply strip_edges_id, Htrim.
Qed.

Lemma normalized_Some (s t : jsstring) :
  normalized s = Some t -> normalize s = t /\ t <> [].
Proof.
  unfold normalized. destruct (normalize s); [discriminate|].
  intros [= <-]. split; [reflexivity | discriminate].
Qed.

(** C7, as stated, fails.  A run of three closing brackets normalizes to a
    text that still holds two of them, and normalizing that text removes
    one more; a text that starts with an ideographic space followed by an
    ASCII letter normalizes to a text starting with that letter, which
    normalizing again strips. *)
Lemma normalization_is_not_idempotent :
  normalized [12301; 12301; 12301] = Some [12300; 12301; 12301] /\
  normalized [12300; 12301; 12301] = Some [12300; 12301] /\
  normalized [12288; 97; 12288; 12354] = Some [97; 12288; 12354] /\
  normalized [97; 12288; 12354] = Some [12354] /\
  ~ (forall s t, normalized s = Some t -> normalized t = Some t).
Proof.
  repeat split; try reflexivity.
  intros H. specialize (H [12301; 12301; 12301] [12300; 12301; 12301] eq_refl).
  vm_compute in H. discriminate H.
Qed.

(** C7, amended.  When the normalization of a text yields a non-empty [t]
    that has no ASCII unit at either end and no doubled corner bracket
    left, normalizing [t] again yields [t] unchanged. *)
Theorem normalization_idempotent_on_clean_results (s t : jsstring) :
  normalized s = Some t ->
  edges_fail is_ascii t = true ->
  has_double CLOSE_QUOTE t = false ->
  has_double OPEN_QUOTE t = false ->
  normalized t = Some t.
Proof.
  intros Hs Hedge Hc Ho.
  apply normalized_Some in Hs as [Hs Hne].
  pose proof (normalize_shape s) as Hshape. cbv zeta in Hshape.
  rewrite Hs in Hshape. destruct Hshape as (H1 & H2 & H3 & H4 & H5 & H6).
  unfold normalized.
  rewrite (normalize_fixed t Hedge Hc Ho H1 H2 H3 H4 H5 H6).
  destruct t; [congruence | reflexivity].
Qed.

Lemma normalization_idempotent_on_clean_results_witness :
  normalized [12354; 12300; 12301] = Some [12354; 12300; 12301].
Proof.
  apply (normalization_idempotent_on_clean_results [12354; 12300]);
    reflexivity.
Defined.

End LineFilterFacts.
(* ===================================================================== *)
(** * The detection reducer: grouping by overlap *)
(* ===================================================================== *)

Module MergeFacts.

Import MeikiOCR.

Lemma boxesOverlap_sym (b1 b2 : Box) : boxesOverlap b1 b2 = boxesOverlap b2 b1.
Proof.
  unfold boxesOverlap. f_equal.
  destruct (bx2 b1 <=? bx1 b2)%js, (bx2 b2 <=? bx1 b1)%js,
           (by2 b1 <=? by1 b2)%js, (by2 b2 <=? by1 b1)%js; reflexivity.
Qed.

Section Groups.

Variable regions : list Region.

Lemma overlapAt_sym (i j : nat) : overlapAt regions i j = overlapAt regions j i.
Proof.
  unfold overlapAt. destruct (regions !! i), (regions !! j); try reflexivity.
  apply boxesOverlap_sym.
Qed.

Lemma overlapAt_lt (i j : nat) :
  overlapAt regions i j = true -> (i < length regions)%nat /\ (j < length regions)%nat.
Proof.
  unfold overlapAt.
  destruct (regions !! i) eqn:Ei; [|discriminate].
  destruct (regions !! j) eqn:Ej; [|discriminate].
  intros _. split; eapply lookup_lt_Some; eassumption.
Qed.

(** Boxes linked by a chain of pairwise overlaps. *)
Inductive connected : nat -> nat -> Prop :=
| connected_refl i : (i < length regions)%nat -> connected i i
| connected_step i j k :
    connected i j -> overlapAt regions j k = true -> connected i k.

Lemma connected_lt (i j : nat) :
  connected i j -> (i < length regions)%nat /\ (j < length regions)%nat.
Proof.
  induction 1 as [i Hi | i j k _ [IH _] Hjk]; [now split|].
  split; [exact IH | now apply overlapAt_lt in Hjk].
Qed.

Lemma connected_trans (i j k : nat) :
  connected i j -> connected j k -> connected i k.
Proof.
  intros Hij Hjk. induction Hjk as [| j m k _ IH Hmk]; [exact Hij|].
  eapply connected_step; [apply IH; exact Hij | exact Hmk].
Qed.

Lemma connected_sym (i j : nat) : connected i j -> connected j i.
Proof.
  induction 1 as [i Hi | i j k Hij IH Hjk]; [now constructor|].
  apply connected_trans with j; [|exact IH].
  apply connected_step with k.
  - constructor. now apply overlapAt_lt in Hjk.
  - now rewrite overlapAt_sym.
Qed.

Lemma overlapsGroup_true (j : nat) (group : list nat) :
  overlapsGroup regions j group = true <->
  exists g, g ∈ group /\ overlapAt regions j g = true.
Proof.
  unfold overlapsGroup. rewrite existsb_exists.
  split; intros (g & Hg & Ho); exists g; (split; [|exact Ho]);
    now apply list_elem_of_In.
Qed.

Lemma overlapsGroup_false (j : nat) (group : list nat) :
  overlapsGroup regions j group = false <->
  forall g, g ∈ group -> overlapAt regions j g = false.
Proof.
  rewrite <- not_true_iff_false, overlapsGroup_true. split.
  - intros H g Hg. apply not_true_iff_false. intros Ho. apply H. now exists g.
  - intros H (g & Hg & Ho). rewrite (H g Hg) in Ho. discriminate.
Qed.

(** ** One group under construction

    [grown seed base group used]: [group] was started from [seed] when
    the used set was [base], and [used] is the used set now. *)
Definition grown (seed : nat) (base : gset nat) (group : list nat)
    (used : gset nat) : Prop :=
  NoDup group /\
  used = list_to_set group ∪ base /\
  forall m, m ∈ group -> (m ∉ base) /\ connected seed m.

Lemma grown_length (seed : nat) (base : gset nat) (group : list nat) (used : gset nat) :
  grown seed base group used -> (length group <= length regions)%nat.
Proof.
  intros (Hnd & _ & Hm).
  assert (H : (length group <= length (seq 0%nat (length regions)))%nat).
  { apply submseteq_length, NoDup_submseteq; [exact Hnd|].
    intros m Hin. apply elem_of_seq.
    destruct (Hm m Hin) as [_ Hc]. apply connected_lt in Hc. lia. }
  now rewrite length_seq in H.
Qed.

Lemma sweep_step_grown (seed : nat) (base : gset nat) (group : list nat)
    (used : gset nat) (changed : bool) (j : nat) :
  grown seed base group used ->
  let '(group', used', changed') := sweep_step regions (group, used, changed) j in
  grown seed base group' used' /\
  ((group' = group /\ used' = used /\ changed' = changed /\
    (j ∉ used -> overlapsGroup regions j group = false)) \/
   (group' = group ++ [j] /\ changed' = true)).
Proof.
  intros Hg. unfold sweep_step.
  destruct (bool_decide (j ∈ used)) eqn:Eu.
  - split; [exact Hg|]. left. repeat split.
    intros Hn. apply bool_decide_eq_true in Eu. contradiction.
  - apply bool_decide_eq_false in Eu.
    destruct (overlapsGroup regions j group) eqn:Eo.
    + split; [|right; now split].
      destruct Hg as (Hnd & Hused & Hm).
      apply overlapsGroup_true in Eo as (g & Hgin & Hov).
      split; [|split].
      * apply NoDup_app. split; [exact Hnd|]. split; [|apply NoDup_singleton].
        intros x Hx Hxj. apply list_elem_of_singleton in Hxj as ->.
        apply Eu. rewrite Hused. apply elem_of_union. left.
        now apply elem_of_list_to_set.
      * rewrite Hused. apply set_eq. intros x.
        rewrite !elem_of_union, !elem_of_list_to_set, elem_of_app,
          list_elem_of_singleton, elem_of_singleton. tauto.
      * intros m Hin. apply elem_of_app in Hin as [Hin | Hin]; [now apply Hm|].
        apply list_elem_of_singleton in Hin as ->. split.
        -- intros Hb. apply Eu. rewrite Hused. apply elem_of_union. now right.
        -- apply connected_step with g; [now apply Hm|].
           now rewrite overlapAt_sym.
    + split; [exact Hg|]. left. now repeat split.
Qed.

Lemma sweep_fold_spec (seed : nat) (base : gset nat) (l : list nat) :
  forall group used changed,
    grown seed base group used ->
    let '(group', used', changed') :=
      foldl (sweep_step regions) (group, used, changed) l in
    grown seed base group' used' /\
    (forall m, m ∈ group -> m ∈ group') /\
    (changed' = false ->
       changed = false /\ group' = group /\ used' = used /\
       forall j, j ∈ l -> j ∉ used -> overlapsGroup regions j group = false) /\
    (changed' = true -> changed = true \/ (length group < length group')%nat).
Proof.
  induction l as [|j l IH]; intros group used changed Hg; cbn [foldl].
  - split; [exact Hg|]. split; [auto|]. split.
    + intros Hc. split; [exact Hc|]. split; [reflexivity|]. split; [reflexivity|].
      intros j Hj. now apply elem_of_nil in Hj.
    + intros Hc. now left.
  - pose proof (sweep_step_grown seed base group used changed j Hg) as Hstep.
    destruct (sweep_step regions (group, used, changed) j) as [[g1 u1] c1].
    destruct Hstep as [Hg1 Hcase].
    specialize (IH g1 u1 c1 Hg1).
    destruct (foldl (sweep_step regions) (g1, u1, c1) l) as [[g2 u2] c2].
    destruct IH as (Hg2 & Hsub & Hfalse & Htrue).
    split; [exact Hg2|].
    destruct Hcase as [(-> & -> & -> & Hj) | [-> ->]].
    + split; [exact Hsub|]. split.
      * intros Hc. destruct (Hfalse Hc) as (H1 & H2 & H3 & H4).
        repeat split; try assumption.
        intros j' Hin. apply elem_of_cons in Hin as [-> | Hin]; [exact Hj | now apply H4].
      * exact Htrue.
    + split; [|split].
      * intros m Hm. apply Hsub. apply elem_of_app. now left.
      * intros Hc. destruct (Hfalse Hc) as [H1 _]. discriminate.
      * intros _. right.
        assert (Hlen : (length (group ++ [j]) <= length g2)%nat).
        { apply submseteq_length, NoDup_submseteq; [apply Hg1 | exact Hsub]. }
        rewrite length_app in Hlen. simpl in Hlen. lia.
Qed.

(** The [while] loop ends within its bound, with a group that no unused
    box overlaps. *)
Lemma grow_spec (seed : nat) (base : gset nat) (bound : nat) :
  forall group used,
    grown seed base group used ->
    (length regions < bound + length group)%nat ->
    exists group' used',
      grow bound regions group used = Return (group', used') /\
      grown seed base group' used' /\
      (forall m, m ∈ group -> m ∈ group') /\
      (forall j, (j < length regions)%nat -> j ∉ used' ->
                 overlapsGroup regions j group' = false).
Proof.
  induction bound as [|bound IH]; intros group used Hg Hlen.
  - apply grown_length in Hg. lia.
  - cbn [grow]. unfold sweep.
    pose proof (sweep_fold_spec seed base (seq 0%nat (length regions)) group used false Hg)
      as Hsweep.
    destruct (foldl (sweep_step regions) (group, used, false) (seq 0%nat (length regions)))
      as [[g1 u1] c1].
    destruct Hsweep as (Hg1 & Hsub & Hfalse & Htrue).
    destruct c1.
    + destruct (Htrue eq_refl) as [? | Hgt]; [discriminate|].
      destruct (IH g1 u1 Hg1) as (g2 & u2 & Hrun & Hg2 & Hsub2 & Hclosed); [lia|].
      exists g2, u2. split; [exact Hrun|]. split; [exact Hg2|].
      split; [|exact Hclosed].
      intros m Hm. now apply Hsub2, Hsub.
    + destruct (Hfalse eq_refl) as (_ & -> & -> & Hclosed).
      exists group, used. split; [reflexivity|]. split; [exact Hg|].
      split; [auto|].
      intros j Hj Hn. apply Hclosed; [|exact Hn].
      apply elem_of_seq. lia.
Qed.

(** ** All groups *)

(** No box of [g1] overlaps a box of [g2]. *)
Definition separated (g1 g2 : list nat) : Prop :=
  forall i j, i ∈ g1 -> j ∈ g2 -> overlapAt regions i j = false.

(** What holds of [groups] and [used] between two turns of the outer loop. *)
Record collected (groups : list (list nat)) (used : gset nat) : Prop := {
  col_used : forall j, j ∈ used <-> exists g, g ∈ groups /\ j ∈ g;
  col_closed : forall g j, g ∈ groups -> (j < length regions)%nat -> j ∉ used ->
                           overlapsGroup regions j g = false;
  col_conn : forall g i j, g ∈ groups -> i ∈ g -> j ∈ g -> connected i j;
  col_sep : forall g1 g2, g1 ∈ groups -> g2 ∈ groups -> g1 <> g2 ->
                          separated g1 g2 /\ (forall i, i ∈ g1 -> i ∉ g2);
  col_nodup : NoDup groups;
  col_members_nodup : forall g, g ∈ groups -> NoDup g;
  col_nonempty : forall g, g ∈ groups -> g <> []
}.

Lemma collected_empty : collected [] ∅.
Proof.
  split.
  - intros j. split; [intros H; now apply not_elem_of_empty in H|].
    intros (g & Hg & _). now apply elem_of_nil in Hg.
  - intros g j Hg. now apply elem_of_nil in Hg.
  - intros g i j Hg. now apply elem_of_nil in Hg.
  - intros g1 g2 Hg. now apply elem_of_nil in Hg.
  - apply NoDup_nil_2.
  - intros g Hg. now apply elem_of_nil in Hg.
  - intros g Hg. now apply elem_of_nil in Hg.
Qed.

Lemma collected_snoc (groups : list (list nat)) (used used' : gset nat)
    (seed : nat) (group : list nat) :
  collected groups used ->
  grown seed used group used' ->
  seed ∈ group ->
  (forall j, (j < length regions)%nat -> j ∉ used' ->
             overlapsGroup regions j group = false) ->
  collected (groups ++ [group]) used'.
Proof.
  intros Hcol (Hnd & Hused & Hm) Hseed Hclosed.
  assert (Hfresh : forall g, g ∈ groups -> forall m, m ∈ group -> m ∉ g).
  { intros g Hg m Hmg Hin. destruct (Hm m Hmg) as [Hn _]. apply Hn.
    apply (col_used _ _ Hcol). now exists g. }
  assert (Hnew : group ∉ groups).
  { intros Hin. exact (Hfresh group Hin seed Hseed Hseed). }
  assert (Hsep : forall g, g ∈ groups -> separated group g).
  { intros g Hg m x Hmg Hx. destruct (Hm m Hmg) as [Hn Hc].
    apply connected_lt in Hc as [_ Hlt].
    pose proof (col_closed _ _ Hcol g m Hg Hlt Hn) as Hov.
    rewrite overlapsGroup_false in Hov. now apply Hov. }
  split.
  - intros j. rewrite Hused, elem_of_union, elem_of_list_to_set. split.
    + intros [Hj | Hj].
      * exists group. split; [|exact Hj]. apply elem_of_app. right. now left.
      * apply (col_used _ _ Hcol) in Hj as (g & Hg & Hj).
        exists g. split; [|exact Hj]. apply elem_of_app. now left.
    + intros (g & Hg & Hj). apply elem_of_app in Hg as [Hg | Hg].
      * right. apply (col_used _ _ Hcol). now exists g.
      * apply list_elem_of_singleton in Hg as ->. now left.
  - intros g j Hg Hj Hn. apply elem_of_app in Hg as [Hg | Hg].
    + apply (col_closed _ _ Hcol); [exact Hg | exact Hj |].
      intros Hu. apply Hn. rewrite Hused. apply elem_of_union. now right.
    + apply list_elem_of_singleton in Hg as ->. now apply Hclosed.
  - intros g i j Hg Hi Hj. apply elem_of_app in Hg as [Hg | Hg].
    + now apply (col_conn _ _ Hcol g).
    + apply list_elem_of_singleton in Hg as ->.
      apply connected_trans with seed; [apply connected_sym|]; now apply Hm.
  - intros g1 g2 Hg1 Hg2 Hne.
    apply elem_of_app in Hg1 as [Hg1 | Hg1], Hg2 as [Hg2 | Hg2].
    + now apply (col_sep _ _ Hcol).
    + apply list_elem_of_singleton in Hg2 as ->. split.
      * intros x m Hx Hmg. rewrite overlapAt_sym. now apply (Hsep g1 Hg1).
      * intros i Hi Hig. exact (Hfresh g1 Hg1 i Hig Hi).
    + apply list_elem_of_singleton in Hg1 as ->. split.
      * now apply Hsep.
      * intros i Hi. now apply Hfresh.
    + apply list_elem_of_singleton in Hg1 as ->.
      apply list_elem_of_singleton in Hg2 as ->. contradiction.
  - apply NoDup_app. split; [apply (col_nodup _ _ Hcol)|].
    split; [|apply NoDup_singleton].
    intros g Hg Hin. apply list_elem_of_singleton in Hin as ->. contradiction.
  - intros g Hg. apply elem_of_app in Hg as [Hg | Hg].
    + now apply (col_members_nodup _ _ Hcol).
    + now apply list_elem_of_singleton in Hg as ->.
  - intros g Hg. apply elem_of_app in Hg as [Hg | Hg].
    + now apply (col_nonempty _ _ Hcol).
    + apply list_elem_of_singleton in Hg as ->.
      intros ->. now apply elem_of_nil in Hseed.
Qed.

(** The outer loop returns, and every index it walked over ends up used. *)
Lemma collect_spec (indices : list nat) :
  forall groups used,
    collected groups used ->
    (forall i, i ∈ indices -> (i < length regions)%nat) ->
    exists groups' used',
      collect regions indices groups used = Return groups' /\
      collected groups' used' /\
      (forall i, i ∈ used \/ i ∈ indices -> i ∈ used').
Proof.
  induction indices as [|i rest IH]; intros groups used Hcol Hlt; cbn [collect].
  - exists groups, used. split; [reflexivity|]. split; [exact Hcol|].
    intros i [Hi | Hi]; [exact Hi | now apply elem_of_nil in Hi].
  - assert (Hrest : forall k, k ∈ rest -> (k < length regions)%nat)
      by (intros k Hk; apply Hlt; now right).
    destruct (bool_decide (i ∈ used)) eqn:Eu.
    + apply bool_decide_eq_true in Eu.
      destruct (IH groups used Hcol Hrest) as (groups' & used' & Hrun & Hcol' & Hcover).
      exists groups', used'. split; [exact Hrun|]. split; [exact Hcol'|].
      intros k [Hk | Hk]; [apply Hcover; now left|].
      apply elem_of_cons in Hk as [-> | Hk]; apply Hcover; [now left | now right].
    + apply bool_decide_eq_false in Eu.
      assert (Hseed : grown i used [i] ({[i]} ∪ used)).
      { split; [apply NoDup_singleton|]. split.
        - apply set_eq. intros x.
          rewrite !elem_of_union, elem_of_list_to_set, list_elem_of_singleton,
            elem_of_singleton. tauto.
        - intros m Hm. apply list_elem_of_singleton in Hm as ->.
          split; [exact Eu|]. constructor. apply Hlt. now left. }
      destruct (grow_spec i used (S (length regions)) [i] ({[i]} ∪ used) Hseed)
        as (group & used1 & Hrun1 & Hgrown & Hsub & Hclosed); [simpl; lia|].
      rewrite Hrun1. cbn [mbind outcome_bind].
      assert (Hin : i ∈ group) by (apply Hsub; now left).
      pose proof (collected_snoc groups used used1 i group Hcol Hgrown Hin Hclosed)
        as Hcol1.
      destruct (IH (groups ++ [group]) used1 Hcol1 Hrest)
        as (groups' & used' & Hrun & Hcol' & Hcover).
      exists groups', used'. split; [exact Hrun|]. split; [exact Hcol'|].
      assert (Hused1 : forall k, k ∈ used \/ k = i -> k ∈ used1).
      { intros k Hk. destruct Hgrown as (_ & -> & _).
        apply elem_of_union. destruct Hk as [Hk | ->]; [now right | left].
        now apply elem_of_list_to_set. }
      intros k [Hk | Hk]; [apply Hcover; left; apply Hused1; now left|].
      apply elem_of_cons in Hk as [-> | Hk]; apply Hcover;
        [left; apply Hused1; now right | now right].
Qed.

(** The grouping step as a whole: it returns, and its groups partition
    the indices into the classes of [connected]. *)
Record partitioned (groups : list (list nat)) : Prop := {
  part_cover : forall i, (i < length regions)%nat -> exists g, g ∈ groups /\ i ∈ g;
  part_lt : forall g i, g ∈ groups -> i ∈ g -> (i < length regions)%nat;
  part_conn : forall g i j, g ∈ groups -> i ∈ g -> (j ∈ g <-> connected i j);
  part_sep : forall g1 g2, g1 ∈ groups -> g2 ∈ groups -> g1 <> g2 ->
                           separated g1 g2 /\ (forall i, i ∈ g1 -> i ∉ g2);
  part_nodup : NoDup groups;
  part_members_nodup : forall g, g ∈ groups -> NoDup g;
  part_nonempty : forall g, g ∈ groups -> g <> []
}.

Lemma groupIndices_spec :
  exists groups, groupIndices regions = Return groups /\ partitioned groups.
Proof.
  unfold groupIndices.
  destruct (collect_spec (seq 0%nat (length regions)) [] ∅ collected_empty)
    as (groups & used & Hrun & Hcol & Hcover).
  { intros i Hi. apply elem_of_seq in Hi. lia. }
  exists groups. split; [exact Hrun|].
  assert (Hcov : forall i, (i < length regions)%nat -> exists g, g ∈ groups /\ i ∈ g).
  { intros i Hi. apply (col_used _ _ Hcol). apply Hcover. right.
    apply elem_of_seq. lia. }
  split.
  - exact Hcov.
  - intros g i Hg Hi.
    pose proof (col_conn _ _ Hcol g i i Hg Hi Hi) as Hc.
    now apply connected_lt in Hc.
  - intros g i j Hg Hi. split; [now apply (col_conn _ _ Hcol)|].
    induction 1 as [i Hlt | i j k Hij IH Hjk]; [exact Hi|].
    specialize (IH Hi).
    destruct (overlapAt_lt _ _ Hjk) as [_ Hk].
    destruct (Hcov k Hk) as (g' & Hg' & Hkg').
    destruct (decide (g = g')) as [-> | Hne]; [exact Hkg'|].
    destruct (col_sep _ _ Hcol g g' Hg Hg' Hne) as [Hsep _].
    rewrite (Hsep j k IH Hkg') in Hjk. discriminate.
  - apply (col_sep _ _ Hcol).
  - apply (col_nodup _ _ Hcol).
  - apply (col_members_nodup _ _ Hcol).
  - apply (col_nonempty _ _ Hcol).
Qed.

End Groups.

(** ** The union box of a group *)

(** The regions a group holds, in the order the group lists them. *)
Definition members (regions : list Region) (group : list nat) : list Region :=
  omap (fun idx => regions !! idx) group.

(** No coordinate of the region and not its score is [NaN]. *)
Definition clean (r : Region) : Prop :=
  Js.is_nan (bx1 (box r)) = false /\ Js.is_nan (by1 (box r)) = false /\
  Js.is_nan (bx2 (box r)) = false /\ Js.is_nan (by2 (box r)) = false /\
  Js.is_nan (score r) = false.

(** [r] is the minimal rectangle around [rs], scored with their maximum:
    each side of its box is the extreme side of some member. *)
Definition tight (r : Region) (rs : list Region) : Prop :=
  JsFacts.lowest (bx1 (box r)) (map (fun m => bx1 (box m)) rs) /\
  JsFacts.lowest (by1 (box r)) (map (fun m => by1 (box m)) rs) /\
  JsFacts.highest (bx2 (box r)) (map (fun m => bx2 (box m)) rs) /\
  JsFacts.highest (by2 (box r)) (map (fun m => by2 (box m)) rs) /\
  JsFacts.highest (score r) (map score rs).

Lemma members_lookup (regions : list Region) (group : list nat) :
  (forall i, i ∈ group -> (i < length regions)%nat) ->
  Forall2 (fun idx r => regions !! idx = Some r) group (members regions group).
Proof.
  induction group as [|i group IH]; intros Hlt; [constructor|].
  unfold members. cbn [omap list_omap].
  destruct (lookup_lt_is_Some_2 regions i) as [r Hr]; [apply Hlt; now left|].
  rewrite Hr. constructor; [exact Hr|].
  apply IH. intros k Hk. apply Hlt. now right.
Qed.

Lemma foldl_extent (regions : list Region) (group : list nat) :
  forall e,
    let e' := foldl (extent_step regions) e group in
    let rs := members regions group in
    minX e' = foldl Js.min (minX e) (map (fun m => bx1 (box m)) rs) /\
    minY e' = foldl Js.min (minY e) (map (fun m => by1 (box m)) rs) /\
    maxX e' = foldl Js.max (maxX e) (map (fun m => bx2 (box m)) rs) /\
    maxY e' = foldl Js.max (maxY e) (map (fun m => by2 (box m)) rs) /\
    maxScore e' = foldl Js.max (maxScore e) (map score rs).
Proof.
  induction group as [|i group IH]; intros e; [now repeat split|].
  unfold members. cbn [foldl omap list_omap].
  unfold extent_step at 2 4 6 8 10.
  destruct (regions !! i) as [r|]; [|apply IH].
  cbn [map foldl]. apply IH.
Qed.

Lemma mergeGroup_tight (regions : list Region) (group : list nat) :
  members regions group <> [] ->
  Forall clean (members regions group) ->
  tight (mergeGroup regions group) (members regions group).
Proof.
  intros Hne Hclean. unfold tight, mergeGroup. cbn [box score bx1 by1 bx2 by2].
  destruct (foldl_extent regions group extent_init) as (-> & -> & -> & -> & ->).
  cbn [extent_init minX minY maxX maxY maxScore].
  assert (Hmap : forall f : Region -> Js.number,
             map f (members regions group) <> []).
  { intros f H. apply Hne. now apply map_eq_nil in H. }
  assert (Hnan : forall f : Region -> Js.number,
             (forall r, clean r -> Js.is_nan (f r) = false) ->
             Forall (fun x => Js.is_nan x = false) (map f (members regions group))).
  { intros f Hf. apply Forall_map. eapply Forall_impl; [exact Hclean|].
    intros r Hr. now apply Hf. }
  repeat split;
    first [ apply JsFacts.foldl_min_lowest | apply JsFacts.foldl_max_highest ];
    try apply Hmap; apply Hnan; intros r Hr; apply Hr.
Qed.

(** The merge step as a whole. *)
Lemma mergeOverlappingBoxes_groups (regions : list Region) :
  exists groups,
    groupIndices regions = Return groups /\
    mergeOverlappingBoxes regions = Return (map (mergeGroup regions) groups) /\
    partitioned regions groups.
Proof.
  destruct (groupIndices_spec regions) as (groups & Hrun & Hpart).
  exists groups. split; [exact Hrun|]. split; [|exact Hpart].
  unfold mergeOverlappingBoxes. destruct regions as [|r regions].
  - cbn in Hrun. injection Hrun as <-. reflexivity.
  - cbn [length Nat.eqb]. rewrite Hrun. reflexivity.
Qed.

End MergeFacts.
(* ===================================================================== *)
(** * The detection reducer: claims *)
(* ===================================================================== *)

Module DetectionFacts.

Import MeikiOCR.
Import MergeFacts.

Definition mkBox (x1 y1 x2 y2 : Z) : Box :=
  {| bx1 := Js.of_Z x1; by1 := Js.of_Z y1; bx2 := Js.of_Z x2; by2 := Js.of_Z y2 |}.

Definition scored (x1 y1 x2 y2 : Z) (s : Js.number) : Region :=
  {| box := mkBox x1 y1 x2 y2; score := s |}.

(** An L-shaped pair and a small box inside the corner they leave free. *)
Definition corner_boxes : list Js.number :=
  map Js.of_Z [0; 0; 10; 2;  0; 0; 2; 10;  5; 5; 7; 7].

Definition corner_results : Results :=
  Some [("boxes"%string, {| tdata := Some corner_boxes |});
        ("scores"%string, {| tdata := Some [dec 9 10; dec 8 10; dec 7 10] |})].

(** C2, as stated, fails.  Boxes 0 and 1 overlap and merge into
    [0,0,10,10]; box 2 = [5,5,7,7] overlaps neither and stays alone, yet
    it lies inside the merged rectangle: the two returned regions
    overlap under [boxesOverlap]. *)
Lemma merged_regions_can_overlap :
  let regions := [scored 0 0 10 2 (dec 9 10); scored 0 0 2 10 (dec 8 10);
                  scored 5 5 7 7 (dec 7 10)] in
  let r1 := scored 0 0 10 10 (dec 9 10) in
  let r2 := scored 5 5 7 7 (dec 7 10) in
  mergeOverlappingBoxes regions = Return [r1; r2] /\
  detectTextRegions true (Js.of_Z 1) (Js.of_Z 640) (Js.of_Z 640) corner_results
    = Return [r1; r2] /\
  boxesOverlap (box r1) (box r2) = true.
Proof. vm_compute. repeat split; reflexivity. Qed.

(** C2, amended.  The merge step returns one region per group of indices,
    and boxes that ended up in different groups never overlap under
    [boxesOverlap]: it is the input boxes behind two returned regions that
    are pairwise disjoint, not the enclosing rectangles themselves. *)
Theorem merged_groups_are_separated (regions : list Region) :
  exists groups,
    groupIndices regions = Return groups /\
    mergeOverlappingBoxes regions = Return (map (mergeGroup regions) groups) /\
    forall k1 k2 g1 g2 i j ri rj,
      k1 <> k2 -> groups !! k1 = Some g1 -> groups !! k2 = Some g2 ->
      i ∈ g1 -> j ∈ g2 ->
      regions !! i = Some ri -> regions !! j = Some rj ->
      boxesOverlap (box ri) (box rj) = false.
Proof.
  destruct (mergeOverlappingBoxes_groups regions) as (groups & Hrun & Hmerge & Hpart).
  exists groups. split; [exact Hrun|]. split; [exact Hmerge|].
  intros k1 k2 g1 g2 i j ri rj Hk H1 H2 Hi Hj Hri Hrj.
  assert (Hne : g1 <> g2).
  { intros ->. apply Hk. eapply NoDup_lookup; [apply (part_nodup _ _ Hpart) | |]; eassumption. }
  destruct (part_sep _ _ Hpart g1 g2) as [Hsep _];
    [eapply list_elem_of_lookup_2; eassumption
    |eapply list_elem_of_lookup_2; eassumption | exact Hne |].
  specialize (Hsep i j Hi Hj). unfold overlapAt in Hsep.
  now rewrite Hri, Hrj in Hsep.
Qed.

Lemma merged_groups_are_separated_witness :
  boxesOverlap (mkBox 0 0 10 2) (mkBox 5 5 7 7) = false.
Proof.
  destruct (merged_groups_are_separated
              [scored 0 0 10 2 (dec 9 10); scored 0 0 2 10 (dec 8 10);
               scored 5 5 7 7 (dec 7 10)]) as (groups & Hrun & _ & Hsep).
  vm_compute in Hrun. injection Hrun as <-.
  apply (Hsep 0%nat 1%nat [0; 1]%nat [2]%nat 0%nat 2%nat
              (scored 0 0 10 2 (dec 9 10)) (scored 5 5 7 7 (dec 7 10)));
    try reflexivity; try discriminate.
  - now left.
  - now left.
Defined.

(** The three boxes of the transitivity test. *)
Definition chain (sA sB sC : Js.number) : list Region :=
  [scored 0 0 10 10 sA; scored 8 0 20 10 sB; scored 18 0 30 10 sC].

(** C6.  The boxes A = [0,0,10,10], B = [8,0,20,10], C = [18,0,30,10]
    (A overlaps B, B overlaps C, A and C are disjoint) merge into exactly
    one region, with box [0,0,30,10].  In general the merge step returns
    one region per group; the groups are the connected components of the
    pairwise-overlap relation (every box is in exactly one group, and a
    group holds exactly the boxes linked to any of its members by a chain
    of overlaps); and the region of a group without [NaN] is the minimal
    rectangle around its members, scored with their maximum. *)
Theorem overlap_components_collapse :
  (forall sA sB sC,
     boxesOverlap (mkBox 0 0 10 10) (mkBox 8 0 20 10) = true /\
     boxesOverlap (mkBox 8 0 20 10) (mkBox 18 0 30 10) = true /\
     boxesOverlap (mkBox 0 0 10 10) (mkBox 18 0 30 10) = false /\
     mergeOverlappingBoxes (chain sA sB sC) =
       Return [ {| box := mkBox 0 0 30 10;
                   score := Js.max (Js.max (Js.max Js.NegInfinity sA) sB) sC |} ]) /\
  (forall regions,
     exists groups,
       groupIndices regions = Return groups /\
       mergeOverlappingBoxes regions = Return (map (mergeGroup regions) groups) /\
       (forall i, (i < length regions)%nat -> exists g, g ∈ groups /\ i ∈ g) /\
       (forall g1 g2 i, g1 ∈ groups -> g2 ∈ groups -> i ∈ g1 -> i ∈ g2 -> g1 = g2) /\
       NoDup groups /\
       (forall g i j, g ∈ groups -> i ∈ g -> (j ∈ g <-> connected regions i j)) /\
       (forall g, g ∈ groups ->
          members regions g <> [] /\
          Forall2 (fun idx r => regions !! idx = Some r) g (members regions g) /\
          (Forall clean (members regions g) ->
           tight (mergeGroup regions g) (members regions g)))).
Proof.
  split.
  - intros sA sB sC. repeat split; reflexivity.
  - intros regions.
    destruct (mergeOverlappingBoxes_groups regions) as (groups & Hrun & Hmerge & Hpart).
    exists groups. split; [exact Hrun|]. split; [exact Hmerge|].
    split; [apply (part_cover _ _ Hpart)|]. split; [|split; [apply (part_nodup _ _ Hpart)|split]].
    + intros g1 g2 i Hg1 Hg2 Hi1 Hi2.
      destruct (decide (g1 = g2)) as [| Hne]; [assumption|].
      destruct (part_sep _ _ Hpart g1 g2 Hg1 Hg2 Hne) as [_ Hdis].
      now destruct (Hdis i Hi1).
    + apply (part_conn _ _ Hpart).
    + intros g Hg.
      assert (Hlt : forall i, i ∈ g -> (i < length regions)%nat)
        by (intros i; apply (part_lt _ _ Hpart g i Hg)).
      pose proof (members_lookup regions g Hlt) as Hmem.
      assert (Hne : members regions g <> []).
      { intros Hnil. rewrite Hnil in Hmem. apply Forall2_nil_inv_r in Hmem.
        now apply (part_nonempty _ _ Hpart g Hg). }
      split; [exact Hne|]. split; [exact Hmem|].
      now apply mergeGroup_tight.
Qed.

Lemma overlap_components_collapse_witness :
  let regions := chain (dec 5 10) (dec 9 10) (dec 4 10) in
  tight (mergeGroup regions [0; 1; 2]%nat) (members regions [0; 1; 2]%nat).
Proof.
  intros regions.
  destruct overlap_components_collapse as [_ Hgeneral].
  destruct (Hgeneral regions) as (groups & Hrun & _ & _ & _ & _ & _ & Htight).
  vm_compute in Hrun. injection Hrun as <-.
  destruct (Htight [0; 1; 2]%nat) as (_ & _ & H); [now left|].
  apply H. repeat constructor.
Defined.

(** ** Absent or malformed engine output *)

Definition below_confidence (scores : list Js.number) : Prop :=
  Forall (fun s => (s <? DETECT_CONFIDENCE)%js = true) scores.

Lemma detectedRegions_below (scale origWidth origHeight : Js.number)
    (boxes : option (list Js.number)) (scores : list Js.number) (indices : list nat) :
  (forall i, i ∈ indices -> (element scores i <? DETECT_CONFIDENCE)%js = true) ->
  detectedRegions scale origWidth origHeight boxes scores indices = Return [].
Proof.
  induction indices as [|i rest IH]; intros Hlow; cbn [detectedRegions]; [reflexivity|].
  rewrite (Hlow i) by now left.
  apply IH. intros k Hk. apply Hlow. now right.
Qed.

Lemma below_confidence_element (scores : list Js.number) (i : nat) :
  below_confidence scores -> i ∈ seq 0%nat (length scores) ->
  (element scores i <? DETECT_CONFIDENCE)%js = true.
Proof.
  intros Hlow Hi. apply elem_of_seq in Hi.
  destruct (lookup_lt_is_Some_2 scores i) as [s Hs]; [lia|].
  unfold element. rewrite Hs.
  unfold below_confidence in Hlow. rewrite Forall_forall in Hlow.
  apply Hlow. eapply list_elem_of_lookup_2. exact Hs.
Qed.

(** Once the two arrays are extracted: no score at or above the threshold
    means no region, whether or not there is a box array. *)
Lemma no_confident_score (scale origWidth origHeight : Js.number)
    (boxes : option (list Js.number)) (scores : list Js.number) :
  below_confidence scores ->
  (regions ← detectedRegions scale origWidth origHeight boxes scores
               (seq 0%nat (length scores));
   mergedRegions ← mergeOverlappingBoxes regions;
   Return (array_sort (fun a b => (by1 (box a) - by1 (box b))%js) mergedRegions))
  = Return [].
Proof.
  intros Hlow. rewrite detectedRegions_below; [reflexivity|].
  intros i Hi. now apply below_confidence_element.
Qed.




End DetectionFacts.
(* ===================================================================== *)
(** * The recognition reducer: deduplication *)
(* ===================================================================== *)

Module RecognitionFacts.

Import MeikiOCR.
Import FloatFacts.

(** ** Sorting *)

Section SortFacts.
Context {A : Type} (compare : A -> A -> Js.number).

Lemma Forall_sort_insert (P : A -> Prop) (x : A) (l : list A) :
  P x -> Forall P l -> Forall P (sort_insert compare x l).
Proof.
  intros Hx Hl. induction Hl as [|y l Hy Hl IH]; cbn [sort_insert].
  - now constructor.
  - destruct (compare x y >? Js.of_Z 0)%js; repeat constructor; assumption.
Qed.

Lemma Forall_array_sort (P : A -> Prop) (l : list A) :
  Forall P l -> Forall P (array_sort compare l).
Proof.
  induction 1 as [|x l Hx Hl IH]; [constructor|].
  unfold array_sort. cbn [foldr]. now apply Forall_sort_insert.
Qed.

(** A relation that holds between any two elements keeps holding after
    the sort, when it is symmetric. *)
Lemma StronglySorted_sort_insert_sym (R : A -> A -> Prop) (x : A) (l : list A) :
  (forall a b, R a b -> R b a) ->
  Forall (R x) l -> StronglySorted R l ->
  StronglySorted R (sort_insert compare x l).
Proof.
  intros Hsym Hx Hl. induction Hl as [|y l Hl IH Hy]; cbn [sort_insert].
  - repeat constructor.
  - apply Forall_cons in Hx as [Hxy Hx].
    destruct (compare x y >? Js.of_Z 0)%js.
    + constructor; [now apply IH|].
      apply Forall_sort_insert; [now apply Hsym | exact Hy].
    + constructor; [now constructor|]. now constructor.
Qed.

Lemma StronglySorted_array_sort_sym (R : A -> A -> Prop) (l : list A) :
  (forall a b, R a b -> R b a) ->
  StronglySorted R l -> StronglySorted R (array_sort compare l).
Proof.
  intros Hsym. induction 1 as [|x l Hl IH Hx]; [constructor|].
  unfold array_sort. cbn [foldr].
  apply StronglySorted_sort_insert_sym; [exact Hsym | | exact IH].
  now apply Forall_array_sort.
Qed.

(** The sort orders by [le] when [compare] decides [le] on the values it
    meets ([ok]) and [le] is transitive. *)
Lemma StronglySorted_array_sort (ok : A -> Prop) (le : A -> A -> Prop) (l : list A) :
  (forall a b c, le a b -> le b c -> le a c) ->
  (forall a b, ok a -> ok b -> (compare a b >? Js.of_Z 0)%js = true -> le b a) ->
  (forall a b, ok a -> ok b -> (compare a b >? Js.of_Z 0)%js = false -> le a b) ->
  Forall ok l ->
  StronglySorted le (array_sort compare l).
Proof.
  intros Htrans Hgt Hle. induction 1 as [|x l Hx Hl IH]; [constructor|].
  unfold array_sort. cbn [foldr]. fold (array_sort compare l).
  pose proof (Forall_array_sort ok l Hl) as Hok.
  induction IH as [|y s Hs IHs Hy]; cbn [sort_insert]; [repeat constructor|].
  apply Forall_cons in Hok as [Hoky Hok].
  destruct (compare x y >? Js.of_Z 0)%js eqn:E.
  - constructor; [now apply IHs|].
    apply Forall_sort_insert; [now apply Hgt | exact Hy].
  - assert (Hxy : le x y) by now apply Hle.
    constructor; [now constructor|]. constructor; [exact Hxy|].
    eapply Forall_impl; [exact Hy|]. intros z Hz. now apply Htrans with y.
Qed.
End SortFacts.

Lemma StronglySorted_lookup_lt {A : Type} (R : A -> A -> Prop) (l : list A) :
  StronglySorted R l ->
  forall i j a b, (i < j)%nat -> l !! i = Some a -> l !! j = Some b -> R a b.
Proof.
  induction 1 as [|x l Hl IH Hx]; intros i j a b Hij Hi Hj.
  - now rewrite lookup_nil in Hi.
  - destruct j as [|j]; [lia|]. cbn in Hj.
    destruct i as [|i]; cbn in Hi.
    + injection Hi as <-. rewrite Forall_forall in Hx. apply Hx.
      eapply list_elem_of_lookup_2. exact Hj.
    + apply (IH i j); [lia | assumption | assumption].
Qed.

Lemma StronglySorted_snoc {A : Type} (R : A -> A -> Prop) (l : list A) (x : A) :
  StronglySorted R l -> Forall (fun a => R a x) l -> StronglySorted R (l ++ [x]).
Proof.
  induction 1 as [|y l Hl IH Hy]; intros Hx; cbn [app].
  - repeat constructor.
  - apply Forall_cons in Hx as [Hyx Hx].
    constructor; [now apply IH|].
    apply Forall_app. split; [exact Hy | now constructor].
Qed.

(** ** The overlap test *)

Lemma X_OVERLAP_value :
  X_OVERLAP = Js.Num (5404319552844595 # 18014398509481984).
Proof. vm_compute. reflexivity. Qed.

Lemma overlapsTooMuch_sym (a b : Candidate) :
  overlapsTooMuch a b = overlapsTooMuch b a.
Proof.
  unfold overlapsTooMuch, Js.gtb, Js.fmul, Js.fsub.
  apply JsFacts.ltb_same.
  - rewrite (FloatFacts.rounded_same _ _
               (JsFacts.mul_same _ _ X_OVERLAP (JsFacts.min_comm _ _))).
    apply JsFacts.same_refl.
  - rewrite (FloatFacts.rounded_same _ _
               (JsFacts.sub_same _ _ _ _ (JsFacts.min_comm (xEnd a) (xEnd b))
                                         (JsFacts.max_comm (xStart a) (xStart b)))).
    apply JsFacts.same_refl.
Qed.

(** Two candidates the test lets through. *)
Definition apart (a b : Candidate) : Prop := overlapsTooMuch a b = false.

Lemma apart_sym (a b : Candidate) : apart a b -> apart b a.
Proof. unfold apart. now rewrite overlapsTooMuch_sym. Qed.

Lemma dedup_step_apart (accepted : list Candidate) (candidate : Candidate) :
  StronglySorted apart accepted ->
  StronglySorted apart (dedup_step accepted candidate).
Proof.
  intros Hacc. unfold dedup_step.
  destruct (existsb (overlapsTooMuch candidate) accepted) eqn:E; [exact Hacc|].
  apply StronglySorted_snoc; [exact Hacc|].
  rewrite Forall_forall. intros a Ha. apply apart_sym. unfold apart.
  destruct (overlapsTooMuch candidate a) eqn:Ea; [|reflexivity].
  assert (existsb (overlapsTooMuch candidate) accepted = true).
  { apply existsb_exists. exists a. split; [now apply list_elem_of_In | exact Ea]. }
  congruence.
Qed.

Lemma deduplicate_apart (candidates : list Candidate) :
  StronglySorted apart (deduplicate candidates).
Proof.
  unfold deduplicate.
  assert (H : forall accepted, StronglySorted apart accepted ->
                StronglySorted apart (foldl dedup_step accepted candidates)).
  { induction candidates as [|c cs IH]; intros accepted Hacc; cbn [foldl]; [exact Hacc|].
    apply IH. now apply dedup_step_apart. }
  apply H. constructor.
Qed.

Lemma Forall_deduplicate (P : Candidate -> Prop) (candidates : list Candidate) :
  Forall P candidates -> Forall P (deduplicate candidates).
Proof.
  unfold deduplicate.
  assert (H : forall accepted, Forall P accepted -> Forall P candidates ->
                Forall P (foldl dedup_step accepted candidates)).
  { induction candidates as [|c cs IH]; intros accepted Hacc Hcs; cbn [foldl]; [exact Hacc|].
    apply Forall_cons in Hcs as [Hc Hcs]. apply IH; [|exact Hcs].
    unfold dedup_step. destruct (existsb _ _); [exact Hacc|].
    apply Forall_app. split; [exact Hacc | now constructor]. }
  intros Hc. apply H; [constructor | exact Hc].
Qed.

(** ** Intervals of finite numbers *)

Definition qmin (x y : Q) : Q := if Qle_bool x y then x else y.
Definition qmax (x y : Q) : Q := if Qle_bool x y then y else x.

Lemma min_Num (x y : Q) : Js.min (Js.Num x) (Js.Num y) = Js.Num (qmin x y).
Proof. unfold Js.min, qmin. cbn [Js.is_nan orb Js.leb]. now destruct (Qle_bool x y). Qed.

Lemma max_Num (x y : Q) : Js.max (Js.Num x) (Js.Num y) = Js.Num (qmax x y).
Proof. unfold Js.max, qmax. cbn [Js.is_nan orb Js.leb]. now destruct (Qle_bool x y). Qed.

Lemma qmin_spec (x y : Q) :
  (qmin x y <= x)%Q /\ (qmin x y <= y)%Q /\ (qmin x y == x \/ qmin x y == y)%Q.
Proof.
  unfold qmin. destruct (Qle_bool x y) eqn:E; JsFacts.qprop.
  - split; [lra|]. split; [exact E|]. left. reflexivity.
  - split; [lra|]. split; [lra|]. right. reflexivity.
Qed.

Lemma qmax_spec (x y : Q) :
  (x <= qmax x y)%Q /\ (y <= qmax x y)%Q /\ (qmax x y == x \/ qmax x y == y)%Q.
Proof.
  unfold qmax. destruct (Qle_bool x y) eqn:E; JsFacts.qprop.
  - split; [exact E|]. split; [lra|]. right. reflexivity.
  - split; [lra|]. split; [lra|]. left. reflexivity.
Qed.

(** Coordinates far from the largest double. *)
Definition moderate (q : Q) : Prop := (Qabs q <= Js.pow2 1021)%Q.

(** For proper intervals of moderate size the test bounds the overlap by
    three tenths of the narrower width, up to the rounding of the four
    operations it performs. *)
Lemma apart_bound (a b : Candidate) (sa ea sb eb : Q) :
  xStart a = Js.Num sa -> xEnd a = Js.Num ea ->
  xStart b = Js.Num sb -> xEnd b = Js.Num eb ->
  moderate sa -> moderate ea -> moderate sb -> moderate eb ->
  (sa <= ea)%Q -> (sb <= eb)%Q ->
  apart a b ->
  ((1 - eps) * (qmin ea eb - qmax sa sb)
   <= (3 # 10) * ((1 + eps) * (1 + eps)) * qmin (ea - sa) (eb - sb) + 3 * eta)%Q.
Proof.
  intros Hsa Hea Hsb Heb Msa Mea Msb Meb Ha Hb Hapart.
  pose proof (pow2_pos (-1075)) as Heta. fold eta in Heta.
  assert (Heps : eps = (1 # 9007199254740992)%Q) by reflexivity.
  assert (E1021 : (Js.pow2 1023 == 4 * Js.pow2 1021)%Q) by reflexivity.
  apply Qabs_Qle_condition in Msa, Mea, Msb, Meb.
  set (M := Js.pow2 1021) in *.
  assert (HM : (0 < M)%Q) by apply pow2_pos.
  destruct (qmin_spec ea eb) as (mE1 & mE2 & mE3).
  destruct (qmax_spec sa sb) as (MS1 & MS2 & MS3).
  destruct (qmin_spec (ea - sa) (eb - sb)) as (W1 & W2 & W3).
  set (O := (qmin ea eb - qmax sa sb)%Q) in *.
  set (W := qmin (ea - sa) (eb - sb)) in *.
  assert (HW0 : (0 <= W)%Q) by (destruct W3 as [E | E]; rewrite E; lra).
  destruct (Qlt_le_dec 0 O) as [HO | HO].
  2:{ rewrite Heps. lra. }
  unfold apart, overlapsTooMuch in Hapart.
  rewrite Hsa, Hea, Hsb, Heb, min_Num, max_Num in Hapart.
  unfold Js.fsub in Hapart. cbn [Js.sub Js.rounded] in Hapart.
  fold O in Hapart.
  destruct (double_nonneg O) as (rO & EO & _ & LO & _); [lra | | ].
  { rewrite E1021. destruct mE3 as [E | E], MS3 as [E' | E'];
      unfold O; rewrite E, E'; lra. }
  destruct (double_nonneg (ea - sa)) as (ra & Era & ra0 & _ & Ura); [lra | rewrite E1021; lra |].
  destruct (double_nonneg (eb - sb)) as (rb & Erb & rb0 & _ & Urb); [lra | rewrite E1021; lra |].
  rewrite EO, Era, Erb, min_Num, X_OVERLAP_value in Hapart.
  unfold Js.fmul in Hapart. cbn [Js.mul Js.rounded] in Hapart.
  set (c := (5404319552844595 # 18014398509481984)%Q) in *.
  destruct (qmin_spec ra rb) as (w1 & w2 & w3).
  set (w := qmin ra rb) in *.
  assert (Hw0 : (0 <= w)%Q) by (destruct w3 as [E | E]; rewrite E; assumption).
  assert (HwB : (w <= W * (1 + eps) + eta)%Q).
  { destruct W3 as [E | E]; rewrite E; lra. }
  assert (HWM : (W <= 2 * M)%Q) by lra.
  assert (Hetasmall : (eta <= M)%Q).
  { unfold eta, M. apply pow2_le. lia. }
  destruct (double_nonneg (w * c)) as (rp & Erp & _ & _ & Urp).
  { apply Qmult_le_0_compat; [exact Hw0 | discriminate]. }
  { rewrite E1021. unfold c. rewrite Heps in HwB. lra. }
  rewrite Erp in Hapart. unfold Js.gtb in Hapart. cbn [Js.ltb] in Hapart.
  JsFacts.qprop.
  rewrite Heps in *. unfold c in *. lra.
Qed.

(** The order of the final sort. *)
Definition starts_before (a b : Candidate) : Prop :=
  (xStart a <=? xStart b)%js = true.

Definition has_start (c : Candidate) : Prop := Js.is_nan (xStart c) = false.

Lemma compare_start_gt (a b : Candidate) :
  has_start a -> has_start b ->
  (xStart a - xStart b >? Js.of_Z 0)%js = true -> starts_before b a.
Proof.
  unfold has_start, starts_before, Js.gtb, Js.of_Z.
  destruct (xStart a), (xStart b); simpl; try congruence.
  intros _ _ H. JsFacts.qprop. unfold inject_Z in H. lra.
Qed.

Lemma compare_start_le (a b : Candidate) :
  has_start a -> has_start b ->
  (xStart a - xStart b >? Js.of_Z 0)%js = false -> starts_before a b.
Proof.
  unfold has_start, starts_before, Js.gtb, Js.of_Z.
  destruct (xStart a), (xStart b); simpl; try congruence.
  intros _ _ H. JsFacts.qprop. unfold inject_Z in H. lra.
Qed.

(** Of two candidates whose intervals overlap beyond the threshold, the
    more confident one is kept. *)
Example dedup_keeps_most_confident :
  (decodeMeikiOCROutput [12356; 12354]
     (map Js.of_Z [0; 0; 10; 32;  2; 0; 12; 32]) [dec 4 10; dec 9 10]
     (Js.of_Z 100) (Js.of_Z 200) (Js.of_Z 64)).1 = [12354].
Proof. vm_compute. reflexivity. Qed.

(** ** Raw output without missing or infinite entries *)

(** The box array covers [n] entries, every number in it is finite, and the
    two widths are finite and not zero. *)
Definition finite_raw (boxes : list Js.number) (effectiveWidth origWidth : Js.number)
    (n : nat) : Prop :=
  (4 * n <= length boxes)%nat /\
  Forall (fun v => Js.is_finite v = true) boxes /\
  Js.is_finite effectiveWidth = true /\ Js.truthy effectiveWidth = true /\
  Js.is_finite origWidth = true /\ Js.truthy origWidth = true.

Lemma element_finite (a : list Js.number) (i : nat) :
  Forall (fun v => Js.is_finite v = true) a -> (i < length a)%nat ->
  Js.is_finite (element a i) = true.
Proof.
  intros Ha Hi. destruct (lookup_lt_is_Some_2 a i Hi) as [v Hv].
  unfold element. rewrite Hv. rewrite Forall_forall in Ha. apply Ha.
  eapply list_elem_of_lookup_2. exact Hv.
Qed.

(** Rescaling a finite coordinate may overflow to an infinity, but it does
    not give [NaN]. *)
Lemma rescaled_finite (v effectiveWidth origWidth : Js.number) :
  Js.is_finite v = true -> Js.is_finite effectiveWidth = true ->
  Js.truthy effectiveWidth = true ->
  Js.is_finite origWidth = true -> Js.truthy origWidth = true ->
  Js.is_nan (Js.fmul (Js.fdiv (Js.min v effectiveWidth) effectiveWidth) origWidth) = false.
Proof.
  destruct v as [| |x|], effectiveWidth as [| |e|], origWidth as [| |o|];
    try discriminate.
  intros _ _ He _ Ho. cbn [Js.truthy] in He, Ho.
  apply negb_true_iff in He. apply negb_true_iff in Ho.
  unfold Js.fmul, Js.fdiv. rewrite FloatFacts.rounded_is_nan.
  assert (Hq : exists y, Js.div (Js.min (Js.Num x) (Js.Num e)) (Js.Num e) = Js.Num y).
  { unfold Js.min. cbn [Js.is_nan orb Js.leb].
    destruct (Qle_bool x e); cbn [Js.div]; rewrite He; eexists; reflexivity. }
  destruct Hq as [y ->]. cbn [Js.rounded].
  pose proof (FloatFacts.round_to_not_nan 53 (-1074) 1024 y) as Hn.
  fold (Js.double y) in Hn.
  destruct (Js.double y) as [| |z|]; [discriminate | | reflexivity | ].
  - unfold Js.mul. cbn [Js.sgn]. rewrite Ho. now destruct (Qle_bool o 0).
  - unfold Js.mul. cbn [Js.sgn]. rewrite Ho. now destruct (Qle_bool o 0).
Qed.

Lemma rawCandidates_have_start (labels : list Z) (boxes scores : list Js.number)
    (effectiveWidth origWidth origHeight : Js.number) :
  finite_raw boxes effectiveWidth origWidth (length labels) ->
  Forall has_start
    (rawCandidates labels boxes scores effectiveWidth origWidth origHeight).
Proof.
  intros (Hlen & Hfin & He & Hnz & Ho & Honz). unfold rawCandidates.
  apply Forall_map, Forall_forall. intros i Hi.
  apply list_elem_of_filter in Hi as [_ Hi]. apply elem_of_seq in Hi.
  unfold has_start, candidateAt. cbn [xStart].
  apply rescaled_finite; try assumption.
  apply element_finite; [exact Hfin | lia].
Qed.

(** Two characters whose intervals [-5, 2.1] and [0, 7] overlap by 2.1,
    against a narrower width of 7. *)
Definition near_threshold : list Z * list Js.number * list Js.number :=
  ([65; 66],
   [Js.of_Z (-5); Js.of_Z 0; lit 21 10; Js.of_Z 1;
    Js.of_Z 0; Js.of_Z 0; Js.of_Z 7; Js.of_Z 1],
   [dec 9 10; dec 8 10]).

(** C10, as stated, fails by a rounding error: the product [7 * 0.3] is
    rounded up to the double [2.1], so the test [2.1 > 7 * 0.3] is false
    and both characters are accepted, although the overlap, the double
    [2.1], is more than three tenths of the narrower width 7. *)
Lemma accepted_overlap_exceeds_three_tenths :
  let '(labels, boxes, scores) := near_threshold in
  let chars :=
    (decodeMeikiOCROutput labels boxes scores (Js.of_Z 16) (Js.of_Z 16) (Js.of_Z 32)).2 in
  exists a b sa ea sb eb,
    chars = [a; b] /\ char a = 65 /\ char b = 66 /\
    xStart a = Js.Num sa /\ xEnd a = Js.Num ea /\
    xStart b = Js.Num sb /\ xEnd b = Js.Num eb /\
    (sa == -5)%Q /\ (ea == 4728779608739021 # 2251799813685248)%Q /\
    (sb == 0)%Q /\ (eb == 7)%Q /\
    overlapsTooMuch a b = false /\
    ((3 # 10) * qmin (ea - sa) (eb - sb) < qmin ea eb - qmax sa sb)%Q.
Proof.
  cbv beta iota delta [near_threshold].
  do 6 eexists.
  split; [vm_compute; reflexivity|].
  repeat split; vm_compute; reflexivity.
Qed.

(** C10, amended.  Any two distinct candidates the deduplication accepts
    pass its overlap test, in either order: the test
    [overlap > minWidth * X_OVERLAP], evaluated in double arithmetic with
    [X_OVERLAP] the double nearest to 0.3, is false of them.  For proper
    intervals of moderate size this bounds the overlap length by 0.3
    times the width of the narrower interval up to rounding:
    [(1 - eps) * overlap <= 0.3 * (1 + eps)^2 * width + 3 * eta], with
    [eps] = 2^-53 and [eta] = 2^-1075.  The accepted candidates come back
    sorted by interval start, ascending, provided no candidate has [NaN]
    for its start, which holds for raw output without missing or infinite
    entries and widths that are not zero. *)
Theorem accepted_candidates_apart_and_sorted (labels : list Z)
    (boxes scores : list Js.number)
    (effectiveWidth origWidth origHeight : Js.number) :
  let raw := rawCandidates labels boxes scores effectiveWidth origWidth origHeight in
  let chars :=
    (decodeMeikiOCROutput labels boxes scores effectiveWidth origWidth origHeight).2 in
  X_OVERLAP = lit 3 10 /\
  (forall i j a b,
     i <> j -> chars !! i = Some a -> chars !! j = Some b ->
     overlapsTooMuch a b = false /\ overlapsTooMuch b a = false /\
     forall sa ea sb eb,
       xStart a = Js.Num sa -> xEnd a = Js.Num ea ->
       xStart b = Js.Num sb -> xEnd b = Js.Num eb ->
       moderate sa -> moderate ea -> moderate sb -> moderate eb ->
       (sa <= ea)%Q -> (sb <= eb)%Q ->
       ((1 - eps) * (qmin ea eb - qmax sa sb)
        <= (3 # 10) * ((1 + eps) * (1 + eps)) * qmin (ea - sa) (eb - sb)
           + 3 * eta)%Q) /\
  (Forall has_start raw ->
   forall i j a b,
     (i < j)%nat -> chars !! i = Some a -> chars !! j = Some b ->
     (xStart a <=? xStart b)%js = true) /\
  (finite_raw boxes effectiveWidth origWidth (length labels) ->
   Forall has_start raw).
Proof.
  intros raw chars. split; [reflexivity|]. split; [|split].
  - assert (Hsorted : StronglySorted apart chars).
    { unfold chars, decodeMeikiOCROutput. cbn [snd].
      apply StronglySorted_array_sort_sym; [exact apart_sym|].
      apply deduplicate_apart. }
    assert (Hpair : forall i j a b, i <> j -> chars !! i = Some a ->
                                    chars !! j = Some b -> apart a b).
    { intros i j a b Hij Hi Hj.
      destruct (Nat.lt_total i j) as [Hlt | [Heq | Hgt]]; [| contradiction |].
      - exact (StronglySorted_lookup_lt apart chars Hsorted i j a b Hlt Hi Hj).
      - apply apart_sym.
        exact (StronglySorted_lookup_lt apart chars Hsorted j i b a Hgt Hj Hi). }
    intros i j a b Hij Hi Hj. pose proof (Hpair i j a b Hij Hi Hj) as Hab.
    split; [exact Hab|]. split; [exact (apart_sym a b Hab)|].
    intros sa ea sb eb Hsa Hea Hsb Heb Msa Mea Msb Meb Ha Hb.
    now apply apart_bound with a b.
  - intros Hraw.
    apply (StronglySorted_lookup_lt starts_before).
    unfold chars, decodeMeikiOCROutput. cbn [snd].
    apply (StronglySorted_array_sort _ has_start starts_before).
    + intros a b c. apply JsFacts.leb_trans.
    + exact compare_start_gt.
    + exact compare_start_le.
    + apply Forall_deduplicate, Forall_array_sort. exact Hraw.
  - apply rawCandidates_have_start.
Qed.

(** Two characters, the left one reported second. *)
Definition two_chars : list Z * list Js.number * list Js.number :=
  ([12356; 12354],
   map Js.of_Z [20; 0; 30; 32;  0; 0; 10; 32],
   [dec 8 10; dec 9 10]).

Lemma accepted_candidates_apart_and_sorted_witness :
  let '(labels, boxes, scores) := two_chars in
  let chars :=
    (decodeMeikiOCROutput labels boxes scores (Js.of_Z 100) (Js.of_Z 200) (Js.of_Z 64)).2 in
  finite_raw boxes (Js.of_Z 100) (Js.of_Z 200) (length labels) /\
  exists a b,
    chars !! 0%nat = Some a /\ chars !! 1%nat = Some b /\
    char a = 12354 /\ char b = 12356 /\
    (xStart a <=? xStart b)%js = true.
Proof.
  cbv beta iota delta [two_chars].
  assert (Hraw : finite_raw (map Js.of_Z [20; 0; 30; 32;  0; 0; 10; 32])
                   (Js.of_Z 100) (Js.of_Z 200) 2).
  { repeat split; [simpl; lia | repeat constructor]. }
  split; [exact Hraw|].
  destruct (accepted_candidates_apart_and_sorted
              [12356; 12354] (map Js.of_Z [20; 0; 30; 32;  0; 0; 10; 32])
              [dec 8 10; dec 9 10] (Js.of_Z 100) (Js.of_Z 200) (Js.of_Z 64))
    as (_ & _ & Hsorted & Hfinite).
  assert (Hchars : exists a b,
            (decodeMeikiOCROutput [12356; 12354]
               (map Js.of_Z [20; 0; 30; 32;  0; 0; 10; 32])
               [dec 8 10; dec 9 10] (Js.of_Z 100) (Js.of_Z 200) (Js.of_Z 64)).2
            = [a; b] /\ char a = 12354 /\ char b = 12356).
  { eexists. eexists. split; [vm_compute; reflexivity|]. split; reflexivity. }
  destruct Hchars as (a & b & Hab & Ha & Hb).
  exists a, b. rewrite Hab in *.
  split; [reflexivity|]. split; [reflexivity|].
  split; [exact Ha|]. split; [exact Hb|].
  apply (Hsorted (Hfinite Hraw) 0%nat 1%nat); [lia | reflexivity | reflexivity].
Defined.

End RecognitionFacts.

(* ===================================================================== *)
(** * More about the line filter *)
(* ===================================================================== *)

Module LineFilterMore.

Import LineFilter.
Import LineFilterFacts.

Lemma strip_edges_all (p : Z -> bool) (s : jsstring) :
  forallb p s = true -> strip_edges p s = [].
Proof.
  intros H. unfold strip_edges.
  assert (Hskip : skip_while p s = []).
  { induction s as [|c s IH]; [reflexivity|]. simpl in *.
    apply andb_true_iff in H as [-> H]. now apply IH. }
  now rewrite Hskip.
Qed.

(** The rolling buffer never grows past [MAX_RECENT_LINES]: an emitted
    line is appended, and when the buffer was full its oldest entry is
    dropped; a suppressed call leaves the buffer alone. *)
Theorem recentLines_is_bounded_fifo (text : jsstring) (recentLines : list jsstring) :
  (length recentLines <= MAX_RECENT_LINES)%nat ->
  let '(line, buffer) := filterOCRLine text recentLines in
  (length buffer <= MAX_RECENT_LINES)%nat /\
  match line with
  | Some t =>
      buffer = (if (length recentLines <? MAX_RECENT_LINES)%nat
                then recentLines else tail recentLines) ++ [t]
  | None => buffer = recentLines
  end.
Proof.
  intros Hlen. unfold filterOCRLine.
  destruct (normalize text) as [|c t] eqn:E; [now split|].
  rewrite at_length. cbn [loose_eq].
  rewrite length_app. cbn [length].
  destruct (Nat.ltb_spec MAX_RECENT_LINES (length recentLines + 1)) as [Hfull | Hroom].
  - assert (Heq : length recentLines = MAX_RECENT_LINES) by lia.
    replace (length recentLines <? MAX_RECENT_LINES)%nat with false
      by (symmetry; apply Nat.ltb_ge; lia).
    destruct recentLines as [|r rs]; [discriminate|].
    cbn [app tail]. split; [|reflexivity].
    rewrite length_app. simpl in *. lia.
  - replace (length recentLines <? MAX_RECENT_LINES)%nat with true
      by (symmetry; apply Nat.ltb_lt; lia).
    split; [|reflexivity]. rewrite length_app. simpl. lia.
Qed.

Lemma recentLines_is_bounded_fifo_witness :
  let '(line, buffer) := filterOCRLine [12356] (replicate 10 [12354]) in
  (length buffer <= MAX_RECENT_LINES)%nat /\
  match line with
  | Some t => buffer = replicate 9 [12354] ++ [t]
  | None => buffer = replicate 10 [12354]
  end.
Proof.
  apply (recentLines_is_bounded_fifo [12356] (replicate 10 [12354])).
  unfold MAX_RECENT_LINES. simpl. lia.
Defined.

(** What an emitted line looks like: it is not empty, has no white space
    at either end, holds no ASCII parenthesis and no horizontal bar, and
    has each bracket pair on both sides or on neither. *)
Theorem emitted_line_shape (text : jsstring) (recentLines : list jsstring) :
  match (filterOCRLine text recentLines).1 with
  | Some t =>
      t <> [] /\
      edges_fail is_white t = true /\
      includes ASCII_OPEN_PAREN t = false /\
      includes ASCII_CLOSE_PAREN t = false /\
      includes HORIZONTAL_BAR t = false /\
      includes OPEN_QUOTE t = includes CLOSE_QUOTE t /\
      includes OPEN_PAREN t = includes CLOSE_PAREN t
  | None => normalize text = []
  end.
Proof.
  rewrite filterOCRLine_never_suppresses. unfold normalized.
  pose proof (normalize_shape text) as H. cbv zeta in H.
  destruct (normalize text) as [|c t]; [reflexivity|].
  destruct H as (H1 & H2 & H3 & H4 & H5 & H6).
  repeat split; try assumption. discriminate.
Qed.

(** A text made of ASCII only is dropped whole, and the buffer is left as
    it was. *)
Theorem ascii_only_is_dropped (text : jsstring) (recentLines : list jsstring) :
  forallb is_ascii text = true ->
  filterOCRLine text recentLines = (None, recentLines).
Proof.
  intros H. unfold filterOCRLine, normalize, stripAsciiEdges.
  now rewrite (strip_edges_all _ _ H).
Qed.

Lemma ascii_only_is_dropped_witness :
  filterOCRLine [79; 75; 32; 49; 50; 51] [[12354]] = (None, [[12354]]).
Proof. apply ascii_only_is_dropped. reflexivity. Defined.

End LineFilterMore.

(* ===================================================================== *)
(** * More about the change detector *)
(* ===================================================================== *)

Module ChangeDetectorMore.

Import ChangeDetector.

(** ** The differ's range *)

Lemma foldl_count_bounds {B : Type} (test : B -> bool) (l : list B) :
  forall c : Z,
    let c' := foldl (fun n b => if test b then n + 1 else n) c l in
    c <= c' <= c + Z.of_nat (length l).
Proof.
  induction l as [|b l IH]; intros c; cbn [foldl length]; [lia|].
  specialize (IH (if test b then c + 1 else c)). cbv zeta in IH.
  destruct (test b); lia.
Qed.

Lemma countDiff_bounds (threshold : Js.number) (data1 data2 : list Z) :
  0 <= countDiff threshold data1 data2 <= Z.of_nat (length (pixel_offsets (length data1))).
Proof.
  unfold countDiff.
  pose proof (foldl_count_bounds
                (fun i => (totalDiff data1 data2 i >? threshold)%js)
                (pixel_offsets (length data1)) 0) as H.
  cbv zeta in H. lia.
Qed.

Lemma pixel_offsets_length (n : nat) :
  Z.of_nat (length (pixel_offsets n)) = (Z.of_nat n + 3) / 4.
Proof.
  unfold pixel_offsets. rewrite length_map, length_seq.
  rewrite Nat2Z.inj_div, Nat2Z.inj_add. reflexivity.
Qed.

(** Whatever the second frame is, the fraction the differ returns for a
    well-formed first frame is a number between 0 and 1. *)
Theorem compareFrames_is_a_fraction (d : t) (frame1 frame2 : ImageData) :
  wf_frame frame1 ->
  exists q, compareFrames d frame1 frame2 = Js.Num q /\ (0 <= q)%Q /\ (q <= 1)%Q.
Proof.
  intros (Hw & Hh & Hlen). unfold compareFrames.
  set (c := countDiff (pixelDiffThreshold d) (data frame1) (data frame2)).
  set (n := Z.of_nat (length (data frame1))) in *.
  assert (Hn : 0 < n) by (rewrite Hlen; nia).
  assert (Hc : 0 <= c /\ 4 * c <= n).
  { pose proof (countDiff_bounds (pixelDiffThreshold d) (data frame1) (data frame2)) as Hb.
    rewrite pixel_offsets_length in Hb. fold c n in Hb.
    pose proof (Z.mul_div_le (n + 3) 4 eq_refl) as Hdiv.
    set (pixels := width frame1 * height frame1) in *.
    lia. }
  cbv zeta. destruct (DifferFacts.fraction_value c n Hn) as [-> Hpos].
  destruct (FloatFacts.double_unit (inject_Z c / (inject_Z n / inject_Z 4)))
    as (r & Hr & Hr0 & Hr1).
  - apply Qle_shift_div_l; [exact Hpos|]. rewrite Qmult_0_l.
    change 0%Q with (inject_Z 0). rewrite <- Zle_Qle. lia.
  - apply Qle_shift_div_r; [exact Hpos|]. rewrite Qmult_1_l.
    apply Qle_shift_div_l; [reflexivity|].
    change (inject_Z c * inject_Z 4 <= inject_Z n)%Q.
    rewrite <- inject_Z_mult, <- Zle_Qle. lia.
  - exists r. split; [exact Hr|]. split; assumption.
Qed.

Lemma compareFrames_is_a_fraction_witness :
  exists q,
    compareFrames ChangeDetectorFacts.fresh DifferFacts.black_pixel DifferFacts.white_pixel
      = Js.Num q /\ (0 <= q)%Q /\ (q <= 1)%Q.
Proof.
  apply compareFrames_is_a_fraction. unfold wf_frame. simpl. lia.
Defined.

(** ** A burst and then a settle *)

(** The fields the state machine reads but never writes. *)
Definition same_settings (d d' : t) : Prop :=
  changeThreshold d' = changeThreshold d /\
  lowChangeThreshold d' = lowChangeThreshold d /\
  stabilityFrames d' = stabilityFrames d /\
  onTrigger d' = onTrigger d.

Lemma processStateChange_settings (d : t) (p : Js.number) :
  same_settings d (processStateChange d p).1.
Proof.
  unfold processStateChange, same_settings.
  destruct (state d); repeat (case_match; simpl; try (repeat split; reflexivity)).
Qed.

Lemma geb_of_Z (a b : Z) : (Js.of_Z a >=? Js.of_Z b)%js = (b <=? a).
Proof.
  unfold Js.geb, Js.of_Z. cbn [Js.leb].
  destruct (Z.leb_spec b a) as [H | H].
  - apply Qle_bool_iff. rewrite <- Zle_Qle. exact H.
  - apply JsFacts.Qle_bool_gt. rewrite <- Zlt_Qlt. exact H.
Qed.

(** In WaitingForStability with counter [c], [k] further low samples fire
    on the last one when [c + k] reaches [stabilityFrames] just then. *)
Lemma settle_fires_on_last (n : Z) (low : Js.number) (k : nat) :
  forall d,
    state d = waiting_for_stability ->
    stabilityFrames d = Js.of_Z n ->
    (low <? lowChangeThreshold d)%js = true ->
    onTrigger d = true ->
    stableFrameCount d + Z.of_nat (S k) = n ->
    let '(d', fired) := run d (replicate (S k) low) in
    fired = replicate k false ++ [true] /\
    state d' = idle /\ stableFrameCount d' = 0 /\
    triggeredCount d' = triggeredCount d + 1.
Proof.
  induction k as [|k IH]; intros d Hs Hn Hlow Htrig Hc.
  - cbn [replicate run]. unfold processStateChange.
    rewrite Hs, Hlow. cbn [set_machine stableFrameCount stabilityFrames].
    rewrite Hn, geb_of_Z.
    replace (n <=? stableFrameCount d + 1) with true by (symmetry; apply Z.leb_le; lia).
    cbn. rewrite Htrig. repeat split; reflexivity.
  - change (replicate (S (S k)) low) with (low :: replicate (S k) low).
    cbn [run].
    destruct (processStateChange d low) as [d1 f1] eqn:E1.
    assert (Hd1 : d1 = set_machine d waiting_for_stability (stableFrameCount d + 1)
                  /\ f1 = false).
    { unfold processStateChange in E1. rewrite Hs, Hlow in E1.
      cbn [set_machine stableFrameCount stabilityFrames] in E1.
      rewrite Hn, geb_of_Z in E1.
      replace (n <=? stableFrameCount d + 1) with false in E1
        by (symmetry; apply Z.leb_gt; lia).
      injection E1 as <- <-. now split. }
    destruct Hd1 as [-> ->].
    specialize (IH (set_machine d waiting_for_stability (stableFrameCount d + 1))).
    cbn [set_machine state stabilityFrames lowChangeThreshold onTrigger
         stableFrameCount triggeredCount] in IH.
    destruct (run _ (replicate (S k) low)) as [d2 fired].
    destruct IH as (Hf & Hs2 & Hc2 & Ht2); try assumption; try reflexivity; [lia|].
    cbv beta iota zeta. rewrite Hf. repeat split; assumption.
Qed.

(** From Idle, a sample above [changeThreshold] followed by [n] samples
    below [lowChangeThreshold], with [stabilityFrames] = [n] at least 2,
    calls the trigger exactly once, on the last sample, and leaves the
    machine in Idle with counter 0. *)
Theorem burst_then_settle_fires_once (d : t) (n : nat) (high low : Js.number) :
  state d = idle ->
  onTrigger d = true ->
  stabilityFrames d = Js.of_Z (Z.of_nat n) ->
  (2 <= n)%nat ->
  (high >? changeThreshold d)%js = true ->
  (low <? lowChangeThreshold d)%js = true ->
  let '(d', fired) := run d (high :: replicate n low) in
  fired = replicate n false ++ [true] /\
  state d' = idle /\ stableFrameCount d' = 0 /\
  triggeredCount d' = triggeredCount d + 1.
Proof.
  intros Hs Htrig Hn Hge Hhigh Hlow.
  destruct n as [|[|k]]; [lia | lia |].
  change (replicate (S (S k)) low) with (low :: replicate (S k) low).
  cbn [run].
  assert (E0 : processStateChange d high = (set_machine d change_detected 0, false)).
  { unfold processStateChange. now rewrite Hs, Hhigh. }
  rewrite E0.
  set (d0 := set_machine d change_detected 0).
  assert (E1 : processStateChange d0 low = (set_machine d0 waiting_for_stability 1, false)).
  { unfold processStateChange. cbn [d0 set_machine state lowChangeThreshold].
    now rewrite Hlow. }
  rewrite E1.
  set (d1 := set_machine d0 waiting_for_stability 1).
  pose proof (settle_fires_on_last (Z.of_nat (S (S k))) low k d1) as Hrun.
  cbn [d1 d0 set_machine state stabilityFrames lowChangeThreshold onTrigger
       stableFrameCount triggeredCount] in Hrun.
  fold d0 in Hrun. fold d1 in Hrun.
  destruct (run d1 (replicate (S k) low)) as [d2 fired].
  destruct Hrun as (Hf & Hs2 & Hc2 & Ht2); try assumption; try reflexivity; [lia|].
  cbv beta iota zeta. rewrite Hf. repeat split; assumption.
Qed.

Lemma burst_then_settle_fires_once_witness :
  let '(d', fired) :=
    run ChangeDetectorFacts.fresh (dec 5 10 :: replicate 3 (dec 0 1)) in
  fired = [false; false; false; true] /\
  state d' = idle /\ stableFrameCount d' = 0 /\ triggeredCount d' = 1.
Proof.
  apply (burst_then_settle_fires_once ChangeDetectorFacts.fresh 3 (dec 5 10) (dec 0 1));
    try reflexivity. lia.
Defined.

End ChangeDetectorMore.

(* ===================================================================== *)
(** * What a trigger presupposes *)
(* ===================================================================== *)

Module TriggerFacts.

Import ChangeDetector.
Import ChangeDetectorMore.

Section History.

Variable base : t.
Variable n : Z.
Hypothesis frames : stabilityFrames base = Js.of_Z n.

Definition quiet (p : Js.number) : Prop := (p <? lowChangeThreshold base)%js = true.
Definition busy (p : Js.number) : Prop := (p >? changeThreshold base)%js = true.

(** What the machine remembers of the samples [seen] so far. *)
Definition remembers (d : t) (seen : list Js.number) : Prop :=
  match state d with
  | idle => True
  | change_detected => exists h p, seen !! h = Some p /\ busy p
  | waiting_for_stability =>
      0 <= stableFrameCount d /\
      (exists h p, seen !! h = Some p /\ busy p /\
                   Z.of_nat h + stableFrameCount d < Z.of_nat (length seen)) /\
      (forall j, Z.of_nat (length seen) - stableFrameCount d <= Z.of_nat j ->
                 (j < length seen)%nat ->
                 exists p, seen !! j = Some p /\ quiet p)
  end.

(** What holds of the sample at position [k] when the trigger fires
    there. *)
Definition settled (all : list Js.number) (k : nat) : Prop :=
  (forall j, Z.of_nat k < Z.of_nat j + n -> (j <= k)%nat ->
             exists p, all !! j = Some p /\ quiet p) /\
  (exists p, all !! k = Some p /\ quiet p) /\
  (exists h p, all !! h = Some p /\ busy p /\ Z.of_nat h + n <= Z.of_nat k).

Lemma lookup_snoc_old (seen : list Js.number) (p : Js.number) (j : nat) :
  (j < length seen)%nat -> (seen ++ [p]) !! j = seen !! j.
Proof. intros H. now apply lookup_app_l. Qed.

Lemma lookup_snoc_new (seen : list Js.number) (p : Js.number) :
  (seen ++ [p]) !! length seen = Some p.
Proof. rewrite lookup_app_r by lia. now rewrite Nat.sub_diag. Qed.

Lemma step_remembers (d : t) (seen : list Js.number) (p : Js.number) :
  same_settings base d -> remembers d seen ->
  remembers (processStateChange d p).1 (seen ++ [p]) /\
  ((processStateChange d p).2 = true -> settled (seen ++ [p]) (length seen)).
Proof.
  intros (Hhigh & Hlow & Hn & _) Hrem.
  unfold remembers in Hrem. unfold processStateChange.
  destruct (state d) eqn:Es.
  - destruct (p >? changeThreshold d)%js eqn:Ep; cbn [fst snd].
    + split; [|discriminate]. unfold remembers. cbn.
      exists (length seen), p. split; [apply lookup_snoc_new|].
      unfold busy. now rewrite <- Hhigh.
    + split; [|discriminate]. unfold remembers. now rewrite Es.
  - destruct Hrem as (h & q & Hq & Hbusy).
    assert (Hh : (h < length seen)%nat) by (apply lookup_lt_is_Some; eauto).
    destruct (p <? lowChangeThreshold d)%js eqn:Ep; cbn [fst snd].
    + split; [|discriminate]. unfold remembers. cbn. rewrite length_app. cbn [length].
      split; [lia|]. split.
      * exists h, q. rewrite lookup_snoc_old by lia. repeat split; [assumption.. | lia].
      * intros j Hj1 Hj2. assert (j = length seen) as -> by lia.
        exists p. split; [apply lookup_snoc_new|]. unfold quiet. now rewrite <- Hlow.
    + split; [|discriminate]. unfold remembers. rewrite Es.
      exists h, q. now rewrite lookup_snoc_old by lia.
  - destruct Hrem as (Hc & (h & q & Hq & Hbusy & Hh) & Hquiet).
    destruct (p <? lowChangeThreshold d)%js eqn:Ep.
    + assert (Hp : quiet p) by (unfold quiet; now rewrite <- Hlow).
      assert (Hlast : forall j, Z.of_nat (length seen) - stableFrameCount d <= Z.of_nat j ->
                                (j <= length seen)%nat ->
                                exists p0, (seen ++ [p]) !! j = Some p0 /\ quiet p0).
      { intros j Hj1 Hj2. destruct (decide (j = length seen)) as [->|Hne].
        - exists p. split; [apply lookup_snoc_new | exact Hp].
        - rewrite lookup_snoc_old by lia. apply Hquiet; lia. }
      cbv zeta. cbn [stableFrameCount set_machine stabilityFrames].
      rewrite Hn, frames, geb_of_Z.
      destruct (n <=? stableFrameCount d + 1) eqn:En; cbn [fst snd].
      * split; [unfold remembers; now cbn|]. intros _.
        apply Z.leb_le in En. split; [|split].
        -- intros j Hj1 Hj2. apply Hlast; lia.
        -- exists p. split; [apply lookup_snoc_new | exact Hp].
        -- exists h, q. rewrite lookup_snoc_old by lia. repeat split; [assumption.. | lia].
      * split; [|discriminate]. unfold remembers. cbn. rewrite ?Es. cbn.
        rewrite length_app. cbn [length]. split; [lia|]. split.
        -- exists h, q. rewrite lookup_snoc_old by lia. repeat split; [assumption.. | lia].
        -- intros j Hj1 Hj2. apply Hlast; lia.
    + destruct (p >? changeThreshold d)%js eqn:Eq; cbn [fst snd].
      * split; [|discriminate]. unfold remembers. cbn.
        exists (length seen), p. split; [apply lookup_snoc_new|].
        unfold busy. now rewrite <- Hhigh.
      * split; [|discriminate]. unfold remembers. cbn. rewrite ?Es. cbn.
        rewrite length_app. cbn [length]. split; [lia|]. split.
        -- exists h, q. rewrite lookup_snoc_old by lia. repeat split; [assumption.. | lia].
        -- intros j Hj1 Hj2. lia.
Qed.

Lemma settled_more (all rest : list Js.number) (k : nat) :
  settled all k -> settled (all ++ rest) k.
Proof.
  intros (H1 & (p & Hp & Hq) & (h & q & Hh & Hb & Hle)). split; [|split].
  - intros j Hj1 Hj2. destruct (H1 j Hj1 Hj2) as (p0 & Hp0 & Hq0).
    exists p0. split; [|exact Hq0]. apply lookup_app_l_Some. exact Hp0.
  - exists p. split; [|exact Hq]. apply lookup_app_l_Some. exact Hp.
  - exists h, q. repeat split; [|assumption..]. apply lookup_app_l_Some. exact Hh.
Qed.

Lemma run_remembers (samples : list Js.number) :
  forall (d : t) (seen : list Js.number),
    same_settings base d -> remembers d seen ->
    forall k, (run d samples).2 !! k = Some true ->
              settled (seen ++ samples) (length seen + k).
Proof.
  induction samples as [|p rest IH]; intros d seen Hset Hrem k Hk.
  - cbn in Hk. discriminate.
  - cbn [run] in Hk.
    destruct (step_remembers d seen p Hset Hrem) as [Hrem' Hfire].
    pose proof (processStateChange_settings d p) as Hset'.
    destruct (processStateChange d p) as [d1 fired]. cbn [fst snd] in *.
    specialize (IH d1 (seen ++ [p])).
    destruct (run d1 rest) as [d2 fs]. cbn [fst snd] in *.
    destruct k as [|k].
    + cbn in Hk. injection Hk as ->. rewrite Nat.add_0_r.
      replace (seen ++ p :: rest) with ((seen ++ [p]) ++ rest) by now rewrite <- app_assoc.
      apply settled_more. now apply Hfire.
    + cbn in Hk.
      replace (seen ++ p :: rest) with ((seen ++ [p]) ++ rest) by now rewrite <- app_assoc.
      replace (length seen + S k)%nat with (length (seen ++ [p]) + k)%nat
        by (rewrite length_app; cbn; lia).
      apply IH; [|exact Hrem' | exact Hk].
      destruct Hset as (A1 & A2 & A3 & A4), Hset' as (B1 & B2 & B3 & B4).
      repeat split; congruence.
Qed.

End History.

(** Started idle, the detector fires only on a quiet sample: when the
    trigger fires at position [k], that sample and the ones before it, as
    many as [stabilityFrames] in all, were below the low threshold, and a
    sample above the change threshold came before them. *)
Theorem trigger_needs_settled_frames (d : t) (n : Z) (samples : list Js.number) (k : nat) :
  state d = idle ->
  stabilityFrames d = Js.of_Z n ->
  (run d samples).2 !! k = Some true ->
  (forall j, Z.of_nat k < Z.of_nat j + n -> (j <= k)%nat ->
             exists p, samples !! j = Some p /\ (p <? lowChangeThreshold d)%js = true) /\
  (exists p, samples !! k = Some p /\ (p <? lowChangeThreshold d)%js = true) /\
  (exists h p, samples !! h = Some p /\ (p >? changeThreshold d)%js = true /\
               Z.of_nat h + n <= Z.of_nat k).
Proof.
  intros Hidle Hn Hk.
  apply (run_remembers d n Hn samples d []); [now repeat split | | exact Hk].
  unfold remembers. now rewrite Hidle.
Qed.

Lemma trigger_needs_settled_frames_witness :
  exists h p,
    [dec 2 100; dec 5 1000; dec 5 1000; dec 5 1000] !! h = Some p /\
    (p >? changeThreshold (start (constructor no_options)))%js = true /\
    Z.of_nat h + 3 <= 3.
Proof.
  apply (trigger_needs_settled_frames (start (constructor no_options)) 3
           [dec 2 100; dec 5 1000; dec 5 1000; dec 5 1000] 3);
    reflexivity.
Defined.

End TriggerFacts.

(* ===================================================================== *)
(** * More about the merge step *)
(* ===================================================================== *)

Module MergeMore.

Import MeikiOCR.
Import MergeFacts.

Lemma min_Infinity_l (x : Js.number) :
  Js.is_nan x = false -> Js.min Js.Infinity x = x.
Proof. unfold Js.min. destruct x; simpl; intros H; congruence. Qed.

Lemma max_NegInfinity_l (x : Js.number) :
  Js.is_nan x = false -> Js.max Js.NegInfinity x = x.
Proof. unfold Js.max. destruct x; simpl; intros H; congruence. Qed.

Lemma mergeGroup_singleton (regions : list Region) (i : nat) (r : Region) :
  regions !! i = Some r -> clean r -> mergeGroup regions [i] = r.
Proof.
  intros Hr (H1 & H2 & H3 & H4 & H5).
  unfold mergeGroup. cbn [foldl]. unfold extent_step. rewrite Hr.
  cbn [extent_init minX minY maxX maxY maxScore].
  rewrite !min_Infinity_l, !max_NegInfinity_l by assumption.
  destruct r as [[a b c e] s]. reflexivity.
Qed.

Section Disjoint.

Variable regions : list Region.
Hypothesis disjoint : forall i j, i <> j -> overlapAt regions i j = false.

Lemma sweep_of_singleton (i : nat) (used : gset nat) :
  i ∈ used -> sweep regions [i] used = ([i], used, false).
Proof.
  intros Hi. unfold sweep. apply DifferFacts.foldl_unchanged. intros j.
  unfold sweep_step. destruct (bool_decide (j ∈ used)) eqn:E; [reflexivity|].
  apply bool_decide_eq_false in E.
  unfold overlapsGroup. cbn [existsb].
  rewrite disjoint; [reflexivity|]. intros ->. contradiction.
Qed.

Lemma collect_singletons (indices : list nat) :
  forall groups used,
    NoDup indices -> (forall i, i ∈ indices -> i ∉ used) ->
    collect regions indices groups used
    = Return (groups ++ map (fun i => [i]) indices).
Proof.
  induction indices as [|i rest IH]; intros groups used Hnd Hfresh; cbn [collect map].
  - now rewrite app_nil_r.
  - apply NoDup_cons in Hnd as [Hi Hnd].
    rewrite bool_decide_eq_false_2 by (apply Hfresh; now left).
    cbn [grow]. rewrite sweep_of_singleton by (apply elem_of_union; left; now apply elem_of_singleton).
    cbn [mbind outcome_bind].
    rewrite IH; [now rewrite <- app_assoc | exact Hnd |].
    intros k Hk Hin. apply elem_of_union in Hin as [Hin | Hin].
    + apply elem_of_singleton in Hin as ->. contradiction.
    + apply (Hfresh k); [now right | exact Hin].
Qed.

End Disjoint.

Lemma lookup_seq_regions (pre l : list Region) :
  Forall clean l ->
  Forall2 (fun i r => (pre ++ l) !! i = Some r /\ clean r)
          (seq (length pre) (length l)) l.
Proof.
  revert pre. induction l as [|r l IH]; intros pre Hl; cbn [length seq]; [constructor|].
  apply Forall_cons in Hl as [Hr Hl]. constructor.
  - split; [apply list_lookup_middle; reflexivity | exact Hr].
  - specialize (IH (pre ++ [r]) Hl).
    rewrite <- app_assoc, length_app in IH. cbn [app length] in IH.
    now rewrite Nat.add_1_r in IH.
Qed.

Lemma merge_singletons (regions : list Region) (indices : list nat) (rs : list Region) :
  Forall2 (fun i r => regions !! i = Some r /\ clean r) indices rs ->
  map (mergeGroup regions) (map (fun i => [i]) indices) = rs.
Proof.
  induction 1 as [|i r indices rs [Hr Hc] _ IH]; [reflexivity|].
  cbn [map]. now rewrite (mergeGroup_singleton regions i r Hr Hc), IH.
Qed.

(** Boxes of which no two overlap come out of the merge step as they went
    in: same regions, same order, same scores. *)
Theorem disjoint_boxes_pass_through (regions : list Region) :
  Forall clean regions ->
  (forall i j ri rj,
     i <> j -> regions !! i = Some ri -> regions !! j = Some rj ->
     boxesOverlap (box ri) (box rj) = false) ->
  mergeOverlappingBoxes regions = Return regions.
Proof.
  intros Hclean Hdis.
  assert (Hov : forall i j, i <> j -> overlapAt regions i j = false).
  { intros i j Hij. unfold overlapAt.
    destruct (regions !! i) as [ri|] eqn:Ei; [|reflexivity].
    destruct (regions !! j) as [rj|] eqn:Ej; [|reflexivity].
    now apply (Hdis i j). }
  unfold mergeOverlappingBoxes, groupIndices.
  destruct regions as [|r regions]; [reflexivity|].
  cbn [length Nat.eqb].
  rewrite (collect_singletons _ Hov);
    [| apply NoDup_seq | intros i _; apply not_elem_of_empty].
  cbn [app mbind outcome_bind]. f_equal.
  apply merge_singletons.
  exact (lookup_seq_regions [] (r :: regions) Hclean).
Qed.

Lemma disjoint_boxes_pass_through_witness :
  let regions := [DetectionFacts.scored 0 0 10 10 (dec 9 10);
                  DetectionFacts.scored 10 0 20 10 (dec 5 10)] in
  mergeOverlappingBoxes regions = Return regions.
Proof.
  apply disjoint_boxes_pass_through.
  - repeat constructor.
  - intros [|[|i]] [|[|j]] ri rj Hij Hi Hj; cbn in Hi, Hj;
      try discriminate; try congruence;
      injection Hi as <-; injection Hj as <-; reflexivity.
Defined.

(** ** Every input box is accounted for once *)

Lemma NoDup_concat_groups (groups : list (list nat)) :
  NoDup groups ->
  (forall g, g ∈ groups -> NoDup g) ->
  (forall g1 g2, g1 ∈ groups -> g2 ∈ groups -> g1 <> g2 ->
                 forall i, i ∈ g1 -> i ∉ g2) ->
  NoDup (concat groups).
Proof.
  induction groups as [|g groups IH]; intros Hnd Hmem Hdis; cbn [concat].
  - constructor.
  - apply NoDup_cons in Hnd as [Hg Hnd]. apply NoDup_app. split; [|split].
    + apply Hmem. now left.
    + intros i Hi Hin. apply list_elem_of_In, in_concat in Hin as (g' & Hg' & Hin).
      apply list_elem_of_In in Hg'. apply list_elem_of_In in Hin.
      apply (Hdis g g' (list_elem_of_here g groups)
                  (list_elem_of_further g' g groups Hg')) with i;
        [| exact Hi | exact Hin].
      intros ->. contradiction.
    + apply IH; [exact Hnd | |].
      * intros g' Hg'. apply Hmem. now right.
      * intros g1 g2 H1 H2. apply Hdis; now right.
Qed.

Lemma length_concat_nonempty (groups : list (list nat)) :
  (forall g, g ∈ groups -> g <> []) ->
  (length groups <= length (concat groups))%nat.
Proof.
  induction groups as [|g groups IH]; intros Hne; cbn [concat length]; [lia|].
  rewrite length_app.
  assert (Hg : g <> []) by (apply Hne; now left).
  assert (IH' : (length groups <= length (concat groups))%nat)
    by (apply IH; intros g' Hg'; apply Hne; now right).
  destruct g; [congruence|]. simpl. lia.
Qed.

(** The groups share out the input: listed one after the other they hold
    every index exactly once.  So the merge step never returns more
    regions than it was given, and returns at least one when given any. *)
Theorem merge_accounts_for_every_box (regions : list Region) :
  exists groups merged,
    groupIndices regions = Return groups /\
    mergeOverlappingBoxes regions = Return merged /\
    length merged = length groups /\
    concat groups ≡ₚ seq 0%nat (length regions) /\
    (length merged <= length regions)%nat /\
    (regions <> [] -> merged <> []).
Proof.
  destruct (mergeOverlappingBoxes_groups regions) as (groups & Hrun & Hmerge & Hpart).
  exists groups, (map (mergeGroup regions) groups).
  split; [exact Hrun|]. split; [exact Hmerge|]. split; [apply length_map|].
  assert (Hperm : concat groups ≡ₚ seq 0%nat (length regions)).
  { apply NoDup_Permutation.
    - apply NoDup_concat_groups;
        [apply (part_nodup _ _ Hpart) | apply (part_members_nodup _ _ Hpart) |].
      intros g1 g2 H1 H2 Hne. now apply (part_sep _ _ Hpart g1 g2).
    - apply NoDup_seq.
    - intros i. rewrite elem_of_seq. split.
      + intros Hin. apply list_elem_of_In, in_concat in Hin as (g & Hg & Hin).
        apply list_elem_of_In in Hg. apply list_elem_of_In in Hin.
        pose proof (part_lt _ _ Hpart g i Hg Hin). lia.
      + intros [_ Hi]. destruct (part_cover _ _ Hpart i) as (g & Hg & Hin); [lia|].
        apply list_elem_of_In, in_concat. exists g.
        split; now apply list_elem_of_In. }
  split; [exact Hperm|].
  assert (Hlen : (length groups <= length regions)%nat).
  { pose proof (length_concat_nonempty groups (part_nonempty _ _ Hpart)) as Hle.
    rewrite Hperm, length_seq in Hle. exact Hle. }
  split; [now rewrite length_map|].
  intros Hne Hnil. apply map_eq_nil in Hnil. subst groups.
  destruct regions as [|r regions]; [congruence|].
  destruct (part_cover _ _ Hpart 0%nat) as (g & Hg & _); [simpl; lia|].
  now apply elem_of_nil in Hg.
Qed.

End MergeMore.

(* ===================================================================== *)
(** * More about the detection reducer *)
(* ===================================================================== *)

Module DetectionMore.

Import MeikiOCR.
Import MergeFacts.

(** The comparator of the final sort. *)
Definition byTop (a b : Region) : Js.number := (by1 (box a) - by1 (box b))%js.

(** What [detectTextRegions] went through when it returns. *)
Lemma detectTextRegions_returns (session : bool)
    (scale origWidth origHeight : Js.number) (results : Results) (out : list Region) :
  detectTextRegions session scale origWidth origHeight results = Return out ->
  exists boxes scores regions groups,
    detectedRegions scale origWidth origHeight boxes scores (seq 0%nat (length scores))
      = Return regions /\
    groupIndices regions = Return groups /\ partitioned regions groups /\
    out = array_sort byTop (map (mergeGroup regions) groups).
Proof.
  unfold detectTextRegions. destruct session; [|discriminate]. cbn [negb].
  destruct results as [props|]; [|discriminate].
  set (extracted := match property "boxes" props, property "scores" props with
                    | Some b, Some s => Return (tdata b, tdata s)
                    | _, _ => _ end).
  destruct extracted as [[boxes scores]|e]; [|discriminate].
  cbn [mbind outcome_bind]. destruct scores as [scores|]; [|discriminate].
  destruct (detectedRegions _ _ _ boxes scores _) as [regions|e] eqn:Ed; [|discriminate].
  cbn [mbind outcome_bind].
  destruct (mergeOverlappingBoxes_groups regions) as (groups & Hrun & Hmerge & Hpart).
  rewrite Hmerge. cbn [mbind outcome_bind]. intros [= <-].
  exists boxes, scores, regions, groups.
  split; [exact Ed|]. split; [exact Hrun|]. split; [exact Hpart|]. reflexivity.
Qed.

(** ** Scores *)

Definition confident (r : Region) : Prop := (score r <? DETECT_CONFIDENCE)%js = false.

Lemma detectedRegions_confident (scale origWidth origHeight : Js.number)
    (boxes : option (list Js.number)) (scores : list Js.number) (indices : list nat) :
  forall regions,
    detectedRegions scale origWidth origHeight boxes scores indices = Return regions ->
    Forall confident regions.
Proof.
  induction indices as [|i rest IH]; intros regions; cbn [detectedRegions].
  - intros [= <-]. constructor.
  - destruct (element scores i <? DETECT_CONFIDENCE)%js eqn:E; [apply IH|].
    destruct boxes as [boxes'|]; [|discriminate].
    destruct (detectedRegions _ _ _ (Some boxes') scores rest) as [tail|e]; [|discriminate].
    cbn [mbind outcome_bind]. intros [= <-].
    constructor; [exact E | now apply IH].
Qed.

Lemma max_keeps_level (acc x t : Js.number) :
  (x <? t)%js = false -> (Js.max acc x <? t)%js = false.
Proof.
  intros Hx. unfold Js.max.
  destruct acc as [| |a|], x as [| |v|], t as [| |w|]; simpl in *; try congruence;
    try reflexivity;
    destruct (Qle_bool a v) eqn:E; simpl; try congruence;
    JsFacts.qprop; lra.
Qed.

Lemma foldl_max_keeps_level (t : Js.number) (l : list Js.number) :
  forall acc,
    Forall (fun x => (x <? t)%js = false) l ->
    (acc <? t)%js = false \/ l <> [] ->
    (foldl Js.max acc l <? t)%js = false.
Proof.
  induction l as [|x l IH]; intros acc Hl Hacc; cbn [foldl].
  - destruct Hacc as [H | H]; [exact H | congruence].
  - apply Forall_cons in Hl as [Hx Hl]. apply IH; [exact Hl|].
    left. now apply max_keeps_level.
Qed.

Lemma members_in (regions : list Region) (group : list nat) :
  forall r, r ∈ members regions group -> r ∈ regions.
Proof.
  intros r Hr. unfold members in Hr.
  apply list_elem_of_omap in Hr as (i & _ & Hi).
  eapply list_elem_of_lookup_2. exact Hi.
Qed.

Lemma partitioned_members_nonempty (regions : list Region) (groups : list (list nat)) (g : list nat) :
  partitioned regions groups -> g ∈ groups -> members regions g <> [].
Proof.
  intros Hpart Hg Hnil.
  pose proof (members_lookup regions g (fun i => part_lt _ _ Hpart g i Hg)) as Hmem.
  rewrite Hnil in Hmem. apply Forall2_nil_inv_r in Hmem.
  now apply (part_nonempty _ _ Hpart g Hg).
Qed.



(** ** Well-formed answers *)

(** The answer holds four finite coordinates for every score, finite
    scores, and the preprocessing supplied a finite scale that is not zero
    and image sizes that are not negative. *)
Definition wellformed (boxes scores : list Js.number)
    (scale origWidth origHeight : Js.number) : Prop :=
  (4 * length scores <= length boxes)%nat /\
  Forall (fun v => Js.is_finite v = true) boxes /\
  Forall (fun v => Js.is_finite v = true) scores /\
  Js.is_finite scale = true /\ Js.truthy scale = true /\
  Js.is_finite origWidth = true /\ (Js.of_Z 0 <=? origWidth)%js = true /\
  Js.is_finite origHeight = true /\ (Js.of_Z 0 <=? origHeight)%js = true.

(** The box lies in the image. *)
Definition in_image (origWidth origHeight : Js.number) (r : Region) : Prop :=
  (Js.of_Z 0 <=? bx1 (box r))%js = true /\ (bx1 (box r) <=? origWidth)%js = true /\
  (Js.of_Z 0 <=? by1 (box r))%js = true /\ (by1 (box r) <=? origHeight)%js = true /\
  (Js.of_Z 0 <=? bx2 (box r))%js = true /\ (bx2 (box r) <=? origWidth)%js = true /\
  (Js.of_Z 0 <=? by2 (box r))%js = true /\ (by2 (box r) <=? origHeight)%js = true.

Lemma rescaled_is_finite (v scale : Js.number) :
  Js.is_finite v = true -> Js.is_finite scale = true -> Js.truthy scale = true ->
  Js.is_nan (Js.floor (v / scale)%js) = false.
Proof.
  destruct v as [| |x|], scale as [| |s|]; try discriminate.
  intros _ _ Hs. cbn [Js.truthy] in Hs. apply negb_true_iff in Hs.
  cbn [Js.div]. now rewrite Hs.
Qed.

Lemma clamp_in_range (v bound : Js.number) :
  Js.is_nan v = false -> (Js.of_Z 0 <=? bound)%js = true ->
  (Js.of_Z 0 <=? clamp v bound)%js = true /\ (clamp v bound <=? bound)%js = true.
Proof.
  intros Hv Hb. unfold clamp.
  destruct (JsFacts.leb_not_nan _ _ Hb) as [_ Hbn].
  destruct (JsFacts.min_spec v bound Hv Hbn) as (Hsel & _ & Hle).
  assert (Hm : Js.is_nan (Js.min v bound) = false) by (destruct Hsel as [-> | ->]; assumption).
  destruct (JsFacts.max_spec (Js.of_Z 0) (Js.min v bound) eq_refl Hm) as (Hsel' & H0 & _).
  split; [exact H0|].
  destruct Hsel' as [-> | ->]; assumption.
Qed.

Lemma finite_not_nan (v : Js.number) : Js.is_finite v = true -> Js.is_nan v = false.
Proof. now destruct v. Qed.

Lemma detectedRegions_wellformed (boxes scores : list Js.number)
    (scale origWidth origHeight : Js.number) (indices : list nat) :
  wellformed boxes scores scale origWidth origHeight ->
  (forall i, i ∈ indices -> (i < length scores)%nat) ->
  exists regions,
    detectedRegions scale origWidth origHeight (Some boxes) scores indices = Return regions /\
    Forall (in_image origWidth origHeight) regions /\
    Forall clean regions.
Proof.
  intros (Hlen & Hboxes & Hscores & Hs & Hsnz & _ & Hw & _ & Hh).
  induction indices as [|i rest IH]; intros Hlt; cbn [detectedRegions].
  - exists []. now repeat split.
  - destruct IH as (tail & Htail & Himg & Hclean); [intros k Hk; apply Hlt; now right|].
    destruct (element scores i <? DETECT_CONFIDENCE)%js; [now exists tail|].
    rewrite Htail. cbn [mbind outcome_bind]. eexists. split; [reflexivity|].
    assert (Hi : (i < length scores)%nat) by (apply Hlt; now left).
    assert (Hcoord : forall k, (k < 4)%nat ->
              Js.is_nan (Js.floor (element boxes (i * 4 + k) / scale)%js) = false).
    { intros k Hk. apply rescaled_is_finite; try assumption.
      apply RecognitionFacts.element_finite; [exact Hboxes | lia]. }
    pose proof (Hcoord 0%nat ltac:(lia)) as H0. rewrite Nat.add_0_r in H0.
    pose proof (Hcoord 1%nat ltac:(lia)) as H1.
    pose proof (Hcoord 2%nat ltac:(lia)) as H2.
    pose proof (Hcoord 3%nat ltac:(lia)) as H3.
    destruct (clamp_in_range _ _ H0 Hw) as [A0 B0].
    destruct (clamp_in_range _ _ H1 Hh) as [A1 B1].
    destruct (clamp_in_range _ _ H2 Hw) as [A2 B2].
    destruct (clamp_in_range _ _ H3 Hh) as [A3 B3].
    split; constructor; try assumption.
    + unfold in_image. cbn [box bx1 by1 bx2 by2]. now repeat split.
    + unfold clean. cbn [box score bx1 by1 bx2 by2].
      repeat split;
        try (eapply JsFacts.leb_not_nan; eassumption).
      apply finite_not_nan, RecognitionFacts.element_finite; assumption.
Qed.

Lemma mergeGroup_in_image (regions : list Region) (groups : list (list nat))
    (origWidth origHeight : Js.number) (g : list nat) :
  partitioned regions groups -> g ∈ groups ->
  Forall (in_image origWidth origHeight) regions -> Forall clean regions ->
  in_image origWidth origHeight (mergeGroup regions g).
Proof.
  intros Hpart Hg Himg Hclean.
  assert (Hin : forall r, r ∈ members regions g -> r ∈ regions) by apply members_in.
  assert (Hmclean : Forall clean (members regions g)).
  { apply Forall_forall. intros r Hr. rewrite Forall_forall in Hclean. auto. }
  destruct (mergeGroup_tight regions g (partitioned_members_nonempty _ _ _ Hpart Hg) Hmclean)
    as ([H1 _] & [H2 _] & [H3 _] & [H4 _] & _).
  rewrite Forall_forall in Himg. unfold in_image.
  apply list_elem_of_fmap in H1 as (r1 & -> & Hr1).
  apply list_elem_of_fmap in H2 as (r2 & -> & Hr2).
  apply list_elem_of_fmap in H3 as (r3 & -> & Hr3).
  apply list_elem_of_fmap in H4 as (r4 & -> & Hr4).
  pose proof (Himg r1 (Hin r1 Hr1)) as (? & ? & _).
  pose proof (Himg r2 (Hin r2 Hr2)) as (_ & _ & ? & ? & _).
  pose proof (Himg r3 (Hin r3 Hr3)) as (_ & _ & _ & _ & ? & ? & _).
  pose proof (Himg r4 (Hin r4 Hr4)) as (_ & _ & _ & _ & _ & _ & ? & ?).
  now repeat split.
Qed.

Lemma byTop_gt (a b : Region) :
  Js.is_nan (by1 (box a)) = false -> Js.is_nan (by1 (box b)) = false ->
  (byTop a b >? Js.of_Z 0)%js = true -> (by1 (box b) <=? by1 (box a))%js = true.
Proof.
  unfold byTop, Js.gtb, Js.of_Z.
  destruct (by1 (box a)), (by1 (box b)); simpl; try congruence.
  intros _ _ H. JsFacts.qprop. unfold inject_Z in H. lra.
Qed.

Lemma byTop_le (a b : Region) :
  Js.is_nan (by1 (box a)) = false -> Js.is_nan (by1 (box b)) = false ->
  (byTop a b >? Js.of_Z 0)%js = false -> (by1 (box a) <=? by1 (box b))%js = true.
Proof.
  unfold byTop, Js.gtb, Js.of_Z.
  destruct (by1 (box a)), (by1 (box b)); simpl; try congruence.
  intros _ _ H. JsFacts.qprop. unfold inject_Z in H. lra.
Qed.

(** For a well-formed answer under the named outputs the reducer returns,
    every returned box lies inside the image, and the regions come in
    reading order: top edges ascending. *)
Theorem wellformed_answer_in_image_and_ordered
    (scale origWidth origHeight : Js.number)
    (props : list (string * Tensor)) (boxes scores : list Js.number) :
  property "boxes" props = Some {| tdata := Some boxes |} ->
  property "scores" props = Some {| tdata := Some scores |} ->
  wellformed boxes scores scale origWidth origHeight ->
  exists out,
    detectTextRegions true scale origWidth origHeight (Some props) = Return out /\
    Forall (in_image origWidth origHeight) out /\
    forall i j a b,
      (i < j)%nat -> out !! i = Some a -> out !! j = Some b ->
      (by1 (box a) <=? by1 (box b))%js = true.
Proof.
  intros Hb Hs Hwf.
  destruct (detectedRegions_wellformed boxes scores scale origWidth origHeight
              (seq 0%nat (length scores)) Hwf)
    as (regions & Hdet & Himg & Hclean).
  { intros i Hi. apply elem_of_seq in Hi. lia. }
  destruct (mergeOverlappingBoxes_groups regions) as (groups & Hrun & Hmerge & Hpart).
  exists (array_sort byTop (map (mergeGroup regions) groups)).
  assert (Hmerged : Forall (in_image origWidth origHeight) (map (mergeGroup regions) groups)).
  { apply Forall_map, Forall_forall. intros g Hg.
    now apply (mergeGroup_in_image regions groups). }
  split; [|split].
  - unfold detectTextRegions. cbn [negb]. rewrite Hb, Hs.
    cbn [mbind outcome_bind tdata]. rewrite Hdet. cbn [mbind outcome_bind].
    rewrite Hmerge. reflexivity.
  - now apply RecognitionFacts.Forall_array_sort.
  - apply (RecognitionFacts.StronglySorted_lookup_lt
             (fun a b => (by1 (box a) <=? by1 (box b))%js = true)).
    apply (RecognitionFacts.StronglySorted_array_sort byTop
             (fun r => Js.is_nan (by1 (box r)) = false)).
    + intros a b c. apply JsFacts.leb_trans.
    + exact byTop_gt.
    + exact byTop_le.
    + eapply Forall_impl; [exact Hmerged|]. intros r (_ & _ & H & _).
      now apply JsFacts.leb_not_nan in H.
Qed.

Lemma wellformed_answer_in_image_and_ordered_witness :
  exists out,
    detectTextRegions true (Js.of_Z 1) (Js.of_Z 640) (Js.of_Z 640)
      DetectionFacts.corner_results = Return out /\
    Forall (in_image (Js.of_Z 640) (Js.of_Z 640)) out.
Proof.
  destruct (wellformed_answer_in_image_and_ordered
              (Js.of_Z 1) (Js.of_Z 640) (Js.of_Z 640)
              [("boxes"%string, {| tdata := Some DetectionFacts.corner_boxes |});
               ("scores"%string, {| tdata := Some [dec 9 10; dec 8 10; dec 7 10] |})]
              DetectionFacts.corner_boxes [dec 9 10; dec 8 10; dec 7 10])
    as (out & Hrun & Himg & _); try reflexivity.
  - repeat split; first [reflexivity | simpl; lia | repeat constructor].
  - exists out. split; [exact Hrun | exact Himg].
Defined.

End DetectionMore.

(* ===================================================================== *)
(** * More about the recognition reducer *)
(* ===================================================================== *)

Module RecognitionMore.

Import MeikiOCR.
Import RecognitionFacts.

Lemma length_sort_insert {A : Type} (compare : A -> A -> Js.number) (x : A) (l : list A) :
  length (sort_insert compare x l) = S (length l).
Proof.
  induction l as [|y l IH]; cbn [sort_insert length]; [reflexivity|].
  destruct (compare x y >? Js.of_Z 0)%js; cbn [length]; [now rewrite IH | reflexivity].
Qed.

Lemma length_array_sort {A : Type} (compare : A -> A -> Js.number) (l : list A) :
  length (array_sort compare l) = length l.
Proof.
  induction l as [|x l IH]; [reflexivity|].
  unfold array_sort. cbn [foldr length]. rewrite length_sort_insert. now f_equal.
Qed.

Lemma length_dedup_fold (candidates : list Candidate) :
  forall accepted,
    (length accepted <= length (foldl dedup_step accepted candidates)
     <= length accepted + length candidates)%nat.
Proof.
  induction candidates as [|c cs IH]; intros accepted; cbn [foldl length]; [lia|].
  specialize (IH (dedup_step accepted c)).
  assert (length accepted <= length (dedup_step accepted c) <= S (length accepted))%nat.
  { unfold dedup_step. destruct (existsb _ _); [lia|]. rewrite length_app. simpl. lia. }
  lia.
Qed.

Lemma deduplicate_keeps_first (c : Candidate) (cs : list Candidate) :
  (1 <= length (deduplicate (c :: cs)))%nat.
Proof.
  unfold deduplicate. cbn [foldl]. unfold dedup_step at 2. cbn [existsb app].
  pose proof (length_dedup_fold cs [c]) as H. simpl in H. lia.
Qed.

(** Every character of the output comes from a raw entry whose score is
    not below [RECOGNIZE_CONFIDENCE]; the output is never longer than the
    raw output; and it is empty exactly when no entry reaches the
    threshold: the most confident candidate always survives. *)
Theorem decode_keeps_confident_candidates (labels : list Z)
    (boxes scores : list Js.number)
    (effectiveWidth origWidth origHeight : Js.number) :
  let raw := rawCandidates labels boxes scores effectiveWidth origWidth origHeight in
  let '(text, chars) :=
    decodeMeikiOCROutput labels boxes scores effectiveWidth origWidth origHeight in
  text = map char chars /\
  Forall (fun c => c ∈ raw /\ (conf c <? RECOGNIZE_CONFIDENCE)%js = false) chars /\
  (length chars <= length raw <= length labels)%nat /\
  (text = [] <->
   forall i, (i < length labels)%nat ->
             (element scores i <? RECOGNIZE_CONFIDENCE)%js = true).
Proof.
  intros raw. unfold decodeMeikiOCROutput. fold raw.
  set (sorted := array_sort (fun a b => (conf b - conf a)%js) raw).
  assert (Hraw : Forall (fun c => c ∈ raw /\ (conf c <? RECOGNIZE_CONFIDENCE)%js = false) raw).
  { apply Forall_forall. intros c Hc. split; [exact Hc|].
    unfold raw, rawCandidates in Hc.
    apply list_elem_of_fmap in Hc as (i & -> & Hi).
    apply list_elem_of_filter in Hi as [Hi _]. exact Hi. }
  assert (Hlen_raw : (length raw <= length labels)%nat).
  { unfold raw, rawCandidates. rewrite length_map.
    etransitivity; [apply length_filter|]. now rewrite length_seq. }
  assert (Hlen : (length (deduplicate sorted) <= length raw)%nat).
  { pose proof (length_dedup_fold sorted []) as H. unfold deduplicate.
    unfold sorted in *. rewrite length_array_sort in H. simpl in H. lia. }
  split; [reflexivity|]. split; [|split].
  - now apply Forall_array_sort, Forall_deduplicate, Forall_array_sort.
  - rewrite length_array_sort. lia.
  - assert (Hempty : raw = [] <->
        forall i, (i < length labels)%nat ->
                  (element scores i <? RECOGNIZE_CONFIDENCE)%js = true).
    { unfold raw, rawCandidates. split.
      - intros Hnil i Hi. apply map_eq_nil in Hnil.
        destruct (element scores i <? RECOGNIZE_CONFIDENCE)%js eqn:E; [reflexivity|].
        assert (Hin : i ∈ filter (fun i => (element scores i <? RECOGNIZE_CONFIDENCE)%js = false)
                         (seq 0%nat (length labels))).
        { apply list_elem_of_filter. split; [exact E | apply elem_of_seq; lia]. }
        rewrite Hnil in Hin. now apply elem_of_nil in Hin.
      - intros Hall.
        assert (Hnil : filter (fun i => (element scores i <? RECOGNIZE_CONFIDENCE)%js = false)
                         (seq 0%nat (length labels)) = []).
        { destruct (filter _ (seq 0%nat (length labels))) as [|i rest] eqn:Ef; [reflexivity|].
          assert (Hin : i ∈ i :: rest) by now left.
          rewrite <- Ef in Hin. apply list_elem_of_filter in Hin as [Hi Hseq].
          apply elem_of_seq in Hseq. rewrite Hall in Hi by lia. discriminate. }
        now rewrite Hnil. }
    rewrite <- Hempty. split.
    + intros Htext. apply map_eq_nil in Htext.
      assert (Hl : length (array_sort (fun a b => (xStart a - xStart b)%js)
                             (deduplicate sorted)) = 0%nat) by now rewrite Htext.
      rewrite length_array_sort in Hl.
      destruct raw as [|c cs] eqn:Er; [reflexivity|]. exfalso.
      assert (Hs : (1 <= length sorted)%nat).
      { unfold sorted. rewrite length_array_sort. simpl. lia. }
      destruct sorted as [|s ss]; [simpl in Hs; lia|].
      pose proof (deduplicate_keeps_first s ss). lia.
    + intros Hnil. unfold sorted. rewrite Hnil. reflexivity.
Qed.

End RecognitionMore.

(* ===================================================================== *)
(** * Facts about preprocessing and the pipeline *)
(* ===================================================================== *)

Module PipelineFacts.

Import MeikiOCR.
Import Pipeline.

Lemma Qfloor_half (n : Z) : Qfloor (inject_Z n + (1 # 2)) = n.
Proof.
  assert (Hge : n <= Qfloor (inject_Z n + (1 # 2))).
  { rewrite <- (Qfloor_Z n) at 1. apply Qfloor_resp_le.
    rewrite <- (Qplus_0_r (inject_Z n)) at 1. apply Qplus_le_r. discriminate. }
  assert (Hlt : Qfloor (inject_Z n + (1 # 2)) < n + 1).
  { rewrite Zlt_Qlt. eapply Qle_lt_trans; [apply Qfloor_le|].
    rewrite inject_Z_plus. apply Qplus_lt_r. reflexivity. }
  lia.
Qed.

(** Rounding is monotone and fixes integers. *)
Lemma round_le_int (x : Q) (n : Z) : (x <= inject_Z n)%Q -> Qfloor (x + (1 # 2)) <= n.
Proof.
  intros H. rewrite <- (Qfloor_half n). apply Qfloor_resp_le.
  apply Qplus_le_l. exact H.
Qed.

Lemma round_ge_int (x : Q) (n : Z) : (inject_Z n <= x)%Q -> n <= Qfloor (x + (1 # 2)).
Proof.
  intros H. rewrite <- (Qfloor_half n) at 1. apply Qfloor_resp_le.
  apply Qplus_le_l. exact H.
Qed.

Lemma Qeq_bool_pos (x : Q) : (0 < x)%Q -> Qeq_bool x 0 = false.
Proof.
  intros H. destruct (Qeq_bool x 0) eqn:E; [|reflexivity].
  JsFacts.qprop. rewrite E in H. now apply Qlt_irrefl in H.
Qed.



(** ** Crops for the recognizer *)

Lemma canvasLength_floor (fallback : Z) (q : Q) :
  (0 <= q)%Q -> (q < inject_Z 2147483648)%Q ->
  canvasLength fallback (Js.Num q) = Js.of_Z (Qfloor q) /\
  0 <= Qfloor q <= 2147483647.
Proof.
  intros H0 H1.
  assert (Hf0 : 0 <= Qfloor q).
  { rewrite <- (Qfloor_Z 0). now apply Qfloor_resp_le. }
  assert (Hf1 : Qfloor q < 2147483648).
  { rewrite Zlt_Qlt. eapply Qle_lt_trans; [apply Qfloor_le | exact H1]. }
  split; [|lia].
  unfold canvasLength.
  assert (Hq : Z.quot (Qnum q) (Zpos (Qden q)) = Qfloor q).
  { destruct q as [num den]. cbn [Qnum Qden Qfloor].
    apply Z.quot_div_nonneg; [|lia].
    unfold Qle in H0. cbn in H0. lia. }
  rewrite Hq, Z.mod_small by lia.
  replace (Qfloor q <=? 2147483647) with true by (symmetry; apply Z.leb_le; lia).
  reflexivity.
Qed.

Lemma canvasLength_of_Z (fallback n : Z) :
  0 <= n < 2147483648 -> canvasLength fallback (Js.of_Z n) = Js.of_Z n.
Proof.
  intros Hn. unfold Js.of_Z.
  destruct (canvasLength_floor fallback (inject_Z n)) as [-> _].
  - change 0%Q with (inject_Z 0). rewrite <- Zle_Qle. lia.
  - rewrite <- Zlt_Qlt. lia.
  - now rewrite Qfloor_Z.
Qed.

Lemma eqb_of_Z (a b : Z) : Js.eqb (Js.of_Z a) (Js.of_Z b) = (a =? b).
Proof.
  unfold Js.of_Z. cbn [Js.eqb].
  destruct (Z.eqb_spec a b) as [->|Hne].
  - apply Qeq_bool_iff. reflexivity.
  - apply not_true_iff_false. intros E. apply Qeq_bool_iff in E.
    apply Hne. unfold Qeq, inject_Z in E. cbn in E. lia.
Qed.

Lemma round_near_ge (x : Q) (n : Z) :
  (inject_Z n - (1 # 2) <= x)%Q -> n <= Qfloor (x + (1 # 2)).
Proof.
  intros H. rewrite <- (Qfloor_Z n). apply Qfloor_resp_le. lra.
Qed.

Lemma round_near_le (x : Q) (n : Z) :
  (x < inject_Z n + (1 # 2))%Q -> Qfloor (x + (1 # 2)) <= n.
Proof.
  intros H. pose proof (Qfloor_le (x + (1 # 2))) as Hf.
  assert (Hlt : (inject_Z (Qfloor (x + (1 # 2))) < inject_Z (n + 1))%Q).
  { rewrite inject_Z_plus. change (inject_Z 1) with 1%Q. lra. }
  rewrite <- Zlt_Qlt in Hlt. lia.
Qed.

(** The relative error of one rounding, as a literal: 2^-53. *)
Definition e53 : Q := 1 # 9007199254740992.

Lemma double_mid (x : Q) :
  ((1 # 1099511627776) <= x)%Q -> (x <= 1099511627776)%Q ->
  exists r, Js.double x = Js.Num r /\
            (x * (1 - e53) <= r)%Q /\ (r <= x * (1 + e53))%Q.
Proof.
  intros Hlo Hhi. apply FloatFacts.double_pos.
  - eapply Qle_trans; [|exact Hlo].
    assert (E : ((1 # 1099511627776) == Js.pow2 (-40))%Q) by reflexivity.
    rewrite E. apply FloatFacts.pow2_le. lia.
  - eapply Qle_trans; [exact Hhi|].
    assert (E : (1099511627776 == Js.pow2 40)%Q) by reflexivity.
    rewrite E. apply FloatFacts.pow2_le. lia.
Qed.

Lemma fdiv_of_Z (a b : Z) :
  0 < b -> Js.fdiv (Js.of_Z a) (Js.of_Z b) = Js.double (inject_Z a / inject_Z b).
Proof.
  intros Hb. unfold Js.fdiv, Js.of_Z. cbn [Js.div].
  rewrite Qeq_bool_pos; [reflexivity|].
  change 0%Q with (inject_Z 0). rewrite <- Zlt_Qlt. exact Hb.
Qed.

Lemma ratio_bounds (a b lo hi : Z) :
  0 < b -> lo * b <= a -> a <= hi * b ->
  (inject_Z lo <= inject_Z a / inject_Z b)%Q /\
  (inject_Z a / inject_Z b <= inject_Z hi)%Q.
Proof.
  intros Hb Hlo Hhi.
  assert (Hbq : (0 < inject_Z b)%Q)
    by (change 0%Q with (inject_Z 0); rewrite <- Zlt_Qlt; exact Hb).
  split.
  - apply Qle_shift_div_l; [exact Hbq|]. rewrite <- inject_Z_mult, <- Zle_Qle. exact Hlo.
  - apply Qle_shift_div_r; [exact Hbq|]. rewrite <- inject_Z_mult, <- Zle_Qle. exact Hhi.
Qed.

Lemma fmul_of_Z (a : Z) (q : Q) :
  Js.fmul (Js.of_Z a) (Js.Num q) = Js.double (inject_Z a * q).
Proof. reflexivity. Qed.

Lemma gtb_of_Z (a b : Z) : (Js.of_Z a >? Js.of_Z b)%js = (b <? a).
Proof.
  unfold Js.gtb, Js.of_Z. cbn [Js.ltb].
  destruct (Z.ltb_spec b a) as [H | H].
  - apply JsFacts.Qltb_lt. rewrite <- Zlt_Qlt. exact H.
  - apply JsFacts.Qltb_ge. rewrite <- Zle_Qle. exact H.
Qed.

(** The sizes [preprocessCropForRecognition] computes for a crop of [w]
    by [h] pixels that is at least as wide as tall. *)
Lemma crop_resize (w h : Z) :
  1 <= h -> h <= w -> w < 2147483648 ->
  match preprocessCropForRecognition (Js.of_Z w) (Js.of_Z h) with
  | Return input =>
      w < 1921 * h /\
      exists ew nh : Z,
        effectiveWidth input = Js.of_Z ew /\ resizedHeight input = Js.of_Z nh /\
        32 <= ew <= 960 /\ 1 <= nh <= 32 /\
        cropWidth input = Js.of_Z w /\ cropHeight input = Js.of_Z h
  | Throw e => e = InvalidStateError /\ 1920 * h < w
  end.
Proof.
  intros Hh Hwh Hw.
  unfold preprocessCropForRecognition, RECOGNIZE_INPUT_WIDTH, RECOGNIZE_INPUT_HEIGHT.
  cbv zeta.
  assert (Hempty : emptyCanvas (Js.of_Z w) (Js.of_Z h) = false).
  { unfold emptyCanvas. rewrite !eqb_of_Z.
    apply orb_false_iff. split; apply Z.eqb_neq; lia. }
  rewrite Hempty.
  rewrite fdiv_of_Z by lia.
  set (X1 := (inject_Z 32 / inject_Z h)%Q).
  destruct (ratio_bounds 32 h 0 32) as [X1lo X1hi]; [lia | lia | lia |]. fold X1 in X1lo, X1hi.
  assert (Hhq : (0 < inject_Z h)%Q)
    by (change 0%Q with (inject_Z 0); rewrite <- Zlt_Qlt; lia).
  assert (Hwq : (0 < inject_Z w)%Q)
    by (change 0%Q with (inject_Z 0); rewrite <- Zlt_Qlt; lia).
  assert (X1min : ((1 # 1099511627776) <= X1)%Q).
  { unfold X1. apply Qle_shift_div_l; [exact Hhq|].
    assert (inject_Z h <= inject_Z 2147483648)%Q by (rewrite <- Zle_Qle; lia).
    change (inject_Z 2147483648) with 2147483648%Q in *.
    change (inject_Z 32) with 32%Q. lra. }
  destruct (double_mid X1) as (q1 & -> & L1 & U1);
    [exact X1min | change (inject_Z 32) with 32%Q in X1hi; lra |].
  rewrite fmul_of_Z.
  set (t := (inject_Z w * X1)%Q).
  assert (Et : (t == inject_Z (32 * w) / inject_Z h)%Q).
  { unfold t, X1. rewrite inject_Z_mult. field. lra. }
  assert (Hq1pos : (0 < q1)%Q) by (unfold e53 in L1; lra).
  assert (X2lo : (t * (1 - e53) <= inject_Z w * q1)%Q).
  { unfold t. rewrite <- Qmult_assoc. apply Qmult_le_l; assumption. }
  assert (X2hi : (inject_Z w * q1 <= t * (1 + e53))%Q).
  { unfold t. rewrite <- Qmult_assoc. apply Qmult_le_l; assumption. }
  destruct (ratio_bounds (32 * w) h 32 68719476736) as [tlo thi]; [lia | lia | lia |].
  rewrite <- Et in tlo, thi.
  change (inject_Z 32) with 32%Q in tlo.
  change (inject_Z 68719476736) with 68719476736%Q in thi.
  set (X2 := (inject_Z w * q1)%Q) in *.
  destruct (double_mid X2) as (p & -> & L2 & U2);
    [unfold e53 in *; lra | unfold e53 in *; lra |].
  cbn [round].
  set (k := Qfloor (p + (1 # 2))).
  assert (Hk32 : 32 <= k).
  { apply round_near_ge. change (inject_Z 32) with 32%Q. unfold e53 in *. lra. }
  assert (Hkmax : k <= 68719476737).
  { apply round_near_le. change (inject_Z 68719476737) with 68719476737%Q.
    unfold e53 in *. lra. }
  assert (Hsmall : w <= 1920 * h -> k <= 61440).
  { intros Hle. apply round_near_le.
    destruct (ratio_bounds (32 * w) h 32 61440) as [_ thi']; [lia | lia | lia |].
    rewrite <- Et in thi'. change (inject_Z 61440) with 61440%Q in *.
    unfold e53 in *. lra. }
  assert (Hlarge : 1921 * h <= w -> 61441 <= k).
  { intros Hle. apply round_near_ge.
    destruct (ratio_bounds (32 * w) h 61472 68719476736) as [tlo' _]; [lia | lia | lia |].
    rewrite <- Et in tlo'. change (inject_Z 61472) with 61472%Q in *.
    change (inject_Z 61441) with 61441%Q. unfold e53 in *. lra. }
  fold (Js.of_Z k). rewrite gtb_of_Z.
  destruct (Z.ltb_spec 960 k) as [Hwide | Hfit].
  - (* scaled down to the input width *)
    rewrite fdiv_of_Z by lia.
    set (Y1 := (inject_Z 960 / inject_Z k)%Q).
    assert (Hkq : (0 < inject_Z k)%Q)
      by (change 0%Q with (inject_Z 0); rewrite <- Zlt_Qlt; lia).
    destruct (ratio_bounds 960 k 0 1) as [Y1lo Y1hi]; [lia | lia | lia |].
    fold Y1 in Y1lo, Y1hi. change (inject_Z 1) with 1%Q in Y1hi.
    assert (Y1min : ((1 # 1099511627776) <= Y1)%Q).
    { unfold Y1. apply Qle_shift_div_l; [exact Hkq|].
      assert (inject_Z k <= inject_Z 68719476737)%Q by (rewrite <- Zle_Qle; lia).
      change (inject_Z 68719476737) with 68719476737%Q in *.
      change (inject_Z 960) with 960%Q. lra. }
    destruct (Z.eq_dec k 61440) as [Ek | Hne].
    + (* the boundary: 960 / 61440 and 32 / 64 are exact *)
      assert (Es : Js.double Y1 = Js.Num (1 # 64)).
      { unfold Y1. rewrite Ek.
        rewrite (FloatFacts.round_to_same 53 (-1074) 1024 _ (1 # 64)) by reflexivity.
        vm_compute. reflexivity. }
      rewrite Es, fmul_of_Z.
      assert (Ep : Js.double (inject_Z 32 * (1 # 64)) = Js.Num (1 # 2))
        by (vm_compute; reflexivity).
      rewrite Ep. cbn [round].
      change (Qfloor ((1 # 2) + (1 # 2))) with 1.
      rewrite !canvasLength_of_Z by lia.
      unfold emptyCanvas. rewrite !eqb_of_Z. cbn [Z.eqb orb].
      split.
      * destruct (Z_lt_le_dec w (1921 * h)) as [|Hge]; [assumption|].
        specialize (Hlarge Hge). lia.
      * exists 960, 1. repeat split; lia.
    + destruct (double_mid Y1) as (s & -> & L3 & U3); [exact Y1min | lra |].
      rewrite fmul_of_Z.
      set (Y2 := (inject_Z 32 * s)%Q).
      change (inject_Z 32) with 32%Q in Y2.
      assert (Hspos : (0 < s)%Q) by (unfold e53 in *; lra).
      destruct (double_mid Y2) as (p2 & -> & L4 & U4);
        [unfold Y2, e53 in *; lra | unfold Y2, e53 in *; lra |].
      cbn [round].
      set (nh := Qfloor (p2 + (1 # 2))).
      assert (Hnh32 : nh <= 32).
      { apply round_near_le. change (inject_Z 32) with 32%Q.
        unfold Y2, e53 in *. lra. }
      assert (Hnh0 : 0 <= nh).
      { apply round_near_ge. change (inject_Z 0) with 0%Q.
        unfold Y2, e53 in *. lra. }
      change (Js.Num (inject_Z nh)) with (Js.of_Z nh).
      rewrite !canvasLength_of_Z by lia.
      unfold emptyCanvas. rewrite !eqb_of_Z. cbn [Z.eqb orb].
      destruct (Z.eqb_spec nh 0) as [Ez | Hnz]; cbn [orb].
      * (* the resized crop has no rows *)
        split; [reflexivity|].
        destruct (Z_lt_le_dec (1920 * h) w) as [|Hle]; [assumption|]. exfalso.
        specialize (Hsmall Hle).
        assert (Hk : k <= 61439) by lia.
        destruct (ratio_bounds 61439 k 1 61439) as [_ Hr]; [lia | lia | lia |].
        assert (HY : ((960 # 61439) <= Y1)%Q).
        { unfold Y1. apply Qle_shift_div_l; [exact Hkq|].
          assert (inject_Z k <= inject_Z 61439)%Q by (rewrite <- Zle_Qle; lia).
          change (inject_Z 61439) with 61439%Q in *.
          change (inject_Z 960) with 960%Q. lra. }
        assert (1 <= nh); [|lia].
        apply round_near_ge. change (inject_Z 1) with 1%Q.
        unfold Y2, e53 in *. lra.
      * split.
        -- destruct (Z_lt_le_dec w (1921 * h)) as [|Hge]; [assumption|]. exfalso.
           specialize (Hlarge Hge).
           assert (HY : (Y1 <= (960 # 61441))%Q).
           { unfold Y1. apply Qle_shift_div_r; [exact Hkq|].
             assert (inject_Z 61441 <= inject_Z k)%Q by (rewrite <- Zle_Qle; lia).
             change (inject_Z 61441) with 61441%Q in *.
             change (inject_Z 960) with 960%Q. lra. }
           assert (nh <= 0); [|lia].
           apply round_near_le. change (inject_Z 0) with 0%Q.
           unfold Y2, e53 in *. lra.
        -- exists 960, nh. repeat split; lia.
  - (* the crop fits as it is *)
    rewrite !canvasLength_of_Z by lia.
    unfold emptyCanvas. rewrite !eqb_of_Z.
    replace (k =? 0) with false by (symmetry; apply Z.eqb_neq; lia).
    cbn [Z.eqb orb].
    split.
    + destruct (Z_lt_le_dec w (1921 * h)) as [|Hge]; [assumption|].
      specialize (Hlarge Hge). lia.
    + exists k, 32. repeat split; lia.
Qed.

(** A box with whole-number corners, at least one pixel high and less
    than 2^31 wide, is cropped exactly when it is wider than tall, and the
    crop canvas has its size.  Preprocessing the crop then either returns,
    with a content width that is a whole number between 32 and 960 and a
    resized height between 1 and 32, so that the decoder divides by a
    finite width that is not zero; or it throws because the resized crop
    has no rows left.  It returns for every crop at most 1920 times as
    wide as tall and throws for every crop at least 1921 times as wide. *)
Theorem accepted_crop_fits (box : Box) (x1 y1 x2 y2 : Z) :
  bx1 box = Js.of_Z x1 -> by1 box = Js.of_Z y1 ->
  bx2 box = Js.of_Z x2 -> by2 box = Js.of_Z y2 ->
  1 <= y2 - y1 -> x2 - x1 < 2147483648 ->
  match cropBox box with
  | None => x2 - x1 <= y2 - y1
  | Some (width, height) =>
      y2 - y1 < x2 - x1 /\
      width = Js.of_Z (x2 - x1) /\ height = Js.of_Z (y2 - y1) /\
      match preprocessCropForRecognition width height with
      | Return input =>
          x2 - x1 < 1921 * (y2 - y1) /\
          exists ew nh : Z,
            effectiveWidth input = Js.of_Z ew /\ resizedHeight input = Js.of_Z nh /\
            32 <= ew <= 960 /\ 1 <= nh <= 32 /\
            cropWidth input = width /\ cropHeight input = height /\
            Js.is_finite (effectiveWidth input) = true /\
            Js.truthy (effectiveWidth input) = true
      | Throw e => e = InvalidStateError /\ 1920 * (y2 - y1) < x2 - x1
      end
  end.
Proof.
  intros Hx1 Hy1 Hx2 Hy2 Hpos Hbig. unfold cropBox. rewrite Hx1, Hy1, Hx2, Hy2.
  unfold Js.of_Z. cbn [Js.sub Js.leb].
  assert (Ew : (inject_Z x2 - inject_Z x1 == inject_Z (x2 - x1))%Q)
    by (unfold Zminus; rewrite inject_Z_plus, inject_Z_opp; reflexivity).
  assert (Eh : (inject_Z y2 - inject_Z y1 == inject_Z (y2 - y1))%Q)
    by (unfold Zminus; rewrite inject_Z_plus, inject_Z_opp; reflexivity).
  destruct (Qle_bool (inject_Z x2 - inject_Z x1) (inject_Z y2 - inject_Z y1)) eqn:E;
    JsFacts.qprop; rewrite Ew, Eh in E.
  - now rewrite <- Zle_Qle in E.
  - rewrite <- Zlt_Qlt in E. split; [exact E|].
    assert (Cw : canvasLength 300 (Js.Num (inject_Z x2 - inject_Z x1)) = Js.of_Z (x2 - x1)).
    { destruct (canvasLength_floor 300 (inject_Z x2 - inject_Z x1)) as [-> _].
      - rewrite Ew. change 0%Q with (inject_Z 0). rewrite <- Zle_Qle. lia.
      - rewrite Ew, <- Zlt_Qlt. lia.
      - now rewrite (Qfloor_comp _ _ Ew), Qfloor_Z. }
    assert (Ch : canvasLength 150 (Js.Num (inject_Z y2 - inject_Z y1)) = Js.of_Z (y2 - y1)).
    { destruct (canvasLength_floor 150 (inject_Z y2 - inject_Z y1)) as [-> _].
      - rewrite Eh. change 0%Q with (inject_Z 0). rewrite <- Zle_Qle. lia.
      - rewrite Eh, <- Zlt_Qlt. lia.
      - now rewrite (Qfloor_comp _ _ Eh), Qfloor_Z. }
    rewrite Cw, Ch. split; [reflexivity|]. split; [reflexivity|].
    pose proof (crop_resize (x2 - x1) (y2 - y1) ltac:(lia) ltac:(lia) ltac:(lia)) as H.
    destruct (preprocessCropForRecognition (Js.of_Z (x2 - x1)) (Js.of_Z (y2 - y1)))
      as [input | e]; [|exact H].
    destruct H as (Hratio & ew & nh & Hew & Hnh & Hewr & Hnhr & Hcw & Hch).
    split; [exact Hratio|]. exists ew, nh.
    repeat split; try assumption; try lia.
    + now rewrite Hew.
    + rewrite Hew. unfold Js.of_Z. cbn [Js.truthy].
      apply negb_true_iff, Qeq_bool_pos.
      change 0%Q with (inject_Z 0). rewrite <- Zlt_Qlt. lia.
Qed.

Lemma accepted_crop_fits_witness :
  let box := DetectionFacts.mkBox 0 0 300 20 in
  match cropBox box with
  | None => False
  | Some (width, height) =>
      match preprocessCropForRecognition width height with
      | Return input => Js.truthy (effectiveWidth input) = true
      | Throw _ => False
      end
  end.
Proof.
  pose proof (accepted_crop_fits (DetectionFacts.mkBox 0 0 300 20) 0 0 300 20
                eq_refl eq_refl eq_refl eq_refl ltac:(lia) ltac:(lia)) as H.
  cbv zeta. destruct (cropBox (DetectionFacts.mkBox 0 0 300 20)) as [[width height]|] eqn:E.
  - destruct H as (_ & _ & _ & H).
    destruct (preprocessCropForRecognition width height) as [input | e].
    + destruct H as (_ & ew & nh & _ & _ & _ & _ & _ & _ & _ & Ht). exact Ht.
    + destruct H as [_ H]. simpl in H. lia.
  - vm_compute in E. discriminate E.
Defined.

(** ** The pipeline *)

(** The line [recognize] records for a region, if any. *)
Definition lineOf (recognizeRegion : Box -> outcome (list Z)) (region : Region)
  : option Line :=
  match recognizeRegion (box region) with
  | Return (c :: t) =>
      Some {| text := c :: t; lineBox := box region; confidence := score region |}
  | _ => None
  end.

Lemma recognizeLines_spec (recognizeRegion : Box -> outcome (list Z))
    (detected : list Region) :
  match recognizeLines recognizeRegion detected with
  | Return ls =>
      Forall (fun region => exists t, recognizeRegion (box region) = Return t) detected /\
      ls = omap (lineOf recognizeRegion) detected
  | Throw e =>
      exists region, region ∈ detected /\ recognizeRegion (box region) = Throw e
  end.
Proof.
  induction detected as [|region rest IH]; cbn [recognizeLines].
  - split; [constructor | reflexivity].
  - destruct (recognizeRegion (box region)) as [t|e] eqn:E; cbn [mbind outcome_bind].
    + destruct (recognizeLines recognizeRegion rest) as [tail|e]; cbn [mbind outcome_bind].
      * destruct IH as [Hall ->]. split.
        -- constructor; [now exists t | exact Hall].
        -- cbn [omap list_omap]. unfold lineOf. rewrite E. now destruct t.
      * destruct IH as (r & Hr & He). exists r. split; [now right | exact He].
    + exists region. split; [now left | exact E].
Qed.

Lemma omap_length_le {A B : Type} (f : A -> option B) (l : list A) :
  (length (omap f l) <= length l)%nat.
Proof.
  induction l as [|x l IH]; cbn [omap list_omap length]; [lia|].
  destruct (f x); cbn [length]; lia.
Qed.

(** A pass either fails as a whole, with the error of a region whose
    recognition threw (or of the detection), or returns: then every region
    was recognized, [lines] holds, in detection order, exactly the regions
    with a text that is not empty, the text is their texts joined by line
    breaks, and [regionCount] counts all detected regions. *)
Theorem recognize_all_or_nothing (detected : list Region)
    (recognizeRegion : Box -> outcome (list Z)) :
  match recognize true (Return detected) recognizeRegion with
  | inr r =>
      regionCount r = length detected /\
      Forall (fun region => exists t, recognizeRegion (box region) = Return t) detected /\
      lines r = omap (lineOf recognizeRegion) detected /\
      Forall (fun l => text l <> []) (lines r) /\
      (length (lines r) <= regionCount r)%nat /\
      finalText r = join [10] (map text (lines r))
  | inl (OcrFailed e) =>
      exists region, region ∈ detected /\ recognizeRegion (box region) = Throw e
  | inl NotReady => False
  end.
Proof.
  unfold recognize. cbn [negb mbind outcome_bind].
  destruct detected as [|region rest].
  - cbn. repeat split; constructor.
  - cbn [length Nat.eqb].
    pose proof (recognizeLines_spec recognizeRegion (region :: rest)) as Hspec.
    destruct (recognizeLines recognizeRegion (region :: rest)) as [ls|e];
      cbn [mbind outcome_bind]; [|exact Hspec].
    destruct Hspec as [Hall ->]. cbn [regionCount lines finalText].
    split; [reflexivity|]. split; [exact Hall|]. split; [reflexivity|].
    split; [|split; [apply (omap_length_le _ (region :: rest)) | reflexivity]].
    apply Forall_forall. intros l Hl.
    apply list_elem_of_omap in Hl as (r & _ & Hr).
    unfold lineOf in Hr. destruct (recognizeRegion (box r)) as [[|c t]|]; try discriminate.
    injection Hr as <-. discriminate.
Qed.

(** A region that is not wider than tall.  [NaN] on either side fails the
    test, as in the code. *)
Definition upright (region : Region) : Prop :=
  (bx2 (box region) - bx1 (box region) <=? by2 (box region) - by1 (box region))%js = true.

(** Regions that are not wider than tall are skipped without running the
    recognizer: the pass succeeds with no lines and empty text, whatever
    the engine would do.  Without a recognition session the first region
    makes the pass fail. *)
Theorem upright_regions_give_no_text
    (engine : Box -> outcome (list Z * list Js.number * list Js.number))
    (detected : list Region) :
  Forall upright detected ->
  recognize true (Return detected) (recognizeTextRegion true engine)
  = inr {| finalText := []; lines := []; regionCount := length detected |} /\
  (detected <> [] ->
   recognize true (Return detected) (recognizeTextRegion false engine)
   = inl (OcrFailed NotInitialized)).
Proof.
  intros Hup. split.
  - assert (Hlines : recognizeLines (recognizeTextRegion true engine) detected = Return []).
    { induction Hup as [|region rest Hr _ IH]; [reflexivity|].
      assert (Hskip : recognizeTextRegion true engine (box region) = Return []).
      { unfold recognizeTextRegion, cropBox. cbn [negb]. unfold upright in Hr.
        now rewrite Hr. }
      cbn [recognizeLines]. rewrite Hskip, IH. reflexivity. }
    unfold recognize. cbn [negb mbind outcome_bind].
    destruct detected as [|region rest]; [reflexivity|].
    cbn [length Nat.eqb]. rewrite Hlines. reflexivity.
  - intros Hne. destruct detected as [|region rest]; [congruence|]. reflexivity.
Qed.

Lemma upright_regions_give_no_text_witness :
  recognize true
    (Return [{| box := DetectionFacts.mkBox 0 0 10 20; score := dec 9 10 |}])
    (recognizeTextRegion true (fun _ => Throw TypeError))
  = inr {| finalText := []; lines := []; regionCount := 1 |}.
Proof.
  apply (upright_regions_give_no_text (fun _ => Throw TypeError)
           [{| box := DetectionFacts.mkBox 0 0 10 20; score := dec 9 10 |}]).
  repeat constructor.
Defined.

End PipelineFacts.

(* ===================================================================== *)
(** * Facts about the engine input *)
(* ===================================================================== *)

Module TensorLayoutFacts.

Import TensorLayout.

Section Fill.

Variable pixels : nat.
Variable data : list Z.

(** The tensor after the first [k] turns of the loop. *)
Definition filled (k : nat) : list Js.number :=
  foldl (fill_step pixels data) (replicate (3 * pixels) (Js.of_Z 0)) (seq 0 k).

Lemma filled_S (k : nat) : filled (S k) = fill_step pixels data (filled k) k.
Proof. unfold filled. now rewrite seq_S, foldl_app. Qed.

Lemma length_filled (k : nat) : length (filled k) = (3 * pixels)%nat.
Proof.
  induction k as [|k IH]; [apply length_replicate|].
  rewrite filled_S. unfold fill_step. now rewrite !length_insert.
Qed.

Lemma filled_plane (k c i : nat) :
  (k <= pixels)%nat -> (c < 3)%nat -> (i < pixels)%nat ->
  filled k !! (c * pixels + i)%nat
  = Some (if decide (i < k)%nat then normalized data (i * 4 + c) else Js.of_Z 0).
Proof.
  intros Hk Hc Hi. revert Hk.
  assert (c = 0 \/ c = 1 \/ c = 2)%nat as Hcases by lia.
  induction k as [|k IH]; intros Hk.
  - unfold filled. cbn [seq foldl].
    rewrite lookup_replicate_2 by (destruct Hcases as [-> | [-> | ->]]; lia).
    now destruct (decide (i < 0)%nat); [lia|].
  - rewrite filled_S. unfold fill_step. cbv zeta.
    specialize (IH ltac:(lia)).
    pose proof (length_filled k) as Hlen.
    destruct (decide (i = k)) as [->|Hne].
    + destruct (decide (k < S k)%nat); [|lia].
      destruct Hcases as [-> | [-> | ->]].
      * rewrite list_lookup_insert_ne by lia. rewrite list_lookup_insert_ne by lia.
        rewrite list_lookup_insert_eq by lia. do 2 f_equal. lia.
      * rewrite list_lookup_insert_ne by lia.
        replace (1 * pixels + k)%nat with (pixels + k)%nat by lia.
        rewrite list_lookup_insert_eq by (rewrite length_insert; lia). reflexivity.
      * rewrite list_lookup_insert_eq by (rewrite !length_insert; lia). reflexivity.
    + rewrite !list_lookup_insert_ne by (destruct Hcases as [-> | [-> | ->]]; lia).
      rewrite IH.
      destruct (decide (i < k)%nat), (decide (i < S k)%nat); try lia; reflexivity.
Qed.

End Fill.

(** The value stored for a byte, checked against the quotient it
    approximates. *)
Definition stored_ok (b : Z) : bool :=
  match Js.fround (Js.fdiv (Js.of_Z b) (Js.of_Z 255)) with
  | Js.Num q =>
      Qle_bool 0 q && Qle_bool q 1 &&
      Qle_bool (Qabs (q - (b # 255))) (1 # 33554432)
  | _ => false
  end.

Definition bytes : list Z := map Z.of_nat (seq 0 256).

Lemma bytes_all (b : Z) : 0 <= b <= 255 -> b ∈ bytes.
Proof.
  intros H. unfold bytes. apply list_elem_of_fmap.
  exists (Z.to_nat b). split; [lia|]. apply elem_of_seq. lia.
Qed.

(** Each of the 256 byte values is stored as a number between 0 and 1
    that differs from [b / 255] by at most 2^-25. *)
Lemma normalized_unit (data : list Z) (k : nat) (b : Z) :
  data !! k = Some b -> 0 <= b <= 255 ->
  exists q, normalized data k = Js.Num q /\ (0 <= q <= 1)%Q /\
            (Qabs (q - (b # 255)) <= 1 # 33554432)%Q.
Proof.
  intros Hk Hb. unfold normalized, ChangeDetector.channel. rewrite Hk.
  assert (Hall : forallb stored_ok bytes = true) by (vm_compute; reflexivity).
  rewrite forallb_forall in Hall.
  specialize (Hall b). rewrite <- list_elem_of_In in Hall.
  specialize (Hall (bytes_all b Hb)). unfold stored_ok in Hall.
  destruct (Js.fround (Js.fdiv (Js.of_Z b) (Js.of_Z 255))) as [| |q|]; try discriminate.
  apply andb_true_iff in Hall as [Hall H3]. apply andb_true_iff in Hall as [H1 H2].
  apply Qle_bool_iff in H1, H2, H3.
  exists q. split; [reflexivity|]. split; [split; assumption | exact H3].
Qed.

(** The loop turns interleaved pixels into three planes: the tensor has
    three entries per pixel, and entry [c * pixels + i] holds channel [c]
    of pixel [i] (red, green, blue; not alpha) divided by 255 and rounded
    to single precision.  For image bytes every entry lies between 0 and
    1 and is within 2^-25 of the exact quotient. *)
Theorem tensor_is_planar (pixels : nat) (data : list Z) :
  length data = (4 * pixels)%nat ->
  Forall (fun b => 0 <= b <= 255) data ->
  length (toTensor pixels data) = (3 * pixels)%nat /\
  (forall c i, (c < 3)%nat -> (i < pixels)%nat ->
     toTensor pixels data !! (c * pixels + i)%nat = Some (normalized data (4 * i + c)) /\
     exists b q, data !! (4 * i + c)%nat = Some b /\
                 normalized data (4 * i + c) = Js.Num q /\
                 (Qabs (q - (b # 255)) <= 1 # 33554432)%Q) /\
  Forall (fun x => exists q, x = Js.Num q /\ (0 <= q <= 1)%Q) (toTensor pixels data).
Proof.
  intros Hlen Hbytes.
  assert (Hat : forall c i, (c < 3)%nat -> (i < pixels)%nat ->
     toTensor pixels data !! (c * pixels + i)%nat = Some (normalized data (4 * i + c))).
  { intros c i Hc Hi. change (toTensor pixels data) with (filled pixels data pixels).
    rewrite filled_plane by lia. destruct (decide (i < pixels)%nat); [|lia].
    do 2 f_equal. lia. }
  assert (Hval : forall k, (k < 4 * pixels)%nat ->
            exists b q, data !! k = Some b /\ normalized data k = Js.Num q /\
                        (0 <= q <= 1)%Q /\ (Qabs (q - (b # 255)) <= 1 # 33554432)%Q).
  { intros k Hk. destruct (lookup_lt_is_Some_2 data k) as [b Hb]; [lia|].
    rewrite Forall_lookup in Hbytes.
    destruct (normalized_unit data k b Hb (Hbytes _ _ Hb)) as (q & Hq & Hr & He).
    exists b, q. repeat split; try assumption; apply Hr. }
  pose proof (length_filled pixels data pixels) as Hl.
  change (filled pixels data pixels) with (toTensor pixels data) in Hl.
  split; [exact Hl|]. split.
  - intros c i Hc Hi. split; [now apply Hat|].
    destruct (Hval (4 * i + c)%nat ltac:(lia)) as (b & q & Hb & Hq & _ & He).
    exists b, q. repeat split; assumption.
  - apply Forall_lookup. intros j x Hj.
    assert (Hjlt : (j < 3 * pixels)%nat) by (rewrite <- Hl; apply lookup_lt_is_Some; eauto).
    assert (Hpos : (0 < pixels)%nat) by lia.
    pose proof (Nat.div_mod_eq j pixels) as Hdm.
    pose proof (Nat.mod_upper_bound j pixels ltac:(lia)) as Hm.
    assert (Hc : (j / pixels < 3)%nat) by (apply Nat.Div0.div_lt_upper_bound; lia).
    specialize (Hat (j / pixels)%nat (j mod pixels)%nat Hc Hm).
    replace (j / pixels * pixels + j mod pixels)%nat with j in Hat by lia.
    rewrite Hj in Hat. injection Hat as ->.
    destruct (Hval (4 * (j mod pixels) + j / pixels)%nat ltac:(lia))
      as (b & q & _ & Hq & Hr & _).
    exists q. split; [exact Hq | exact Hr].
Qed.

Lemma tensor_is_planar_witness :
  length (toTensor 2 [255; 0; 51; 255; 0; 102; 255; 255]) = 6%nat /\
  toTensor 2 [255; 0; 51; 255; 0; 102; 255; 255] !! 3%nat
  = Some (Js.Num (13421773 # 33554432)).
Proof.
  destruct (tensor_is_planar 2 [255; 0; 51; 255; 0; 102; 255; 255]) as (H1 & H2 & _);
    [reflexivity | repeat constructor; lia |].
  split; [exact H1|].
  destruct (H2 1%nat 1%nat) as [H _]; [lia | lia |].
  change (1 * 2 + 1)%nat with 3%nat in H.
  rewrite H. vm_compute. reflexivity.
Defined.

End TensorLayoutFacts.

(* ===================================================================== *)
(** * One OCR pass at a time *)
(* ===================================================================== *)

Module AppMore.

Import App.

(** The passes that finish during a run: settlements that find the busy
    flag raised. *)
Fixpoint completed (a : t) (es : list event) : nat :=
  match es with
  | [] => 0
  | e :: rest =>
      (match e with
       | OcrSettled _ => if isProcessing a then 1 else 0
       | _ => 0
       end + completed (step a e) rest)%nat
  end.

Definition inFlight (a : t) : nat := if isProcessing a then 1%nat else 0%nat.

Lemma step_accounting (a : t) (e : event) :
  (passesStarted (step a e) + inFlight a
   = passesStarted a + inFlight (step a e)
     + match e with OcrSettled _ => if isProcessing a then 1 else 0 | _ => 0 end)%nat.
Proof.
  unfold inFlight. destruct e as [captured | result |]; cbn [step].
  - unfold tick.
    destruct (ChangeDetector.checkFrame _ _ _) as [d fired].
    destruct fired; [|cbn; destruct (isProcessing a); lia].
    unfold performOCR_begin. cbn [set_detector isProcessing captureInitialized passesStarted].
    destruct (isProcessing a) eqn:Ep; cbn; [rewrite Ep; lia|].
    destruct (captureInitialized a); cbn; rewrite ?Ep; lia.
  - destruct (isProcessing a) eqn:Ep; [|rewrite Ep; lia].
    unfold performOCR_end.
    destruct (match result with Some ((_ :: _) as text) => _ | _ => _ end) as [ls shown].
    cbn. lia.
  - cbn. destruct (isProcessing a); lia.
Qed.

(** A settled pass filters and shows the whole recognized line, a line of
    one character included. *)
Example settled_pass_shows_whole_line :
  let busy := performOCR_begin linked in
  (displayed (performOCR_end busy (Some [12354; 12356; 10; 12358]))
   = [[12354; 12356; 12358]]) /\
  (displayed (performOCR_end busy (Some [12354])) = [[12354]]) /\
  (recentLines (performOCR_end busy (Some [12354])) = [[12354]]) /\
  (displayed (performOCR_end busy (Some [])) = []) /\
  (displayed (performOCR_end busy None) = []).
Proof. vm_compute. repeat split; reflexivity. Qed.

(** At every moment the passes started are the passes finished plus the
    one in flight, if any: a pass starts only when none is in flight, so
    passes never overlap and triggers that arrive meanwhile are dropped. *)
Theorem passes_never_overlap (a : t) (es : list event) :
  (passesStarted (steps a es) + inFlight a
   = passesStarted a + completed a es + inFlight (steps a es))%nat.
Proof.
  revert a. induction es as [|e es IH]; intros a; cbn [steps foldl completed].
  - lia.
  - fold (steps (step a e) es). specialize (IH (step a e)).
    pose proof (step_accounting a e) as H. lia.
Qed.

End AppMore.

(* ===================================================================== *)
(** * Facts about the timer and the stored lines *)
(* ===================================================================== *)

Module TimerFacts.

Import Timer.

(** For a time that is not negative the display shows what was counted:
    hours, minutes below 60 and seconds below 60 that add up to it. *)
Theorem clock_adds_up (elapsed : Z) :
  0 <= elapsed ->
  let '(hours, minutes, seconds) := clock elapsed in
  elapsed = hours * 3600 + minutes * 60 + seconds /\
  0 <= hours /\ 0 <= minutes < 60 /\ 0 <= seconds < 60.
Proof.
  intros H. unfold clock.
  rewrite !Z.rem_mod_nonneg by lia.
  pose proof (Z.div_mod elapsed 3600 ltac:(lia)) as H1.
  pose proof (Z.mod_pos_bound elapsed 3600 ltac:(lia)) as H2.
  pose proof (Z.div_mod (elapsed mod 3600) 60 ltac:(lia)) as H3.
  pose proof (Z.mod_pos_bound (elapsed mod 3600) 60 ltac:(lia)) as H4.
  pose proof (Z.mod_pos_bound elapsed 60 ltac:(lia)) as H5.
  assert (H6 : (elapsed mod 3600) mod 60 = elapsed mod 60).
  { apply Z.mod_mod_divide. exists 60. reflexivity. }
  pose proof (Z.div_pos elapsed 3600 H ltac:(lia)) as H7.
  pose proof (Z.div_pos (elapsed mod 3600) 60 ltac:(lia) ltac:(lia)) as H8.
  assert (H9 : elapsed mod 3600 / 60 < 60) by (apply Z.div_lt_upper_bound; lia).
  repeat split; lia.
Qed.

Lemma clock_adds_up_witness :
  let '(hours, minutes, seconds) := clock 3725 in
  3725 = hours * 3600 + minutes * 60 + seconds /\
  0 <= hours /\ 0 <= minutes < 60 /\ 0 <= seconds < 60.
Proof. apply clock_adds_up. lia. Defined.

(** One interval is live exactly while the timer runs. *)
Definition consistent (s : t) : Prop :=
  intervalId s = isRunning s /\
  liveIntervals s = (if isRunning s then 1 else 0)%nat.

Lemma step_consistent (s : t) (e : event) :
  consistent s -> 0 <= elapsedSeconds s ->
  consistent (step s e) /\ 0 <= elapsedSeconds (step s e).
Proof.
  unfold consistent. destruct s as [running elapsed started id live lastLine].
  cbn [isRunning elapsedSeconds intervalId liveIntervals].
  intros [-> ->] Hpos.
  destruct e as [now | now | now |]; cbn [step].
  - unfold toggle. destruct running; cbn; repeat split; first [reflexivity | lia].
  - destruct running; cbn [liveIntervals Nat.ltb Nat.leb]; [|cbn; repeat split; first [reflexivity | lia]].
    unfold everySecond, checkAfkTimeout.
    cbn [isRunning lastLineAddedTime elapsedSeconds startTime intervalId
         liveIntervals negb orb].
    destruct (negb (truthy_time lastLine)); [cbn; repeat split; first [reflexivity | lia]|].
    destruct (AFK_TIMEOUT <=? _); cbn; repeat split; first [reflexivity | lia].
  - cbn. repeat split; first [reflexivity | lia].
  - unfold reset, pause. cbn. destruct running; cbn; repeat split; first [reflexivity | lia].
Qed.

(** Started with one interval per running timer and a time that is not
    negative, the timer stays that way whatever the user and the clock
    do: no second interval is ever set, the time never drops below zero,
    and a stopped timer does not advance. *)
Theorem timer_stays_consistent (s : t) (es : list event) :
  consistent s -> 0 <= elapsedSeconds s ->
  let s' := foldl step s es in
  consistent s' /\ 0 <= elapsedSeconds s' /\
  (isRunning s' = false -> forall now, step s' (Second now) = s').
Proof.
  revert s. induction es as [|e es IH]; intros s Hc Hpos; cbn [foldl].
  - split; [exact Hc|]. split; [exact Hpos|].
    intros Hstop now. cbn [step]. destruct Hc as [_ ->]. now rewrite Hstop.
  - destruct (step_consistent s e Hc Hpos) as [Hc' Hpos']. now apply IH.
Qed.

Lemma timer_stays_consistent_witness :
  let s' := foldl step declared [Toggle 1000; Second 2000; Second 3000; Toggle 3500] in
  consistent s' /\ 0 <= elapsedSeconds s' /\ elapsedSeconds s' = 2.
Proof.
  destruct (timer_stays_consistent declared
              [Toggle 1000; Second 2000; Second 3000; Toggle 3500])
    as (H1 & H2 & _); [split; reflexivity | simpl; lia |].
  split; [exact H1|]. split; [exact H2 | reflexivity].
Defined.

(** A running timer that saw its last line less than a minute ago counts
    the second and keeps running; once a full minute has passed without a
    line it takes the minute back, never going below zero, and stops. *)
Theorem afk_timeout_after_a_minute (s : t) (now last : Z) :
  isRunning s = true -> lastLineAddedTime s = Some last -> last <> 0 ->
  let s' := everySecond s now in
  (now - last < 60000 ->
   isRunning s' = true /\ elapsedSeconds s' = elapsedSeconds s + 1) /\
  (60000 <= now - last ->
   isRunning s' = false /\ startTime s' = None /\
   elapsedSeconds s' = Z.max 0 (elapsedSeconds s + 1 - 60)).
Proof.
  destruct s as [running elapsed started id live lastLine].
  cbn [isRunning lastLineAddedTime elapsedSeconds].
  intros -> -> Hnz. cbv zeta. unfold everySecond, checkAfkTimeout, AFK_TIMEOUT.
  cbn [isRunning lastLineAddedTime elapsedSeconds startTime intervalId liveIntervals
       negb orb truthy_time default].
  replace (last =? 0) with false by (symmetry; now apply Z.eqb_neq).
  cbn [negb]. split; intros Hgap.
  - assert (E : (60 <=? (now - last) / 1000) = false).
    { apply Z.leb_gt. apply Z.div_lt_upper_bound; lia. }
    cbn. rewrite E. split; reflexivity.
  - assert (E : (60 <=? (now - last) / 1000) = true).
    { apply Z.leb_le. apply Z.div_le_lower_bound; lia. }
    cbn. rewrite E. repeat split; reflexivity.
Qed.

Lemma afk_timeout_after_a_minute_witness :
  let s := start declared 1000 in
  isRunning (everySecond s 61000) = false /\
  elapsedSeconds (everySecond s 61000) = 0.
Proof.
  destruct (afk_timeout_after_a_minute (start declared 1000) 61000 1000)
    as [_ H]; [reflexivity | reflexivity | lia |].
  destruct H as (H1 & _ & H2); [lia|]. split; [exact H1 | exact H2].
Defined.

(** Closing the page and opening it again gives a stopped timer back as
    it was.  A running timer comes back running with one interval, but
    with the whole time since it was started added to the seconds it had
    already counted. *)
Theorem reload_round_trip (s : t) (now : Z) :
  consistent s ->
  lastLineAddedTime s <> Some 0 ->
  let s' := init (Some (saveState s)) now in
  consistent s' /\ isRunning s' = isRunning s /\
  (isRunning s = false -> startTime s = None -> s' = s) /\
  (forall started, isRunning s = true -> startTime s = Some started -> started <> 0 ->
     elapsedSeconds s' = elapsedSeconds s + (now - started) / 1000 /\
     startTime s' = Some now).
Proof.
  unfold consistent. destruct s as [running elapsed started id live lastLine].
  cbn [isRunning elapsedSeconds intervalId liveIntervals startTime lastLineAddedTime].
  intros [-> ->] Hlast. cbv zeta. unfold init, loadState, saveState.
  cbn [s_elapsedSeconds s_isRunning s_startTime s_lastLineAddedTime isRunning].
  assert (Hl : or_null lastLine = lastLine).
  { unfold or_null, truthy_time. destruct lastLine as [v|]; [|reflexivity].
    destruct (Z.eqb_spec v 0) as [->|]; [congruence | reflexivity]. }
  destruct running; cbn [isRunning andb].
  - split; [split; reflexivity|]. split; [reflexivity|]. split; [discriminate|].
    intros t0 _ [= ->] Hnz. unfold start, or_null, truthy_time. cbn.
    assert (E : (t0 =? 0) = false) by now apply Z.eqb_neq.
    rewrite !E. cbn. rewrite ?E. cbn. split; reflexivity.
  - split; [split; reflexivity|]. split; [reflexivity|]. split; [|discriminate].
    intros _ ->. cbn [lastLineAddedTime startTime elapsedSeconds]. rewrite Hl. reflexivity.
Qed.

Lemma reload_round_trip_witness :
  let s := foldl step declared [Toggle 1000; Second 2000; Second 3000] in
  elapsedSeconds s = 2 /\
  elapsedSeconds (init (Some (saveState s)) 3000) = 4.
Proof.
  split; [reflexivity|].
  destruct (reload_round_trip (foldl step declared [Toggle 1000; Second 2000; Second 3000]) 3000)
    as (_ & _ & _ & H); [split; reflexivity | discriminate |].
  destruct (H 1000) as [H1 _]; [reflexivity | reflexivity | lia |]. exact H1.
Defined.

End TimerFacts.

Module TextHookDisplayFacts.

Import LineFilter.
Import TextHookDisplay.

(** A line added while the timer runs (or without a timer) is exactly
    what [deleteLastLine] takes back; with the timer stopped nothing is
    stored and the timer is not touched; and a stored line restarts the
    minute of the idle check. *)
Theorem addLine_and_back (timer : option Timer.t) (now : Z)
    (lines : list jsstring) (text : jsstring) :
  let '(lines', timer') := addLine timer now lines text in
  match timer with
  | Some tm =>
      if Timer.isRunning tm
      then deleteLastLine lines' = lines /\ last lines' = Some text /\
           (exists tm', timer' = Some tm' /\
                        Timer.lastLineAddedTime tm' = Some now /\
                        Timer.isRunning tm' = true /\
                        Timer.elapsedSeconds tm' = Timer.elapsedSeconds tm)
      else lines' = lines /\ timer' = timer
  | None => deleteLastLine lines' = lines /\ last lines' = Some text /\ timer' = None
  end.
Proof.
  assert (Hback : deleteLastLine (lines ++ [text]) = lines /\
                  last (lines ++ [text]) = Some text).
  { unfold deleteLastLine. rewrite length_app. cbn [length].
    replace (0 <? length lines + 1)%nat with true by (symmetry; apply Nat.ltb_lt; lia).
    split; [apply removelast_last | apply last_snoc]. }
  unfold addLine. destruct timer as [tm|].
  - destruct (Timer.isRunning tm) eqn:Er; cbn [negb].
    + destruct Hback as [H1 H2]. split; [exact H1|]. split; [exact H2|].
      eexists. split; [reflexivity|]. cbn. now repeat split.
    + now split.
  - destruct Hback as [H1 H2]. now repeat split.
Qed.

Lemma delete_past_end (lines : list jsstring) (i : nat) :
  (length lines <= i)%nat -> delete i lines = lines.
Proof.
  revert i. induction lines as [|l lines IH]; intros [|i] Hi; cbn in *;
    [reflexivity | reflexivity | lia | f_equal; apply IH; lia].
Qed.

(** [removeLine(index)] leaves the lines alone when [index] is at or past
    the end and removes exactly one line otherwise (if there is one), also when [index] lies
    below minus the length; a negative index in range counts from the
    end; and [deleteLastLine] is [removeLine(-1)]. *)
Theorem removeLine_by_index (lines : list jsstring) (index : Z) :
  let len := Z.of_nat (length lines) in
  (len <= index -> removeLine lines index = lines) /\
  (index < len -> lines <> [] -> S (length (removeLine lines index)) = length lines) /\
  (- len <= index < 0 -> removeLine lines index = removeLine lines (len + index)) /\
  deleteLastLine lines = removeLine lines (-1).
Proof.
  cbv zeta. unfold removeLine, splice1.
  split; [|split; [|split]].
  - intros Hi. replace (index <? 0) with false by (symmetry; apply Z.ltb_ge; lia).
    rewrite Z.min_r by lia. rewrite Nat2Z.id. now apply delete_past_end.
  - intros Hi Hne.
    assert (0 < length lines)%nat by (destruct lines; [congruence | cbn; lia]).
    assert (Hlen : forall i, (i < length lines)%nat ->
                             S (length (delete i lines)) = length lines).
    { intros i Hlt. rewrite length_delete; [lia|]. apply lookup_lt_is_Some_2. lia. }
    destruct (index <? 0) eqn:Eneg; apply Hlen.
    + apply Z.ltb_lt in Eneg. lia.
    + apply Z.ltb_ge in Eneg. lia.
  - intros Hi. replace (index <? 0) with true by (symmetry; apply Z.ltb_lt; lia).
    replace (Z.of_nat (length lines) + index <? 0) with false
      by (symmetry; apply Z.ltb_ge; lia).
    rewrite Z.max_l by lia. now rewrite Z.min_l by lia.
  - unfold deleteLastLine. cbn [Z.ltb Z.compare].
    destruct lines as [|l ls _] using rev_ind; [reflexivity|].
    rewrite length_app. cbn [length].
    replace (0 <? length ls + 1)%nat with true by (symmetry; apply Nat.ltb_lt; lia).
    rewrite removelast_last, Z.max_l by lia.
    replace (Z.to_nat (Z.of_nat (length ls + 1) + -1)) with (length ls) by lia.
    rewrite (delete_middle ls [] l). now rewrite app_nil_r.
Qed.

Lemma removeLine_by_index_witness :
  removeLine [[12354]; [12356]; [12358]] (-2) = removeLine [[12354]; [12356]; [12358]] 1 /\
  S (length (removeLine [[12354]; [12356]; [12358]] (-2))) = 3%nat.
Proof.
  destruct (removeLine_by_index [[12354]; [12356]; [12358]] (-2)) as (_ & H2 & H3 & _).
  split; [apply H3; simpl; lia | apply H2; [simpl; lia | discriminate]].
Defined.

(** Saving an edit touches at most the edited line: the number of lines
    stays, every other line stays, an index in range ends up holding the
    trimmed text, an index out of range (the element is not among the
    rendered lines) changes nothing, and saving the same edit again
    changes nothing more. *)
Theorem saveLineEdit_touches_one_line (lines : list jsstring) (lineIndex : Z)
    (textContent : jsstring) :
  let saved := saveLineEdit lines lineIndex textContent in
  length saved = length lines /\
  (forall j, Z.of_nat j <> lineIndex -> saved !! j = lines !! j) /\
  (0 <= lineIndex < Z.of_nat (length lines) ->
   saved !! Z.to_nat lineIndex = Some (trim textContent)) /\
  (lineIndex < 0 \/ Z.of_nat (length lines) <= lineIndex -> saved = lines) /\
  saveLineEdit saved lineIndex textContent = saved.
Proof.
  cbv zeta. unfold saveLineEdit.
  destruct ((0 <=? lineIndex) && (lineIndex <? Z.of_nat (length lines))) eqn:Ein.
  - apply andb_true_iff in Ein as [H0 H1].
    apply Z.leb_le in H0. apply Z.ltb_lt in H1.
    destruct (bool_decide (lines !! Z.to_nat lineIndex = Some (trim textContent)))
      eqn:Esame.
    + apply bool_decide_eq_true in Esame.
      split; [reflexivity|]. split; [reflexivity|]. split; [now intros _|].
      split; [intros [?|?]; lia|].
      replace ((0 <=? lineIndex) && (lineIndex <? Z.of_nat (length lines))) with true
        by (symmetry; apply andb_true_iff; split; [apply Z.leb_le | apply Z.ltb_lt]; lia).
      now rewrite bool_decide_eq_true_2.
    + split; [apply length_insert|].
      split; [intros j Hj; apply list_lookup_insert_ne; lia|].
      split; [intros _; apply list_lookup_insert_eq; lia|].
      split; [intros [?|?]; lia|].
      rewrite length_insert.
      replace ((0 <=? lineIndex) && (lineIndex <? Z.of_nat (length lines))) with true
        by (symmetry; apply andb_true_iff; split; [apply Z.leb_le | apply Z.ltb_lt]; lia).
      rewrite bool_decide_eq_true_2; [reflexivity|].
      apply list_lookup_insert_eq. lia.
  - apply andb_false_iff in Ein.
    split; [reflexivity|]. split; [reflexivity|].
    split; [intros [H0 H1]; destruct Ein as [E|E];
            [apply Z.leb_gt in E | apply Z.ltb_ge in E]; lia|].
    split; [reflexivity|].
    replace ((0 <=? lineIndex) && (lineIndex <? Z.of_nat (length lines))) with false;
      [reflexivity|].
    symmetry. now apply andb_false_iff.
Qed.

End TextHookDisplayFacts.

(* ===================================================================== *)
(** * Facts about colours *)
(* ===================================================================== *)

Module SettingsFacts.

Import LineFilter.
Import Settings.

(** The three channels [adjustColor] reads from a colour string. *)
Definition channels (hex : jsstring) : option Z * option Z * option Z :=
  (parseInt16 (slice hex 1 3), parseInt16 (slice hex 3 5), parseInt16 (slice hex 5 7)).

Definition shifted (n amount : Z) : Z := Z.max 0 (Z.min 255 (n + amount)).

(** Two digits, as [adjustColor] writes a channel. *)
Definition twoDigits (n : Z) : jsstring := padStart2 (toString16 (Some n)).

Definition byte_range : list Z := map Z.of_nat (seq 0 256).

Lemma byte_range_spec (n : Z) : 0 <= n <= 255 -> n ∈ byte_range.
Proof.
  intros H. unfold byte_range. apply list_elem_of_fmap.
  exists (Z.to_nat n). split; [lia|]. apply elem_of_seq. lia.
Qed.

Lemma twoDigits_read_back (n : Z) :
  0 <= n <= 255 ->
  length (twoDigits n) = 2%nat /\ parseInt16 (twoDigits n) = Some n.
Proof.
  intros H.
  assert (Hall : forallb (fun n => (length (twoDigits n) =? 2)%nat
                                   && bool_decide (parseInt16 (twoDigits n) = Some n))
                         byte_range = true) by (vm_compute; reflexivity).
  rewrite forallb_forall in Hall.
  specialize (Hall n). rewrite <- list_elem_of_In in Hall.
  specialize (Hall (byte_range_spec n H)).
  apply andb_true_iff in Hall as [H1 H2].
  apply Nat.eqb_eq in H1. apply bool_decide_eq_true in H2. now split.
Qed.

Lemma channels_of_digits (a b c : jsstring) :
  length a = 2%nat -> length b = 2%nat -> length c = 2%nat ->
  channels (35 :: a ++ b ++ c) = (parseInt16 a, parseInt16 b, parseInt16 c).
Proof.
  intros Ha Hb Hc.
  destruct a as [|a1 [|a2 [|]]]; try discriminate.
  destruct b as [|b1 [|b2 [|]]]; try discriminate.
  destruct c as [|c1 [|c2 [|]]]; try discriminate.
  reflexivity.
Qed.

Lemma shifted_range (n amount : Z) : 0 <= shifted n amount <= 255.
Proof. unfold shifted. lia. Qed.

(** For a colour whose three channels read as numbers, [adjustColor]
    writes a seven-character string whose channels read back as the old
    ones moved by [amount] and cut to 0..255; adjusting the result by 0
    gives it back unchanged. *)
Theorem adjustColor_reads_back (hex : jsstring) (amount r g b : Z) :
  channels hex = (Some r, Some g, Some b) ->
  let out := adjustColor hex amount in
  length out = 7%nat /\
  channels out = (Some (shifted r amount), Some (shifted g amount),
                  Some (shifted b amount)) /\
  adjustColor out 0 = out.
Proof.
  intros Hch. cbv zeta.
  assert (Hne : hex <> []) by (intros ->; discriminate).
  assert (Hout : adjustColor hex amount
                 = 35 :: twoDigits (shifted r amount) ++ twoDigits (shifted g amount)
                      ++ twoDigits (shifted b amount)).
  { unfold adjustColor. destruct hex as [|h hex]; [congruence|].
    unfold channels in Hch. injection Hch as -> -> ->. reflexivity. }
  destruct (twoDigits_read_back _ (shifted_range r amount)) as [Lr Pr].
  destruct (twoDigits_read_back _ (shifted_range g amount)) as [Lg Pg].
  destruct (twoDigits_read_back _ (shifted_range b amount)) as [Lb Pb].
  assert (Hback : channels (adjustColor hex amount)
                  = (Some (shifted r amount), Some (shifted g amount),
                     Some (shifted b amount))).
  { rewrite Hout, channels_of_digits by assumption. now rewrite Pr, Pg, Pb. }
  split; [|split].
  - rewrite Hout. cbn [length]. rewrite !length_app. lia.
  - exact Hback.
  - unfold channels in Hback. injection Hback as H1 H2 H3.
    rewrite Hout at 1. unfold adjustColor at 1. cbv beta iota zeta.
    rewrite <- Hout, H1, H2, H3. cbn [shiftChannel].
    pose proof (shifted_range r amount). pose proof (shifted_range g amount).
    pose proof (shifted_range b amount).
    rewrite !Z.add_0_r, !(Z.min_r 255), !Z.max_r by lia.
    symmetry. exact Hout.
Qed.

Lemma adjustColor_reads_back_witness :
  channels (adjustColor [35; 102; 48; 102; 48; 102; 48] 30) = (Some 255, Some 255, Some 255).
Proof.
  destruct (adjustColor_reads_back [35; 102; 48; 102; 48; 102; 48] 30 240 240 240)
    as (_ & H & _); [reflexivity|]. exact H.
Defined.

(** A channel that does not read as a number is written as [NaN]: the
    result is then longer than seven characters, and a missing colour
    gives the grey [#cccccc]. *)
Theorem adjustColor_without_digits (hex : jsstring) (amount : Z) :
  (hex = [] -> adjustColor hex amount = [35; 99; 99; 99; 99; 99; 99]) /\
  (hex <> [] ->
   (parseInt16 (slice hex 1 3) = None \/ parseInt16 (slice hex 3 5) = None \/
    parseInt16 (slice hex 5 7) = None) ->
   (7 < length (adjustColor hex amount))%nat).
Proof.
  split; [now intros ->|].
  intros Hne Hnan. unfold adjustColor. destruct hex as [|h hex]; [congruence|].
  assert (Hlen : forall v, (2 <= length (padStart2 (toString16 (shiftChannel v amount))))%nat /\
                           (v = None ->
                            length (padStart2 (toString16 (shiftChannel v amount))) = 3%nat)).
  { intros [n|]; [|split; [cbn; lia | reflexivity]]. split; [|discriminate].
    unfold padStart2, shiftChannel, toString16.
    destruct (_ <? 16); cbn; lia. }
  cbv zeta. cbn [length]. rewrite !length_app.
  pose proof (Hlen (parseInt16 (slice (h :: hex) 1 3))) as [A1 A2].
  pose proof (Hlen (parseInt16 (slice (h :: hex) 3 5))) as [B1 B2].
  pose proof (Hlen (parseInt16 (slice (h :: hex) 5 7))) as [C1 C2].
  destruct Hnan as [E|[E|E]];
    [specialize (A2 E) | specialize (B2 E) | specialize (C2 E)]; lia.
Qed.

Lemma adjustColor_without_digits_witness :
  (7 < length (adjustColor [35; 122; 122]%Z 30))%nat.
Proof.
  destruct (adjustColor_without_digits [35; 122; 122] 30) as [_ H].
  apply H; [discriminate | left; reflexivity].
Defined.

End SettingsFacts.
